(** * snoowrap: the Listing / More pagination engine and the request pipeline

    A shallow embedding of
      - [old_src/objects/Listing.ts]   (class [Listing])
      - [old_src/objects/More.ts]      (class [More], [getNextIdSlice], [emptyChildren])
      - [old_src/request_handler.ts]   ([oauthRequest] and the helpers it awaits)
      - [constants.ts], [create_config.ts], the parts of [helpers.ts] that [More] calls.

    Promises are run to completion in the order in which the code starts them:
    a computation takes the state it runs in and returns its settlement
    (fulfilled, rejected, or out of fuel for the recursive ones) with the new
    state.  A chain of promises that never ends is out of fuel for every
    amount of fuel.  Where a method calls itself before anything is awaited,
    an endless recursion uses up the stack and JavaScript ends it with a
    RangeError: [Listing.fetchMore] in the branch of the lookahead, where the
    methods below reject with that error ([ListingObj.repeats]), and
    [More.fetchMore] with [skipReplies] for an amount that leaves a fraction
    below 1, where they run out of fuel (the statements about [More] are
    about amounts that never get there).

    The requester's [_promiseWrap] depends on the [proxies] setting, which the
    methods of [Listing] therefore take as a parameter.  The answers of the
    remote side are a parameter as well ([Remote]); [as_called] is the
    instance that the calls of the code as it stands come back with. *)

From stdpp Require Import gmap strings list.
From Stdlib Require Import ZArith Lia Ascii.

Local Open Scope string_scope.
Local Open Scope list_scope.
Local Open Scope Z_scope.

(** ** JavaScript values *)

(** Numbers: the integers, the finite numbers that are not integers, the two
    infinities and NaN.  A JavaScript number is a double, so what a number
    that is not an integer has after the point is a binary fraction:
    [Frac z f] is [z + 0.b1...bn] in binary, where [z] is the floor and the
    bits are the constructors of [f] from the outside in, the innermost [xH]
    being the last 1.  So [Frac 1 1] is 1.5, [Frac 0 2] is 0.25 and
    [Frac (-1) 3] is -0.25.  Adding and subtracting an array length is exact,
    as it is for the integers. *)
Inductive JsNum := Fin (z : Z) | Frac (z : Z) (f : positive) | PosInf | NegInf | NaN.

Inductive JsVal :=
| VUndefined
| VNull
| VBool (b : bool)
| VNum (n : JsNum)
| VStr (s : string).

#[global] Instance JsNum_eq_dec : EqDecision JsNum.
Proof. solve_decision. Defined.
#[global] Instance JsVal_eq_dec : EqDecision JsVal.
Proof. solve_decision. Defined.

(** [Number.MAX_SAFE_INTEGER] *)
Definition MAX_SAFE_INTEGER : Z := 9007199254740991.

Module Num.

(** [n <= 0] *)
Definition le0 (n : JsNum) : bool :=
  match n with
  | Fin z => z <=? 0
  | Frac z _ => z <? 0
  | NegInf => true
  | PosInf | NaN => false
  end.

(** [n - k] and [n + k] for an array length [k] *)
Definition sub (n : JsNum) (k : nat) : JsNum :=
  match n with
  | Fin z => Fin (z - Z.of_nat k)
  | Frac z f => Frac (z - Z.of_nat k) f
  | _ => n
  end.

Definition add (n : JsNum) (k : nat) : JsNum :=
  match n with
  | Fin z => Fin (z + Z.of_nat k)
  | Frac z f => Frac (z + Z.of_nat k) f
  | _ => n
  end.

(** [Math.min(n, m)] for an integer [m] *)
Definition min (n : JsNum) (m : Z) : JsNum :=
  match n with
  | Fin z => Fin (Z.min z m)
  | Frac z f => if z <? m then Frac z f else Fin m
  | PosInf => Fin m
  | NegInf => NegInf
  | NaN => NaN
  end.

(** [k > n] for an array length [k] *)
Definition lt_len (n : JsNum) (k : nat) : bool :=
  match n with
  | Fin z | Frac z _ => z <? Z.of_nat k
  | NegInf => true
  | PosInf | NaN => false
  end.

(** [n] is an integer or infinite. *)
Definition integral (n : JsNum) : bool :=
  match n with
  | Fin _ | PosInf | NegInf => true
  | Frac _ _ | NaN => false
  end.

(** The integer that [Frac z f] is cut down to where an integer is needed
    (an index, a count, the delay of a timer): the digits after the point go,
    which rounds towards zero. *)
Definition trunc (z : Z) : Z := if z <? 0 then z + 1 else z.

(** The position an index argument of [slice]/[splice] denotes in an array
    of length [len]: the digits after the point are cut off, negative values
    count from the end, everything is clamped to [0 .. len], NaN is 0. *)
Definition index (n : JsNum) (len : nat) : nat :=
  match n with
  | Fin z => if z <? 0 then Z.to_nat (Z.max (Z.of_nat len + z) 0)
             else Nat.min (Z.to_nat z) len
  | Frac z _ => if trunc z <? 0 then Z.to_nat (Z.max (Z.of_nat len + trunc z) 0)
                else Nat.min (Z.to_nat (trunc z)) len
  | PosInf => len
  | NegInf | NaN => 0%nat
  end.

(** The [deleteCount] argument of [splice]: the digits after the point are
    cut off and the result is clamped to [0 .. len]. *)
Definition count (n : JsNum) (len : nat) : nat :=
  match n with
  | Fin z => Nat.min (Z.to_nat z) len
  | Frac z _ => Nat.min (Z.to_nat (trunc z)) len
  | PosInf => len
  | NegInf | NaN => 0%nat
  end.

End Num.

(** Truthiness, as [if (v)], [!v] and [a || b] see a value. *)
Definition truthy (v : JsVal) : bool :=
  match v with
  | VUndefined | VNull => false
  | VBool b => b
  | VNum (Fin z) => negb (z =? 0)
  | VNum NaN => false
  | VNum (Frac _ _ | PosInf | NegInf) => true
  | VStr s => negb (String.eqb s "")
  end.

(** A nullable string property ([null] is [None]); the empty string is falsy. *)
Definition truthy_str (o : option string) : bool :=
  match o with
  | Some s => negb (String.eqb s "")
  | None => false
  end.

(** ** Arrays *)

Module Arr.
Section Ops.
Context {A : Type}.

(** [a.slice(start)] *)
Definition slice_from (start : JsNum) (a : list A) : list A :=
  drop (Num.index start (length a)) a.

(** [a.slice(start, end)] *)
Definition slice (start : nat) (stop : JsNum) (a : list A) : list A :=
  let s := Nat.min start (length a) in
  let e := Num.index stop (length a) in
  take (e - s) (drop s a).

(** [a.splice(0, n)]: the removed elements and what stays in [a]. *)
Definition splice0 (n : JsNum) (a : list A) : list A * list A :=
  let k := Num.count n (length a) in (take k a, drop k a).

(** [a.splice(start)]: the removed elements and what stays in [a]. *)
Definition splice_from (start : JsNum) (a : list A) : list A * list A :=
  let k := Num.index start (length a) in (drop k a, take k a).
End Ops.
End Arr.

(** [ids.join(',')] *)
Fixpoint join (sep : string) (l : list string) : string :=
  match l with
  | [] => ""
  | [x] => x
  | x :: rest => x +:+ sep +:+ join sep rest
  end.

(** ** constants.ts *)

Inductive Method := DELETE | GET | HEAD | PATCH | POST | PUT.

#[global] Instance Method_eq_dec : EqDecision Method.
Proof. solve_decision. Defined.

Definition HTTP_VERBS : list Method := [DELETE; GET; HEAD; PATCH; POST; PUT].
Definition IDEMPOTENT_HTTP_VERBS : list Method := [DELETE; GET; HEAD; PUT].
Definition MAX_TOKEN_LATENCY : Z := 10000.
Definition MAX_API_INFO_AMOUNT : Z := 100.
Definition MAX_API_MORECHILDREN_AMOUNT : Z := 20.
Definition MAX_LISTING_ITEMS : Z := 100.

(** ** Content objects, More stubs, Listings *)

(** The [_name] of a content class. *)
Inductive Kind := Comment | Submission | PrivateMessage | RedditContent.

#[global] Instance Kind_eq_dec : EqDecision Kind.
Proof. solve_decision. Defined.

Record Content := {
  _name : Kind;
  name : string;
  c_link_id : option string;
  c_parent_id : option string
}.

(** class [More] (its own enumerable properties). *)
Record More := {
  children : list string;
  m_name : option string;
  link_id : option string;
  parent_id : option string
}.

(** What an array of API objects holds: content, or a [More] instance. *)
Inductive Item :=
| Thing (c : Content)
| Stub (m : More).

#[global] Instance Content_eq_dec : EqDecision Content.
Proof. solve_decision. Defined.
#[global] Instance More_eq_dec : EqDecision More.
Proof. solve_decision. Defined.
#[global] Instance Item_eq_dec : EqDecision Item.
Proof. solve_decision. Defined.

(** [item instanceof More] *)
Definition instanceofMore (i : Item) : bool :=
  match i with Stub _ => true | Thing _ => false end.

(** The [_transform] of a Listing: the identity or lodash's [property(path)]. *)
Inductive Transform := Identity | Property (path : string).

#[global] Instance Transform_eq_dec : EqDecision Transform.
Proof. solve_decision. Defined.

(** class [Listing]: the array elements and the properties of
    [INTERNAL_DEFAULTS].  [_query] is the query object; a key that is absent
    reads as [undefined]. *)
Record Listing := {
  items : list Item;
  _query : gmap string JsVal;
  _transform : Transform;
  _method : Method;
  _isCommentList : bool;
  _link_id : option string;
  _uri : option string;
  _more : option More;
  _cachedLookahead : option (list Item)
}.

(** [obj[key]] on a query object *)
Definition get (q : gmap string JsVal) (key : string) : JsVal :=
  default VUndefined (q !! key).

(** lodash [isEmpty] on a nullable array *)
Definition isEmpty {A} (o : option (list A)) : bool :=
  match o with
  | None | Some [] => true
  | Some (_ :: _) => false
  end.

Definition INTERNAL_DEFAULTS : Listing := {|
  items := [];
  _query := ∅;
  _transform := Identity;
  _method := GET;
  _isCommentList := false;
  _link_id := None;
  _uri := None;
  _more := None;
  _cachedLookahead := None
|}.

(** [export const emptyChildren = new More({children: []})] *)
Definition emptyChildren : More :=
  {| children := []; m_name := None; link_id := None; parent_id := None |}.

(** [get isFinished()] *)
Definition isFinished (this : Listing) : bool :=
  if _isCommentList this
  then isEmpty (_cachedLookahead this)
       && match _more this with
          | Some more => isEmpty (Some (children more))
          | None => false
          end
  else negb (truthy_str (_uri this))
       || (bool_decide (get (_query this) "after" = VNull)
           && bool_decide (get (_query this) "before" = VNull)).

(** ** Errors, settlements and the remote side *)

(** [StatusCodeError] is the rejection of a request that was answered with a
    status outside 2xx; it carries [e.statusCode] and
    [e.response.request.method].  [RequestError] is a request without an
    answer, [JsError] a plain [new Error(message)], [RangeError] the end of a
    recursion that has used up the call stack. *)
Inductive Error :=
| InvalidMethodCallError
| TypeError
| ReferenceError
| StatusCodeError (statusCode : Z) (method : Method)
| RateLimitError (timeUntilExpiry : Z)
| RequestError
| JsError (message : string)
| RangeError.

#[global] Instance Error_eq_dec : EqDecision Error.
Proof. solve_decision. Defined.

(** How a promise settles; [Pending] is a recursion that ran out of fuel. *)
Inductive Settled (A : Type) :=
| Fulfilled (a : A)
| Rejected (e : Error)
| Pending.
Arguments Fulfilled {A} a.
Arguments Rejected {A} e.
Arguments Pending {A}.

(** What the remote side answers to one request. *)
Inductive Response (A : Type) :=
| Resolved (a : A)
| Failed (e : Error).
Arguments Resolved {A} a.
Arguments Failed {A} e.

Definition settle {A} (r : Response A) : Settled A :=
  match r with
  | Resolved a => Fulfilled a
  | Failed e => Rejected e
  end.

(** The options object of a request: [uri], [qs], [method]. *)
Record Request := {
  uri : option string;
  qs : gmap string JsVal;
  method : Method
}.

(** One call of a request function of the requester ([oauthRequest],
    [_getListing], [_get]), with the call site that made it and the options
    object it was made with.  A page call also records whether the Listing was
    a comment Listing and the [options.amount] of the [fetchMore] that made
    it.  No request leaves the library without such a call; whether a call
    sends one is up to the function that is called (see [as_called]). *)
Inductive Call :=
| PageCall (commentList : bool) (amount : JsNum) (r : Request)
| InfoCall (r : Request)
| TreeCall (r : Request).

Definition request_of (c : Call) : Request :=
  match c with
  | PageCall _ _ r | InfoCall r | TreeCall r => r
  end.

(** What the three call sites get back.  An answer may depend on every call
    that was made before.
    - [page]: [oauthRequest({uri, qs, method}).then(this._transform)], a Listing;
    - [info]: [this._r._getListing({uri: 'api/info', qs})], the elements of the
      Listing;
    - [morechildren]: [this._r._get({uri: 'api/morechildren', qs})], its
      [json.data.things]. *)
Record Remote := {
  page : list Call → Request → Transform → Response Listing;
  info : list Call → Request → Response (list Item);
  morechildren : list Call → Request → Response (list Item)
}.

(** [oauthRequest(options)] called as Listing.ts calls it (line 168): the
    function is imported from request_handler.ts and called without a
    receiver, so [this] is [undefined] in its body.  Building the chain
    evaluates [this._config.retryErrorCodes] for the arguments of the first
    [catch], which throws a TypeError: the async function is rejected with it,
    and no request is sent. *)
Definition oauthRequest_unbound {A} : Response A := Failed TypeError.

(** [this._r._get(options)], which both calls of [More] end in ([_getListing]
    without a limit is [_get] with a [count]): it is
    [this._promiseWrap(oauthRequest.bind(this)({...options, method: 'get'}))].
    The request is sent; with [proxies: true] the wrapper then rejects with a
    TypeError whatever the answer is (see [ListingObj._promiseWrap]). *)
Definition _get {A} (proxies : bool) (answer : Response A) : Response A :=
  if proxies then Failed TypeError else answer.

(** What the three calls come back with in the code as it stands, for a
    remote side that answers the requests that reach it as [remote] does. *)
Definition as_called (proxies : bool) (remote : Remote) : Remote :=
  {| page := λ _ _ _, oauthRequest_unbound;
     info := λ log r, _get proxies (info remote log r);
     morechildren := λ log r, _get proxies (morechildren remote log r) |}.

(** A computation: from the requests sent so far to a settlement and the
    requests sent afterwards. *)
Definition Promise (A : Type) : Type := list Call → Settled A * list Call.

(** [a || b] on nullable strings, as a query value *)
Definition or_str (a b : option string) : JsVal :=
  if truthy_str a then from_option VStr VUndefined a
  else from_option VStr VUndefined b.

(** ** More.ts *)

Module MoreObj.

(** [getNextIdSlice] *)
Definition getNextIdSlice (children : list string) (startIndex : nat)
    (desiredAmount : JsNum) (limit : Z) : list string :=
  Arr.slice startIndex (Num.add (Num.min desiredAmount limit) startIndex) children.

(** [_clone]: a new More with the same own properties. *)
Definition _clone (this : More) : More :=
  {| children := children this; m_name := m_name this;
     link_id := link_id this; parent_id := parent_id this |}.

Definition info_request (ids : list string) : Request :=
  {| uri := Some "api/info";
     qs := {[ "count" := VNum (Fin 9999); "id" := VStr (join "," ids) ]};
     method := GET |}.

Definition tree_request (this : More) (ids : list string) : Request :=
  {| uri := Some "api/morechildren";
     qs := {[ "api_type" := VStr "json";
              "children" := VStr (join "," ids);
              "link_id" := or_str (link_id this) (parent_id this) ]};
     method := GET |}.

(** [Promise.all([a, b]).then(flatten)] once both have been started. *)
Definition all_flatten (a b : Settled (list Item)) : Settled (list Item) :=
  match a, b with
  | Fulfilled x, Fulfilled y => Fulfilled (x ++ y)
  | Rejected e, _ => Rejected e
  | _, Rejected e => Rejected e
  | _, _ => Pending
  end.

Definition isComment (i : Item) : bool :=
  match i with
  | Thing c => bool_decide (_name c = Comment)
  | Stub _ => false
  end.

(** [getEmptyRepliesListing] calls [.slice(3)] on [link_id || parent_id] of a
    Comment. *)
Definition repliesListing_throws (i : Item) : bool :=
  match i with
  | Thing c => bool_decide (_name c = Comment)
               && negb (truthy_str (c_link_id c)) && negb (truthy_str (c_parent_id c))
  | Stub _ => false
  end.

(** What [fetchTree] does with the [things] of a response before it goes on
    to the next slice.
    - [addEmptyRepliesListing] is mapped over the things;
    - [buildRepliesTree] reads [childMap] inside the expression that
      initialises it, in the callback of the second [filter]; the callback
      runs once for each Comment;
    - [childMores] are object spreads of the More instances among the result,
      and [pMapSeries] calls [c.fetchTree] on each. *)
Definition resolve_things (things : list Item) : Settled (list Item) :=
  if existsb repliesListing_throws things then Rejected TypeError
  else if existsb isComment things then Rejected ReferenceError
  else if existsb instanceofMore things then Rejected TypeError
  else Fulfilled things.

Section Methods.
Variable remote : Remote.

(** [fetchMore(options, startIndex)] and [fetchTree(options, startIndex)];
    of [options] the two read [amount] and [skipReplies].  With
    [skipReplies], an amount between 0 and 1 gives an empty slice, and the
    call repeats itself with the same amount and index: out of fuel here. *)
Fixpoint fetchMore (fuel : nat) (this : More) (amount : JsNum) (skipReplies : JsVal)
    (startIndex : nat) : Promise (list Item) :=
  fun log =>
  match fuel with
  | O => (Pending, log)
  | S fuel =>
    if Num.le0 amount || (length (children this) <=? startIndex)%nat
    then (Fulfilled [], log)
    else if negb (truthy skipReplies)
    then fetchTree fuel this amount skipReplies startIndex log
    else
      let ids := map (String.append "t1_")
                     (getNextIdSlice (children this) startIndex amount MAX_API_INFO_AMOUNT) in
      let promiseForThisBatch := settle (info remote log (info_request ids)) in
      let '(promiseForRemainingItems, log') :=
        fetchMore fuel this (Num.sub amount (length ids)) skipReplies
                  (startIndex + length ids)%nat (log ++ [InfoCall (info_request ids)]) in
      (all_flatten promiseForThisBatch promiseForRemainingItems, log')
  end

with fetchTree (fuel : nat) (this : More) (amount : JsNum) (skipReplies : JsVal)
    (startIndex : nat) : Promise (list Item) :=
  fun log =>
  match fuel with
  | O => (Pending, log)
  | S fuel =>
    if Num.le0 amount || (length (children this) <=? startIndex)%nat
    then (Fulfilled [], log)
    else
      let ids := getNextIdSlice (children this) startIndex amount MAX_API_MORECHILDREN_AMOUNT in
      let log1 := log ++ [TreeCall (tree_request this ids)] in
      match morechildren remote log (tree_request this ids) with
      | Failed e => (Rejected e, log1)
      | Resolved things =>
        match resolve_things things with
        | Fulfilled resultTrees =>
          let '(r, log2) :=
            fetchMore fuel this (Num.sub amount (length ids)) skipReplies
                      (startIndex + length ids)%nat log1 in
          match r with
          | Fulfilled nexts => (Fulfilled (resultTrees ++ nexts), log2)
          | other => (other, log2)
          end
        | other => (other, log1)
        end
      end
  end.

End Methods.
End MoreObj.

(** ** Listing.ts *)

(** The [options] argument of [Listing.fetchMore]: an object with the three
    properties the method reads (an absent property is [undefined]), or any
    other value, such as the bare number the method also accepts. *)
Record Options := {
  amount : JsVal;
  skipReplies : JsVal;
  append : JsVal
}.

Inductive Arg :=
| Bare (v : JsVal)
| Obj (o : Options).

Module ListingObj.

Definition set_items (v : list Item) (l : Listing) : Listing :=
  {| items := v; _query := _query l; _transform := _transform l; _method := _method l;
     _isCommentList := _isCommentList l; _link_id := _link_id l; _uri := _uri l;
     _more := _more l; _cachedLookahead := _cachedLookahead l |}.

Definition set_query (v : gmap string JsVal) (l : Listing) : Listing :=
  {| items := items l; _query := v; _transform := _transform l; _method := _method l;
     _isCommentList := _isCommentList l; _link_id := _link_id l; _uri := _uri l;
     _more := _more l; _cachedLookahead := _cachedLookahead l |}.

Definition set_more (v : option More) (l : Listing) : Listing :=
  {| items := items l; _query := _query l; _transform := _transform l; _method := _method l;
     _isCommentList := _isCommentList l; _link_id := _link_id l; _uri := _uri l;
     _more := v; _cachedLookahead := _cachedLookahead l |}.

Definition set_cachedLookahead (v : option (list Item)) (l : Listing) : Listing :=
  {| items := items l; _query := _query l; _transform := _transform l; _method := _method l;
     _isCommentList := _isCommentList l; _link_id := _link_id l; _uri := _uri l;
     _more := _more l; _cachedLookahead := v |}.

(** [_setMore] *)
Definition _setMore (moreObj : More) (l : Listing) : Listing :=
  {| items := items l; _query := _query l; _transform := _transform l; _method := _method l;
     _isCommentList := true; _link_id := _link_id l; _uri := _uri l;
     _more := Some moreObj; _cachedLookahead := _cachedLookahead l |}.

(** [_empty] *)
Definition _empty (this : Listing) : Listing := set_items [] this.

(** The constructor, on the properties [_clone] passes to it: the children
    are pushed, the internal properties are taken over, and a [More] that
    comes last among the children is popped and becomes [_more]. *)
Definition new_Listing (options : Listing) : Listing :=
  match last (items options) with
  | Some (Stub more) =>
      _setMore more (set_items (take (length (items options) - 1) (items options)) options)
  | _ => options
  end.

(** [_clone()] (shallow) *)
Definition _clone (this : Listing) : Listing :=
  new_Listing
    {| items := items this;
       _query := _query this;
       _transform := _transform this;
       _method := _method this;
       _isCommentList := _isCommentList this;
       _link_id := _link_id this;
       _uri := _uri this;
       _more := MoreObj._clone <$> _more this;
       _cachedLookahead := _cachedLookahead this |}.

(** [defaults(typeof options === 'number' ? {amount: options} : clone(options),
             {append: true, skipReplies: options.skipReplies})];
    reading [options.skipReplies] throws on [undefined] and [null]. *)
Definition parseOptions (options : Arg) : Error + Options :=
  match options with
  | Bare (VNum n) =>
      inr {| amount := VNum n; skipReplies := VUndefined; append := VBool true |}
  | Bare VUndefined | Bare VNull => inl TypeError
  | Bare _ =>
      inr {| amount := VUndefined; skipReplies := VUndefined; append := VBool true |}
  | Obj o =>
      inr {| amount := amount o;
             skipReplies := skipReplies o;
             append := if decide (append o = VUndefined) then VBool true else append o |}
  end.

(** [omitBy(clone(this._query), value => value === null || value === undefined)] *)
Definition omit_nullish (q : gmap string JsVal) : gmap string JsVal :=
  filter (λ kv, kv.2 ≠ VNull ∧ kv.2 ≠ VUndefined) q.

Definition page_request (this : Listing) (amount : JsNum) : Request :=
  let query := omit_nullish (_query this) in
  {| uri := _uri this;
     qs := if _isCommentList this then query
           else <["limit" := VNum (Num.min amount MAX_SAFE_INTEGER)]> query;
     method := _method this |}.

(** What [url.parse(value, true)] hands to [_setUri]: the path, and the query
    string as an object (a key that occurs once has a string value). *)
Record ParsedUri := {
  pathname : option string;
  query : gmap string string
}.

(** lodash [defaultsDeep(object, source)] on flat objects: a key of [source]
    is copied where [object] reads [undefined]. *)
Definition defaultsDeep (object source : gmap string JsVal) : gmap string JsVal :=
  union_with (λ o s, Some (if decide (o = VUndefined) then s else o)) object source.

(** [_setUri(value)], on the parsed [value] *)
Definition _setUri (parsedUri : ParsedUri) (this : Listing) : Listing :=
  let q := defaultsDeep (_query this) (VStr <$> query parsedUri) in
  let q := if truthy (get (VStr <$> query parsedUri) "before")
           then <["after" := VNull]> q
           else <["before" := VNull]> q in
  {| items := items this; _query := q; _transform := _transform this;
     _method := _method this; _isCommentList := _isCommentList this;
     _link_id := _link_id this; _uri := pathname parsedUri;
     _more := _more this; _cachedLookahead := _cachedLookahead this |}.

(** [a || b || c] on the stubs *)
Definition or_more (a b : option More) (c : More) : option More :=
  match a, b with
  | Some m, _ => Some m
  | None, Some m => Some m
  | None, None => Some c
  end.

(** [this._r._promiseWrap(promise)].  With [proxies: false] the getter hands
    out the identity.  With [proxies: true], the default of [createConfig], it
    hands out [promiseWrap], an async function that calls [forEach] on its
    argument: the argument is a Promise here, which has no [forEach], so what
    comes back is rejected with a TypeError whatever the promise settles
    with.  The promise is started before it is passed in, so what it sends
    is sent all the same. *)
Definition _promiseWrap {A S} (proxies : bool) (promise : Settled A * S) : Settled A * S :=
  if proxies
  then (match promise.1 with
        | Pending => Pending
        | Fulfilled _ | Rejected _ => Rejected TypeError
        end, promise.2)
  else promise.
Arguments _promiseWrap : simpl never.

(** The call of [fetchMore] on the copy [cloned] of [this] repeats the call on
    [this]: nothing was [removed] from the lookahead, and the copy has as many
    items as [this]. *)
Definition repeats (this cloned : Listing) (removed : list Item) : bool :=
  (length removed =? 0)%nat && (length (items cloned) =? length (items this))%nat.

Section Methods.
Variable proxies : bool.
Variable remote : Remote.

(** The [then] callback of [_fetchMoreRegular], up to the recursive call:
    the clone that [fetchMore] is called on next. *)
Definition merge_page (this : Listing) (amount : JsNum) (append : JsVal)
    (response : Listing) : Listing :=
  let cloned := _clone this in
  let cloned := if truthy append then cloned else _empty cloned in
  let cloned :=
    if truthy (get (_query cloned) "before")
    then set_query (<["after" := VNull]>
                      (<["before" := get (_query response) "before"]> (_query cloned)))
                   (set_items (items response ++ items cloned) cloned)
    else set_query (<["after" := get (_query response) "after"]>
                      (<["before" := VNull]> (_query cloned)))
                   (set_items (items cloned ++ items response) cloned) in
  if _isCommentList this
  then
    let cloned := set_more (or_more (_more cloned) (_more response) emptyChildren) cloned in
    if Num.lt_len amount (length (items response))
    then
      let '(removed, rest) := Arr.splice_from amount (items cloned) in
      set_cachedLookahead (Some removed) (set_items rest cloned)
    else cloned
  else cloned.

(** [_fetchMoreRegular(options)] *)
Definition _fetchMoreRegular (fetchMore : Listing → Arg → Promise Listing)
    (this : Listing) (options : Options) (amount : JsNum) : Promise Listing :=
  fun log =>
  let request := page_request this amount in
  let log' := log ++ [PageCall (_isCommentList this) amount request] in
  match page remote log request (_transform this) with
  | Failed e => (Rejected e, log')
  | Resolved response =>
      fetchMore (merge_page this amount (append options) response)
                (Obj {| amount := VNum (Num.sub amount (length (items response)));
                        skipReplies := skipReplies options;
                        append := VBool true |})
                log'
  end.

(** [_fetchMoreComments(options)], for [this._more = more] *)
Definition _fetchMoreComments (fuel : nat) (this : Listing) (more : More)
    (options : Options) (amount : JsNum) : Promise Listing :=
  fun log =>
  let '(r, log') := MoreObj.fetchMore remote fuel more amount (skipReplies options) 0 log in
  match r with
  | Fulfilled moreComments =>
      let cloned := _clone this in
      let cloned := if truthy (append options) then cloned else _empty cloned in
      let cloned := set_items (items cloned ++ moreComments) cloned in
      match _more cloned with
      | Some m =>
          (Fulfilled
             (set_more (Some {| children := Arr.slice_from amount (children m);
                                m_name := m_name m;
                                link_id := link_id m;
                                parent_id := parent_id m |}) cloned),
           log')
      | None => (Rejected TypeError, log')
      end
  | Rejected e => (Rejected e, log')
  | Pending => (Pending, log')
  end.

(** [fetchMore(options)].  In the branch of the lookahead the method calls
    itself on the copy before anything is awaited.  When nothing was taken
    from the lookahead and the copy has as many items as [this] (no More was
    popped by the constructor), the copy equals [this] and the new amount is
    the old one: the call repeats itself, level after level, until the stack
    is used up, and the RangeError of that is what every level is rejected
    with. *)
Fixpoint fetchMore (fuel : nat) (this : Listing) (options : Arg) : Promise Listing :=
  fun log =>
  match fuel with
  | O => (Pending, log)
  | S fuel =>
    match parseOptions options with
    | inl e => (Rejected e, log)
    | inr parsedOptions =>
      match amount parsedOptions with
      | VNum NaN => (Rejected InvalidMethodCallError, log)
      | VNum amount =>
        if Num.le0 amount || isFinished this
        then _promiseWrap proxies
               (Fulfilled (if truthy (append parsedOptions)
                           then _clone this else _empty (_clone this)), log)
        else
          match _cachedLookahead this with
          | Some _ =>
              let cloned := _clone this in
              match _cachedLookahead cloned with
              | Some lookahead =>
                  let '(removed, rest) := Arr.splice0 amount lookahead in
                  if repeats this cloned removed then (Rejected RangeError, log)
                  else
                    let cloned :=
                      set_cachedLookahead (Some rest)
                        (set_items (items cloned ++ removed) cloned) in
                    fetchMore fuel cloned
                      (Bare (VNum (Num.add (Num.sub amount (length (items cloned)))
                                           (length (items this)))))
                      log
              | None => (Rejected TypeError, log)
              end
          | None =>
              _promiseWrap proxies
                match _more this with
                | Some more => _fetchMoreComments fuel this more parsedOptions amount log
                | None => _fetchMoreRegular (fetchMore fuel) this parsedOptions amount log
                end
          end
      | _ => (Rejected InvalidMethodCallError, log)
      end
    end
  end.

(** [fetchAll(options)]: [this.fetchMore({...options, amount: Infinity})].
    The spread of [undefined] or of a primitive contributes nothing. *)
Definition fetchAll (fuel : nat) (this : Listing) (options : Arg) : Promise Listing :=
  fetchMore fuel this
    (Obj match options with
         | Obj o => {| amount := VNum PosInf; skipReplies := skipReplies o; append := append o |}
         | Bare _ => {| amount := VNum PosInf; skipReplies := VUndefined; append := VUndefined |}
         end).

End Methods.
End ListingObj.

(** ** Listing.ts over a store of objects

    The same methods with the objects they touch kept in a store, so that a
    clone and its original are different objects that may share parts: a
    Listing owns its elements and refers to its query object, its lookahead
    array and its More stub; a More refers to its children array.  A More
    instance among the elements of an array is a reference as well. *)

Module Store.

(** Objects are named by positive numbers. *)
Abbreviation loc := positive.

Inductive Elem :=
| EThing (c : Content)
| EStub (m : loc).

Record MoreCell := {
  s_children : loc;
  s_name : option string;
  s_link_id : option string;
  s_parent_id : option string
}.

Record ListingCell := {
  elems : list Elem;
  query : loc;
  transform : Transform;
  l_method : Method;
  isCommentList : bool;
  l_link_id : option string;
  l_uri : option string;
  more : option loc;
  cachedLookahead : option loc
}.

Inductive Cell :=
| CListing (l : ListingCell)
| CQuery (q : gmap string JsVal)
| CArray (a : list Elem)
| CIds (ids : list string)
| CMore (m : MoreCell).

(** The store and the requests sent so far. *)
Definition State : Type := gmap loc Cell * list Call.

(** A new object *)
Definition alloc (c : Cell) (h : gmap loc Cell) : loc * gmap loc Cell :=
  let l := fresh (dom h) in (l, <[l := c]> h).

Definition listing_at (h : gmap loc Cell) (l : loc) : option ListingCell :=
  match h !! l with Some (CListing c) => Some c | _ => None end.

Definition query_at (h : gmap loc Cell) (l : loc) : option (gmap string JsVal) :=
  match h !! l with Some (CQuery q) => Some q | _ => None end.

Definition array_at (h : gmap loc Cell) (l : loc) : option (list Elem) :=
  match h !! l with Some (CArray a) => Some a | _ => None end.

Definition ids_at (h : gmap loc Cell) (l : loc) : option (list string) :=
  match h !! l with Some (CIds a) => Some a | _ => None end.

Definition more_at (h : gmap loc Cell) (l : loc) : option MoreCell :=
  match h !! l with Some (CMore m) => Some m | _ => None end.

Definition set_elems (v : list Elem) (l : ListingCell) : ListingCell :=
  {| elems := v; query := query l; transform := transform l; l_method := l_method l;
     isCommentList := isCommentList l; l_link_id := l_link_id l; l_uri := l_uri l;
     more := more l; cachedLookahead := cachedLookahead l |}.

Definition set_more (v : option loc) (l : ListingCell) : ListingCell :=
  {| elems := elems l; query := query l; transform := transform l; l_method := l_method l;
     isCommentList := isCommentList l; l_link_id := l_link_id l; l_uri := l_uri l;
     more := v; cachedLookahead := cachedLookahead l |}.

Definition set_cachedLookahead (v : option loc) (l : ListingCell) : ListingCell :=
  {| elems := elems l; query := query l; transform := transform l; l_method := l_method l;
     isCommentList := isCommentList l; l_link_id := l_link_id l; l_uri := l_uri l;
     more := more l; cachedLookahead := v |}.

(** *** What an object looks like from outside *)

Definition view_more (h : gmap loc Cell) (m : loc) : option More :=
  mc ← more_at h m;
  ids ← ids_at h (s_children mc);
  Some {| children := ids; m_name := s_name mc;
          link_id := s_link_id mc; parent_id := s_parent_id mc |}.

Definition view_elem (h : gmap loc Cell) (e : Elem) : option Item :=
  match e with
  | EThing c => Some (Thing c)
  | EStub m => Stub <$> view_more h m
  end.

Definition view_elems (h : gmap loc Cell) (es : list Elem) : option (list Item) :=
  mapM (view_elem h) es.

(** The Listing at [l] with everything it refers to. *)
Definition view (h : gmap loc Cell) (l : loc) : option Listing :=
  cell ← listing_at h l;
  its ← view_elems h (elems cell);
  q ← query_at h (query cell);
  mo ← match more cell with
       | Some m => Some <$> view_more h m
       | None => Some None
       end;
  la ← match cachedLookahead cell with
       | Some a => arr ← array_at h a; Some <$> view_elems h arr
       | None => Some None
       end;
  Some {| items := its; _query := q; _transform := transform cell;
          _method := l_method cell; _isCommentList := isCommentList cell;
          _link_id := l_link_id cell; _uri := l_uri cell;
          _more := mo; _cachedLookahead := la |}.

(** *** Objects that arrive from the remote side *)

(** A [More] instance with its children array. *)
Definition new_More (m : More) (h : gmap loc Cell) : loc * gmap loc Cell :=
  let '(ids, h) := alloc (CIds (children m)) h in
  alloc (CMore {| s_children := ids; s_name := m_name m;
                  s_link_id := link_id m; s_parent_id := parent_id m |}) h.

Fixpoint new_items (l : list Item) (h : gmap loc Cell) : list Elem * gmap loc Cell :=
  match l with
  | [] => ([], h)
  | Thing c :: rest =>
      let '(es, h) := new_items rest h in (EThing c :: es, h)
  | Stub m :: rest =>
      let '(lm, h) := new_More m h in
      let '(es, h) := new_items rest h in (EStub lm :: es, h)
  end.

(** A Listing with its query object, its stub and its lookahead array. *)
Definition put (l : Listing) (h : gmap loc Cell) : loc * gmap loc Cell :=
  let '(es, h) := new_items (items l) h in
  let '(q, h) := alloc (CQuery (_query l)) h in
  let '(mo, h) := match _more l with
                  | Some m => let '(lm, h) := new_More m h in (Some lm, h)
                  | None => (None, h)
                  end in
  let '(la, h) := match _cachedLookahead l with
                  | Some a =>
                      let '(arr, h) := new_items a h in
                      let '(la, h) := alloc (CArray arr) h in (Some la, h)
                  | None => (None, h)
                  end in
  alloc (CListing {| elems := es; query := q; transform := _transform l;
                     l_method := _method l; isCommentList := _isCommentList l;
                     l_link_id := _link_id l; l_uri := _uri l;
                     more := mo; cachedLookahead := la |}) h.

(** *** The methods *)

(** [get isFinished()] *)
Definition isFinished (h : gmap loc Cell) (this : loc) : option bool :=
  cell ← listing_at h this;
  if isCommentList cell
  then
    la ← match cachedLookahead cell with
         | Some a => Some <$> array_at h a
         | None => Some None
         end;
    match more cell with
    | Some m =>
        mc ← more_at h m;
        ids ← ids_at h (s_children mc);
        Some (isEmpty la && isEmpty (Some ids))
    | None => Some false
    end
  else
    q ← query_at h (query cell);
    Some (negb (truthy_str (l_uri cell))
          || (bool_decide (get q "after" = VNull) && bool_decide (get q "before" = VNull))).

(** [_clone()]: [clone] makes a new query object and a new lookahead array,
    [More._clone] a new More that refers to the same children array, and the
    constructor a new Listing with the same elements (its [defaultsDeep] copies
    the query object once more; one new object stands for both copies).  A
    More that comes last among the elements is popped and becomes [_more] as
    it is.  The result is the new Listing and what is stored at it. *)
Definition _clone (this : loc) (h : gmap loc Cell)
    : option (loc * ListingCell * gmap loc Cell) :=
  cell ← listing_at h this;
  q ← query_at h (query cell);
  '(la, h) ← match cachedLookahead cell with
             | Some a =>
                 arr ← array_at h a;
                 let '(a', h) := alloc (CArray arr) h in Some (Some a', h)
             | None => Some (None, h)
             end;
  '(mo, h) ← match more cell with
             | Some m =>
                 mc ← more_at h m;
                 let '(m', h) := alloc (CMore mc) h in Some (Some m', h)
             | None => Some (None, h)
             end;
  let '(q', h) := alloc (CQuery q) h in
  let cloned :=
    match last (elems cell) with
    | Some (EStub popped) =>
        {| elems := take (length (elems cell) - 1) (elems cell);
           query := q'; transform := transform cell; l_method := l_method cell;
           isCommentList := true; l_link_id := l_link_id cell; l_uri := l_uri cell;
           more := Some popped; cachedLookahead := la |}
    | _ =>
        {| elems := elems cell;
           query := q'; transform := transform cell; l_method := l_method cell;
           isCommentList := isCommentList cell; l_link_id := l_link_id cell;
           l_uri := l_uri cell;
           more := mo; cachedLookahead := la |}
    end in
  let '(c, h) := alloc (CListing cloned) h in
  Some (c, cloned, h).

(** The properties of a Listing that [page_request] reads. *)
Definition shell (cell : ListingCell) (q : gmap string JsVal) : Listing :=
  {| items := []; _query := q; _transform := transform cell; _method := l_method cell;
     _isCommentList := isCommentList cell; _link_id := l_link_id cell;
     _uri := l_uri cell; _more := None; _cachedLookahead := None |}.

Section Methods.
Variable proxies : bool.
Variable remote : Remote.

(** The global [emptyChildren]. *)
Variable emptyChildren : loc.

(** [_fetchMoreRegular(options)] *)
Definition _fetchMoreRegular (fetchMore : loc → Arg → State → Settled loc * State)
    (this : loc) (cell : ListingCell) (options : Options) (amount : JsNum)
    : State → Settled loc * State :=
  fun '(h, log) =>
  match query_at h (query cell) with
  | None => (Rejected TypeError, (h, log))
  | Some q =>
    let request := ListingObj.page_request (shell cell q) amount in
    let log' := log ++ [PageCall (isCommentList cell) amount request] in
    match page remote log request (transform cell) with
    | Failed e => (Rejected e, (h, log'))
    | Resolved response =>
      let '(page_elems, h) := new_items (items response) h in
      let '(page_more, h) :=
        match _more response with
        | Some m => let '(lm, h) := new_More m h in (Some lm, h)
        | None => (None, h)
        end in
      match _clone this h with
      | None => (Rejected TypeError, (h, log'))
      | Some (c, cloned, h) =>
        let cloned := if truthy (append options) then cloned else set_elems [] cloned in
        let h := <[c := CListing cloned]> h in
        match query_at h (query cloned) with
        | None => (Rejected TypeError, (h, log'))
        | Some cq =>
          let '(cloned, cq) :=
            if truthy (get cq "before")
            then (set_elems (page_elems ++ elems cloned) cloned,
                  <["after" := VNull]> (<["before" := get (_query response) "before"]> cq))
            else (set_elems (elems cloned ++ page_elems) cloned,
                  <["after" := get (_query response) "after"]> (<["before" := VNull]> cq)) in
          let h := <[query cloned := CQuery cq]> (<[c := CListing cloned]> h) in
          let '(cloned, h) :=
            if isCommentList cell
            then
              let cloned :=
                set_more (match more cloned, page_more with
                          | Some m, _ => Some m
                          | None, Some m => Some m
                          | None, None => Some emptyChildren
                          end) cloned in
              if Num.lt_len amount (length (items response))
              then
                let '(removed, rest) := Arr.splice_from amount (elems cloned) in
                let '(la, h) := alloc (CArray removed) h in
                (set_cachedLookahead (Some la) (set_elems rest cloned), h)
              else (cloned, h)
            else (cloned, h) in
          let h := <[c := CListing cloned]> h in
          fetchMore c (Obj {| amount := VNum (Num.sub amount (length (items response)));
                              skipReplies := skipReplies options;
                              append := VBool true |})
                    (h, log')
        end
      end
    end
  end.

(** [_fetchMoreComments(options)], for [this._more = m] *)
Definition _fetchMoreComments (fuel : nat) (this : loc) (m : loc) (options : Options)
    (amount : JsNum) : State → Settled loc * State :=
  fun '(h, log) =>
  match view_more h m with
  | None => (Rejected TypeError, (h, log))
  | Some stub =>
    let '(r, log') := MoreObj.fetchMore remote fuel stub amount (skipReplies options) 0 log in
    match r with
    | Fulfilled moreComments =>
      let '(new_elems, h) := new_items moreComments h in
      match _clone this h with
      | None => (Rejected TypeError, (h, log'))
      | Some (c, cloned, h) =>
        let cloned := if truthy (append options) then cloned else set_elems [] cloned in
        let cloned := set_elems (elems cloned ++ new_elems) cloned in
        let h := <[c := CListing cloned]> h in
        match more cloned with
        | None => (Rejected TypeError, (h, log'))
        | Some cm =>
          match more_at h cm with
          | None => (Rejected TypeError, (h, log'))
          | Some mc =>
            match ids_at h (s_children mc) with
            | None => (Rejected TypeError, (h, log'))
            | Some ids =>
              let '(sliced, h) := alloc (CIds (Arr.slice_from amount ids)) h in
              let h := <[cm := CMore {| s_children := sliced; s_name := s_name mc;
                                        s_link_id := s_link_id mc;
                                        s_parent_id := s_parent_id mc |}]> h in
              (Fulfilled c, (h, log'))
            end
          end
        end
      end
    | Rejected e => (Rejected e, (h, log'))
    | Pending => (Pending, (h, log'))
    end
  end.

(** [fetchMore(options)]: the new Listing *)
Fixpoint fetchMore (fuel : nat) (this : loc) (options : Arg) (st : State)
    : Settled loc * State :=
  match fuel with
  | O => (Pending, st)
  | S fuel =>
    match ListingObj.parseOptions options with
    | inl e => (Rejected e, st)
    | inr parsedOptions =>
      match amount parsedOptions with
      | VNum NaN => (Rejected InvalidMethodCallError, st)
      | VNum amount =>
        let '(h, log) := st in
        match listing_at h this, isFinished h this with
        | Some cell, Some finished =>
          if Num.le0 amount || finished
          then
            match _clone this h with
            | None => (Rejected TypeError, st)
            | Some (c, cloned, h) =>
                ListingObj._promiseWrap proxies
                  (if truthy (append parsedOptions) then (Fulfilled c, (h, log))
                   else (Fulfilled c, (<[c := CListing (set_elems [] cloned)]> h, log)))
            end
          else
            match cachedLookahead cell with
            | Some _ =>
              match _clone this h with
              | None => (Rejected TypeError, st)
              | Some (c, cloned, h) =>
                match cachedLookahead cloned with
                | None => (Rejected TypeError, (h, log))
                | Some la =>
                  match array_at h la with
                  | None => (Rejected TypeError, (h, log))
                  | Some lookahead =>
                    let '(removed, rest) := Arr.splice0 amount lookahead in
                    if (length removed =? 0)%nat
                       && (length (elems cloned) =? length (elems cell))%nat
                    then (Rejected RangeError, (h, log))
                    else
                      let h := <[la := CArray rest]> h in
                      let cloned := set_elems (elems cloned ++ removed) cloned in
                      let h := <[c := CListing cloned]> h in
                      fetchMore fuel c
                        (Bare (VNum (Num.add (Num.sub amount (length (elems cloned)))
                                             (length (elems cell)))))
                        (h, log)
                  end
                end
              end
            | None =>
              ListingObj._promiseWrap proxies
                match more cell with
                | Some m => _fetchMoreComments fuel this m parsedOptions amount st
                | None => _fetchMoreRegular (fetchMore fuel) this cell parsedOptions amount st
                end
            end
        | _, _ => (Rejected TypeError, st)
        end
      | _ => (Rejected InvalidMethodCallError, st)
      end
    end
  end.

(** [fetchAll(options)] *)
Definition fetchAll (fuel : nat) (this : loc) (options : Arg) (st : State)
    : Settled loc * State :=
  fetchMore fuel this
    (Obj match options with
         | Obj o => {| amount := VNum PosInf; skipReplies := skipReplies o; append := append o |}
         | Bare _ => {| amount := VNum PosInf; skipReplies := VUndefined; append := VUndefined |}
         end) st.

End Methods.
End Store.

(** ** create_config.ts and request_handler.ts *)

Module RequestHandler.

(** The settings of [createConfig] that the pipeline reads. *)
Record Config := {
  requestDelay : Z;
  continueAfterRatelimitError : bool;
  retryErrorCodes : list Z;
  maxRetryAttempts : Z;
  proxies : bool
}.

Definition createConfig : Config :=
  {| requestDelay := 0;
     continueAfterRatelimitError := false;
     retryErrorCodes := [502; 503; 504; 522];
     maxRetryAttempts := 3;
     proxies := true |}.

(** The requester ([this]): credentials, token and rate-limit state. *)
Record Snoowrap := {
  refreshToken : option string;
  accessToken : option string;
  tokenExpiration : option Z;
  username : option string;
  password : option string;
  scope : option (list string);
  ratelimitRemaining : option Z;
  ratelimitExpiration : option Z;
  _nextRequestTimestamp : JsNum;
  _config : Config
}.

(** What left the requester: a request of the pipeline, with the [attempts]
    counter of the call that sent it and the bearer token it carried, or a
    request for a new token. *)
Inductive Sent :=
| Dispatch (options : Request) (attempts : Z) (bearer : option string)
| TokenRequest.

(** The body of [api/v1/access_token]; [token_scope] is [scope.split(' ')]. *)
Record TokenInfo := {
  access_token : option string;
  expires_in : Z;
  error : option string;
  error_description : option string;
  token_scope : option (list string)
}.

(** The answer to a raw request: a status, the [x-ratelimit-remaining] and
    [x-ratelimit-reset] headers when present, and the body; or no answer. *)
Inductive RawResponse :=
| Responded (statusCode : Z) (ratelimit : option (Z * Z)) (body : string)
| NoResponse.

(** The transport and the other sources of nondeterminism.  Each answer comes
    with the time in ms that passed until it arrived.  [jitter] is
    [(Math.random() - 0.3) * 1000]. *)
Record Transport := {
  rawRequest : list Sent → Z → Request → option string → RawResponse * Z;
  credentialedClientRequest : list Sent → Z → Response TokenInfo * Z;
  jitter : list Sent → Z
}.

(** The state a call runs in: the requester, [Date.now()], and what was sent. *)
Record World := {
  this : Snoowrap;
  now : Z;
  sent : list Sent
}.

Definition with_this (r : Snoowrap) (w : World) : World :=
  {| this := r; now := now w; sent := sent w |}.

Definition set_token (token : option string) (expiration : option Z) (r : Snoowrap)
    : Snoowrap :=
  {| refreshToken := refreshToken r; accessToken := token; tokenExpiration := expiration;
     username := username r; password := password r; scope := scope r;
     ratelimitRemaining := ratelimitRemaining r;
     ratelimitExpiration := ratelimitExpiration r;
     _nextRequestTimestamp := _nextRequestTimestamp r; _config := _config r |}.

Definition set_scope (v : option (list string)) (r : Snoowrap) : Snoowrap :=
  {| refreshToken := refreshToken r; accessToken := accessToken r;
     tokenExpiration := tokenExpiration r;
     username := username r; password := password r; scope := v;
     ratelimitRemaining := ratelimitRemaining r;
     ratelimitExpiration := ratelimitExpiration r;
     _nextRequestTimestamp := _nextRequestTimestamp r; _config := _config r |}.

Definition set_ratelimit (remaining expiration : option Z) (r : Snoowrap) : Snoowrap :=
  {| refreshToken := refreshToken r; accessToken := accessToken r;
     tokenExpiration := tokenExpiration r;
     username := username r; password := password r; scope := scope r;
     ratelimitRemaining := remaining;
     ratelimitExpiration := expiration;
     _nextRequestTimestamp := _nextRequestTimestamp r; _config := _config r |}.

Definition set_nextRequestTimestamp (v : JsNum) (r : Snoowrap) : Snoowrap :=
  {| refreshToken := refreshToken r; accessToken := accessToken r;
     tokenExpiration := tokenExpiration r;
     username := username r; password := password r; scope := scope r;
     ratelimitRemaining := ratelimitRemaining r;
     ratelimitExpiration := ratelimitExpiration r;
     _nextRequestTimestamp := v; _config := _config r |}.

(** A nullable number in arithmetic and comparisons: [null] is 0. *)
Definition num (o : option Z) : Z := default 0 o.

(** [delay(ms)]: the timer fires after [ms], at once when [ms] is not positive. *)
Definition delay (ms : Z) (w : World) : World :=
  {| this := this w; now := now w + Z.max ms 0; sent := sent w |}.

Definition elapse (ms : Z) (what : list Sent) (w : World) : World :=
  {| this := this w; now := now w + Z.max ms 0; sent := sent w ++ what |}.

(** [_awaitRatelimit] *)
Definition _awaitRatelimit (w : World) : Settled () * World :=
  if (num (ratelimitRemaining (this w)) <? 1)
     && (now w <? num (ratelimitExpiration (this w)))
  then
    let timeUntilExpiry := num (ratelimitExpiration (this w)) - now w in
    if continueAfterRatelimitError (_config (this w))
    then (Fulfilled (), delay timeUntilExpiry w)
    else (Rejected (RateLimitError timeUntilExpiry), w)
  else (Fulfilled (), w).

(** [_awaitRequestDelay].  The timer of [delay] takes an integer: it cuts
    the digits after the point of [waitTime] off, and it fires at once for a
    [waitTime] that is infinite or NaN. *)
Definition _awaitRequestDelay (w : World) : World :=
  let waitTime := match _nextRequestTimestamp (this w) with
                  | Fin t => t - now w
                  | Frac t _ => Num.trunc (t - now w)
                  | PosInf | NegInf | NaN => 0
                  end in
  let next := match _nextRequestTimestamp (this w) with
              | Fin t => Fin (Z.max (now w) t + requestDelay (_config (this w)))
              | Frac t f => if now w <=? t
                            then Frac (t + requestDelay (_config (this w))) f
                            else Fin (now w + requestDelay (_config (this w)))
              | NegInf => Fin (now w + requestDelay (_config (this w)))
              | PosInf => PosInf
              | NaN => NaN
              end in
  delay waitTime (with_this (set_nextRequestTimestamp next (this w)) w).

(** The message of the error that [updateAccessToken] throws for
    [invalid_grant]; it starts with the words [Invalid grant] in double
    quotes. *)
Definition invalid_grant_message : string :=
  String (ascii_of_nat 34)
    ("Invalid grant" +:+ String (ascii_of_nat 34)
       " error returned from reddit. (You might have incorrect credentials.)").

Section Pipeline.
Variable transport : Transport.

(** [_awaitExponentialBackoff(attempts)].  [Math.pow(2, attempts - 1) * 1000]
    is [1000 / 2 ^ (1 - attempts)] for an [attempts] below 1; the timer cuts
    the digits after the point off. *)
Definition _awaitExponentialBackoff (attempts : Z) (w : World) : World :=
  if attempts =? 1 then w
  else delay ((if 1 <=? attempts
               then 2 ^ (attempts - 1) * 1000
               else 1000 / 2 ^ (1 - attempts))
              + jitter transport (sent w)) w.

(** [updateAccessToken] *)
Definition updateAccessToken (w : World) : Settled (option string) * World :=
  let r := this w in
  if (negb (truthy_str (accessToken r)) || (num (tokenExpiration r) <? now w))
     && (truthy_str (refreshToken r)
         || (truthy_str (username r) && truthy_str (password r)))
  then
    let '(answer, latency) := credentialedClientRequest transport (sent w) (now w) in
    let w := elapse latency [TokenRequest] w in
    match answer with
    | Failed e => (Rejected e, w)
    | Resolved tokenInfo =>
        let w := with_this (set_token (access_token tokenInfo)
                                      (Some (now w + expires_in tokenInfo * 1000))
                                      (this w)) w in
        match error tokenInfo, error_description tokenInfo with
        | Some "invalid_grant", _ => (Rejected (JsError invalid_grant_message), w)
        | e, Some description =>
            (Rejected (JsError ("Reddit returned an error: " +:+ default "undefined" e
                                +:+ ": " +:+ description)), w)
        | Some e, None => (Rejected (JsError ("Reddit returned an error: " +:+ e)), w)
        | None, None =>
            match token_scope tokenInfo with
            | Some scopes =>
                let w := with_this (set_scope (Some scopes) (this w)) w in
                (Fulfilled (accessToken (this w)), w)
            | None => (Rejected TypeError, w)
            end
        end
    end
  else (Fulfilled (accessToken r), w).

(** The chain of [oauthRequest] down to the first [catch]: the two waits, the
    backoff, the token, the raw request with its [transform] (which records
    the rate-limit headers of every answer), and [_populate]. *)
Definition dispatch (options : Request) (attempts : Z) (w : World)
    : Settled string * World :=
  match _awaitRatelimit w with
  | (Fulfilled _, w) =>
      let w := _awaitRequestDelay w in
      let w := _awaitExponentialBackoff attempts w in
      match updateAccessToken w with
      | (Fulfilled token, w) =>
          let '(answer, latency) := rawRequest transport (sent w) (now w) options token in
          let w := elapse latency [Dispatch options attempts token] w in
          match answer with
          | Responded statusCode ratelimit body =>
              let w := match ratelimit with
                       | Some (remaining, reset) =>
                           with_this (set_ratelimit (Some remaining)
                                                    (Some (now w + reset * 1000))
                                                    (this w)) w
                       | None => w
                       end in
              if (200 <=? statusCode) && (statusCode <? 300)
              then (Fulfilled body, w)
              else (Rejected (StatusCodeError statusCode (method options)), w)
          | NoResponse => (Rejected RequestError, w)
          end
      | (Rejected e, w) => (Rejected e, w)
      | (Pending, w) => (Pending, w)
      end
  | (Rejected e, w) => (Rejected e, w)
  | (Pending, w) => (Pending, w)
  end.

(** The first [catch], called as [catch(...patterns, handler)] with one
    pattern [{statusCode: code}] for each of the [retryErrorCodes] that were
    configured when the chain was built.  The chain starts from
    [Promise.resolve()], a native promise, whose [catch] takes one argument,
    the reaction, and ignores the others.
    - With patterns, the reaction is the first pattern: an object, not a
      function, so every settlement passes through and the handler never
      runs.
    - Without patterns the handler is the reaction and runs for every
      rejection.  It reads [e.response.request.method], which throws a
      TypeError for an error that has no [response] (anything but a
      StatusCodeError); otherwise it rethrows the error when the method is
      not idempotent or the attempts are used up, and calls [oauthRequest]
      with [attempts + 1] when not. *)
Definition retry_handler (patterns : list Z) (retry : World → Settled string * World)
    (attempts : Z) (settled : Settled string * World) : Settled string * World :=
  match patterns, settled with
  | [], (Rejected (StatusCodeError statusCode method), w) =>
      if negb (bool_decide (method ∈ IDEMPOTENT_HTTP_VERBS))
         || (maxRetryAttempts (_config (this w)) <=? attempts)
      then settled
      else retry w
  | [], (Rejected _, w) => (Rejected TypeError, w)
  | _, _ => settled
  end.

(** The test of the second [catch] on a 401: a token is cached and it has
    less than [MAX_TOKEN_LATENCY] left. *)
Definition token_in_latency (w : World) : bool :=
  truthy_str (accessToken (this w))
  && (num (tokenExpiration (this w)) - now w <? MAX_TOKEN_LATENCY).

Definition invalidate_token (w : World) : World :=
  with_this (set_token None None (this w)) w.

(** The second [catch] *)
Definition unauthorized_handler (again : World → Settled string * World)
    (settled : Settled string * World) : Settled string * World :=
  match settled with
  | (Rejected (StatusCodeError 401 method), w) =>
      if token_in_latency w then again (invalidate_token w) else settled
  | _ => settled
  end.

(** [oauthRequest(options, attempts = 1)] *)
Fixpoint oauthRequest (fuel : nat) (options : Request) (attempts : Z) (w : World)
    : Settled string * World :=
  match fuel with
  | O => (Pending, w)
  | S fuel =>
      unauthorized_handler (oauthRequest fuel options attempts)
        (retry_handler (retryErrorCodes (_config (this w)))
           (oauthRequest fuel options (attempts + 1)) attempts
           (dispatch options attempts w))
  end.

End Pipeline.
End RequestHandler.

(** ** helpers.ts *)

Module Helpers.

(** [s.slice(n)] for a string and a count [n] of characters *)
Fixpoint str_slice (n : nat) (s : string) : string :=
  match n, s with
  | O, _ => s
  | S n, String _ rest => str_slice n rest
  | S _, EmptyString => EmptyString
  end.

(** [\d] *)
Definition is_digit (c : ascii) : bool :=
  (48 <=? nat_of_ascii c)%nat && (nat_of_ascii c <=? 57)%nat.

(** [hasFullnamePrefix]: [/^(t\d|LiveUpdateEvent)_/.test(item)] *)
Definition hasFullnamePrefix (item : string) : bool :=
  match item with
  | String t (String d (String u _)) =>
      Ascii.eqb t "t" && is_digit d && Ascii.eqb u "_"
  | _ => false
  end
  || String.prefix "LiveUpdateEvent_" item.

(** [addFullnamePrefix(item, prefix)]; [item] is a string or a content object. *)
Definition addFullnamePrefix (item : string + Content) (prefix : string) : string :=
  match item with
  | inl s => if hasFullnamePrefix s then s else prefix +:+ s
  | inr c => name c
  end.

(** [formatPermissions(allPermissionNames, permsArray)]; [permsArray] is an
    array, or [undefined]. *)
Definition formatPermissions (allPermissionNames : list string)
    (permsArray : option (list string)) : string :=
  match permsArray with
  | Some perms =>
      join "," (map (λ type, (if bool_decide (type ∈ perms) then "+" else "-") +:+ type)
                    allPermissionNames)
  | None => "+all"
  end.

Definition MODERATOR_PERMISSIONS : list string :=
  ["wiki"; "posts"; "access"; "mail"; "config"; "flair"].
Definition LIVETHREAD_PERMISSIONS : list string := ["update"; "edit"; "manage"].

Definition formatModPermissions := formatPermissions MODERATOR_PERMISSIONS.
Definition formatLivethreadPermissions := formatPermissions LIVETHREAD_PERMISSIONS.


(** A private message: its fullname and its replies (a Listing of messages,
    or [undefined]). *)
#[warnings="-register-all"]
Inductive Message := Msg (fullname : string) (replies : option (list Message)).

Definition fullname (m : Message) : string := match m with Msg n _ => n end.
Definition replies (m : Message) : option (list Message) :=
  match m with Msg _ r => r end.

(** lodash [find(collection)] with the identity as predicate: the first
    element that is not [undefined]. *)
Fixpoint find_defined {A} (l : list (option A)) : option A :=
  match l with
  | [] => None
  | Some a :: _ => Some a
  | None :: rest => find_defined rest
  end.

(** [findMessageInTree(desiredName, rootNode)] *)
Fixpoint findMessageInTree (desiredName : string) (rootNode : Message) : option Message :=
  match rootNode with
  | Msg n rs =>
      if String.eqb n desiredName then Some rootNode
      else match rs with
           | Some l => find_defined (map (findMessageInTree desiredName) l)
           | None => None
           end
  end.

End Helpers.

(** ** The object builders of class Snoowrap (request_handler.ts) *)

Module Requester.

(** [s.replace(/^\/?x\//, '')] for a letter [x] *)
Definition strip_slash_prefix (letter : string) (s : string) : string :=
  if String.prefix ("/" +:+ letter +:+ "/") s then Helpers.str_slice 3 s
  else if String.prefix (letter +:+ "/") s then Helpers.str_slice 2 s
  else s.

(** What the builders pass to the constructors: the [name] of [getUser],
    [getComment], [getSubmission] and [getMessage], the [displayName] of
    [getSubreddit], the [id] of [getLivethread]. *)
Definition getUser (name : string) : string := strip_slash_prefix "u" name.

Definition getSubreddit (displayName : string) : string :=
  strip_slash_prefix "r" displayName.

Definition getComment (commentId : string) : string :=
  Helpers.addFullnamePrefix (inl commentId) "t1_".

Definition getSubmission (submissionId : string) : string :=
  Helpers.addFullnamePrefix (inl submissionId) "t3_".

Definition getMessage (messageId : string) : string :=
  Helpers.addFullnamePrefix (inl messageId) "t4_".

Definition getLivethread (threadId : string) : string :=
  Helpers.str_slice 16 (Helpers.addFullnamePrefix (inl threadId) "LiveUpdateEvent_").

End Requester.

(** ** objects/RedditUser.ts *)

Module RedditUserObj.

(** [\w] *)
Definition is_word (c : ascii) : bool :=
  let n := nat_of_ascii c in
  ((48 <=? n) && (n <=? 57) || (65 <=? n) && (n <=? 90)
   || (97 <=? n) && (n <=? 122) || (n =? 95))%nat.

(** [USERNAME_REGEX.test(s)], for [/^[\w-]{1,20}$/] *)
Definition USERNAME_REGEX (s : string) : bool :=
  let cs := String.list_ascii_of_string s in
  (1 <=? length cs)%nat && (length cs <=? 20)%nat
  && forallb (λ c, is_word c || Ascii.eqb c "-") cs.

(** What reading [_uri] gives: the URI, or the InvalidUserError it throws. *)
Inductive UriResult :=
| Uri (u : string)
| InvalidUserError (name : JsVal).

(** [get _uri()] *)
Definition _uri (name : JsVal) : UriResult :=
  match name with
  | VStr n => if USERNAME_REGEX n then Uri ("user/" +:+ n +:+ "/about")
              else InvalidUserError name
  | _ => InvalidUserError name
  end.

End RedditUserObj.

(** ** objects/ModmailConversation.ts *)

Module Modmail.

(** An entry of [conversation.objIds] *)
Record ObjId := {
  id : string;
  key : string
}.

(** The property names that every plain object inherits from
    [Object.prototype]. *)
Definition Object_prototype : list string :=
  ["constructor"; "__defineGetter__"; "__defineSetter__"; "hasOwnProperty";
   "__lookupGetter__"; "__lookupSetter__"; "isPrototypeOf"; "propertyIsEnumerable";
   "toString"; "valueOf"; "__proto__"; "toLocaleString"].

(** What [object[name]] reads on a plain object: a property of its own, a
    property it inherits (a function; [Object.prototype] itself for
    [__proto__]), or [undefined]. *)
Inductive Property (V : Type) :=
| Own (v : V)
| Inherited (name : string)
| Undefined.
Arguments Own {V} v.
Arguments Inherited {V} name.
Arguments Undefined {V}.

Definition read {V} (object : gmap string V) (name : string) : Property V :=
  match object !! name with
  | Some v => Own v
  | None => if bool_decide (name ∈ Object_prototype) then Inherited name else Undefined
  end.

Section Objects.
Context {V : Type}.

(** [_getConversationObjects(conversation, response)], on
    [conversation.objIds].  [conversationObjects] starts as [{}] and
    [response] is a parsed JSON object whose values are objects: both are
    plain objects.
    - For a key that [Object.prototype] has, [conversationObjects[key]] reads
      the inherited property, which is truthy: no array is put there, and
      the call of its [push] throws a TypeError.  So [conversationObjects]
      never gets such a key of its own.
    - For any other key, [conversationObjects[key]] is the array that was put
      there or [undefined], and [response[key]] is an object of the response
      or [undefined]; reading a property of [undefined] throws a TypeError.
      What is pushed is [response[key][id]], read as on any plain object. *)
Definition _getConversationObjects (objIds : list ObjId)
    (response : gmap string (gmap string V)) : Error + gmap string (list (Property V)) :=
  foldl (λ acc objId,
           match acc with
           | inl e => inl e
           | inr conversationObjects =>
               if bool_decide (key objId ∈ Object_prototype) then inl TypeError
               else
                 match response !! key objId with
                 | Some objects =>
                     inr (<[key objId :=
                              default [] (conversationObjects !! key objId)
                              ++ [read objects (id objId)]]> conversationObjects)
                 | None => inl TypeError
                 end
           end)
        (inr ∅) objIds.

End Objects.
End Modmail.

(** ** snoo-wrapped.ts and objects/reddit-content.ts *)

Module SnooWrappedObj.

(** The options of the constructor; a property that is absent is
    [undefined]. *)
Record SnooWrappedOptions := {
  userAgent : JsVal;
  accessToken : JsVal;
  clientId : JsVal;
  clientSecret : JsVal;
  refreshToken : JsVal;
  username : JsVal;
  password : JsVal
}.

Inductive ConstructorError :=
| RequiredArgumentError (argument : string)
| MissingCredentialsError.

(** The private fields of a SnooWrapped, as the [credentials] getter shows
    them. *)
Record Credentials := {
  c_clientId : JsVal;
  c_clientSecret : JsVal;
  c_refreshToken : JsVal;
  c_accessToken : JsVal;
  c_tokenExpiration : option Z;
  c_scope : option (list string);
  c_username : JsVal;
  c_password : JsVal
}.

Record SnooWrapped := {
  sw_userAgent : JsVal;
  credentials : Credentials
}.

(** [typeof v === 'string'] *)
Definition is_string (v : JsVal) : bool :=
  match v with VStr _ => true | _ => false end.

(** [v === undefined] *)
Definition is_undefined (v : JsVal) : bool := bool_decide (v = VUndefined).

(** [new SnooWrapped(options)] *)
Definition new_SnooWrapped (options : option SnooWrappedOptions)
    : ConstructorError + SnooWrapped :=
  match options with
  | None => inl (RequiredArgumentError "options.userAgent")
  | Some opts =>
      if negb (truthy (userAgent opts))
      then inl (RequiredArgumentError "options.userAgent")
      else if (negb (truthy (accessToken opts)) || negb (is_string (accessToken opts)))
              && (is_undefined (clientId opts) || is_undefined (clientSecret opts)
                  || negb (is_string (refreshToken opts)))
              && (is_undefined (clientId opts) || is_undefined (clientSecret opts)
                  || is_undefined (username opts) || is_undefined (password opts))
      then inl MissingCredentialsError
      else inr {| sw_userAgent := userAgent opts;
                  credentials :=
                    {| c_clientId := clientId opts;
                       c_clientSecret := clientSecret opts;
                       c_refreshToken := refreshToken opts;
                       c_accessToken := accessToken opts;
                       c_tokenExpiration := None;
                       c_scope := None;
                       c_username := username opts;
                       c_password := password opts |} |}
  end.

(** [updateAccessToken(accessToken, expiration, scope)] *)
Definition updateAccessToken (accessToken : string) (expiration : Z)
    (scope : list string) (this : SnooWrapped) : SnooWrapped :=
  {| sw_userAgent := sw_userAgent this;
     credentials :=
       {| c_clientId := c_clientId (credentials this);
          c_clientSecret := c_clientSecret (credentials this);
          c_refreshToken := c_refreshToken (credentials this);
          c_accessToken := VStr accessToken;
          c_tokenExpiration := Some expiration;
          c_scope := Some scope;
          c_username := c_username (credentials this);
          c_password := c_password (credentials this) |} |}.

(** The constructor of [RedditContent], on [data.name]: the name it keeps,
    or the RequiredArgumentError it throws. *)
Definition new_RedditContent (name : string) : ConstructorError + string :=
  if negb (truthy (VStr name)) then inl (RequiredArgumentError "data.name") else inr name.

(** [getUser], [getComment] and [getSubmission]: the name of the object, or
    the error of its constructor. *)
Definition getUser (name : string) : ConstructorError + string :=
  new_RedditContent (Requester.strip_slash_prefix "u" name).

Definition getComment (commentId : string) : ConstructorError + string :=
  new_RedditContent (Helpers.addFullnamePrefix (inl commentId) "t1_").

Definition getSubmission (submissionId : string) : ConstructorError + string :=
  new_RedditContent (Helpers.addFullnamePrefix (inl submissionId) "t3_").

End SnooWrappedObj.

(** ** Statements about the store *)

(** The More instances among [es] are not objects of [h0]. *)
Definition stubs_out (h0 : gmap positive Store.Cell) (es : list Store.Elem) : Prop :=
  ∀ m, In (Store.EStub m) es → h0 !! m = None.

(** There is a Listing at [this] in [h]; its elements and the elements of its
    lookahead array hold no More instance that is an object of [h0]. *)
Definition holds_content (h0 h : gmap positive Store.Cell) (this : positive) : Prop :=
  ∃ cell, Store.listing_at h this = Some cell
    ∧ stubs_out h0 (Store.elems cell)
    ∧ ∀ la, Store.cachedLookahead cell = Some la →
        ∃ arr, h !! la = Some (Store.CArray arr) ∧ stubs_out h0 arr.

(** Every object of [h0] is in the store of the outcome, unchanged, and a
    Listing the call is fulfilled with is not one of them. *)
Definition framed (h0 : gmap positive Store.Cell)
    (out : Settled positive * Store.State) : Prop :=
  h0 ⊆ out.2.1 ∧ ∀ c, out.1 = Fulfilled c → h0 !! c = None.

(** ** Statements about draining a stub *)

(** A list cut into consecutive batches of [k] elements (the last one may be
    shorter). *)
Fixpoint chunks_aux {A} (fuel k : nat) (l : list A) : list (list A) :=
  match fuel with
  | O => []
  | S fuel =>
      match l with
      | [] => []
      | _ :: _ => take k l :: chunks_aux fuel k (drop k l)
      end
  end.

Definition chunks {A} (k : nat) (l : list A) : list (list A) :=
  chunks_aux (length l) k l.


(** ** Well-formed Listings and sample objects *)

(** A Listing holds content only: "if you encounter a Listing that does
    contain a MoreComments object then it's a bug" (class comment). *)
Definition content_only (l : list Item) : bool :=
  forallb (λ i, negb (instanceofMore i)) l.

(** The amount a call is made with: [options.amount], or [options] itself
    when it is a bare number. *)
Definition amount_of (options : Arg) : JsVal :=
  match options with
  | Bare (VNum n) => VNum n
  | Bare _ => VUndefined
  | Obj o => amount o
  end.

(** A number other than NaN. *)
Definition is_amount (v : JsVal) : bool :=
  match v with
  | VNum NaN => false
  | VNum _ => true
  | _ => false
  end.

Definition nullish (options : Arg) : bool :=
  match options with
  | Bare VUndefined | Bare VNull => true
  | _ => false
  end.

Module Sample.

Definition post (id : string) : Item :=
  Thing {| _name := Submission; name := id; c_link_id := None; c_parent_id := None |}.

Definition comment (id : string) : Item :=
  Thing {| _name := Comment; name := id; c_link_id := Some "t3_x"; c_parent_id := None |}.

(** A regular Listing of three posts with an [after] cursor. *)
Definition hot : Listing :=
  {| items := [post "a"; post "b"; post "c"];
     _query := {[ "after" := VStr "X"; "before" := VNull ]};
     _transform := Identity; _method := GET; _isCommentList := false;
     _link_id := None; _uri := Some "/hot"; _more := None;
     _cachedLookahead := None |}.

(** The last page of [hot]. *)
Definition last_page : Listing :=
  {| items := [post "d"; post "e"];
     _query := {[ "after" := VNull; "before" := VNull ]};
     _transform := Identity; _method := GET; _isCommentList := false;
     _link_id := None; _uri := Some "/hot"; _more := None;
     _cachedLookahead := None |}.

(** A Listing that has been fetched to the end. *)
Definition done_listing : Listing :=
  {| items := [post "a"; post "b"];
     _query := {[ "after" := VNull; "before" := VNull ]};
     _transform := Identity; _method := GET; _isCommentList := false;
     _link_id := None; _uri := Some "/hot"; _more := None;
     _cachedLookahead := None |}.

(** The replies Listing of a comment before it is fetched
    ([getEmptyRepliesListing]). *)
Definition empty_replies : Listing :=
  {| items := [];
     _query := {[ "comment" := VStr "c1" ]};
     _transform := Property "comments[0].replies"; _method := GET;
     _isCommentList := true; _link_id := Some "t3_x";
     _uri := Some "comments/x"; _more := None;
     _cachedLookahead := None |}.

(** A comment Listing with three items, a URI and no More stub. *)
Definition thread : Listing :=
  {| items := [post "a"; post "b"; post "c"];
     _query := ∅;
     _transform := Identity; _method := GET;
     _isCommentList := true; _link_id := None;
     _uri := Some "comments/x"; _more := None;
     _cachedLookahead := None |}.

(** A comment Listing with two items waiting in its lookahead. *)
Definition with_lookahead : Listing :=
  {| items := [post "a"];
     _query := ∅;
     _transform := Identity; _method := GET;
     _isCommentList := true; _link_id := None;
     _uri := Some "comments/x"; _more := Some emptyChildren;
     _cachedLookahead := Some [post "b"; post "c"] |}.

(** Identifiers [c], [ci], [cii], ... *)
Fixpoint tally (n : nat) : string :=
  match n with
  | O => ""
  | S n => "i" +:+ tally n
  end.

Definition child_ids (n : nat) : list string :=
  map (λ i, "c" +:+ tally i) (seq 0 n).

(** A stub with 101 children. *)
Definition stub : More :=
  {| children := child_ids 101; m_name := Some "t1_x";
     link_id := Some "t3_x"; parent_id := Some "t1_p" |}.

(** The comment the remote side has for a fullname. *)
Definition lookup_comment (fullname : string) : Item :=
  Thing {| _name := Comment; name := fullname;
           c_link_id := Some "t3_x"; c_parent_id := None |}.

(** A remote side whose [api/info] knows the comments of [stub]. *)
Definition info_remote : Remote :=
  {| page := λ _ _ _, Failed RequestError;
     info := λ _ r,
       match qs r !! "id" with
       | Some (VStr s) =>
           match find (λ ids, String.eqb (join "," ids) s)
                      (chunks 100 (map (String.append "t1_") (children stub))) with
           | Some ids => Resolved (map lookup_comment ids)
           | None => Failed RequestError
           end
       | _ => Failed RequestError
       end;
     morechildren := λ _ _, Failed RequestError |}.

Definition opts (n : Z) : Arg :=
  Obj {| amount := VNum (Fin n); skipReplies := VUndefined; append := VBool true |}.

(** A remote side that answers every page request with [last_page]. *)
Definition remote : Remote :=
  {| page := λ _ _ _, Resolved last_page;
     info := λ _ _, Failed RequestError;
     morechildren := λ _ _, Failed RequestError |}.

(** *** A store *)

(** A store with the global [emptyChildren] and the Listings [hot],
    [with_lookahead] and [thread]. *)
Definition store_empty : positive * gmap positive Store.Cell :=
  Store.new_More emptyChildren ∅.

Definition store_hot : positive * gmap positive Store.Cell :=
  Store.put hot store_empty.2.

Definition store_lookahead : positive * gmap positive Store.Cell :=
  Store.put with_lookahead store_hot.2.

Definition store_thread : positive * gmap positive Store.Cell :=
  Store.put thread store_lookahead.2.

Definition store : gmap positive Store.Cell := store_thread.2.

(** *** The request pipeline *)

Definition get_me : Request :=
  {| uri := Some "api/v1/me"; qs := ∅; method := GET |}.

Definition post_comment : Request :=
  {| uri := Some "api/comment"; qs := ∅; method := POST |}.

(** A requester with a refresh token and a cached access token that expires
    at [expiration]. *)
Definition requester (config : RequestHandler.Config) (expiration : Z)
    : RequestHandler.Snoowrap :=
  {| RequestHandler.refreshToken := Some "refresh";
     RequestHandler.accessToken := Some "token-1";
     RequestHandler.tokenExpiration := Some expiration;
     RequestHandler.username := None;
     RequestHandler.password := None;
     RequestHandler.scope := None;
     RequestHandler.ratelimitRemaining := None;
     RequestHandler.ratelimitExpiration := None;
     RequestHandler._nextRequestTimestamp := NegInf;
     RequestHandler._config := config |}.

Definition world (config : RequestHandler.Config) (expiration : Z) : RequestHandler.World :=
  {| RequestHandler.this := requester config expiration;
     RequestHandler.now := 1000000;
     RequestHandler.sent := [] |}.

Definition is_dispatch (s : RequestHandler.Sent) : bool :=
  match s with
  | RequestHandler.Dispatch _ _ _ => true
  | RequestHandler.TokenRequest => false
  end.

(** A transport that answers the n-th request of the pipeline with the n-th
    status of [script] (200 once the script is used up); every answer takes
    50 ms, and new tokens are valid for an hour. *)
Definition scripted (script : list Z) : RequestHandler.Transport :=
  {| RequestHandler.rawRequest := λ sent _ _ _,
       (RequestHandler.Responded
          (nth (length (filter (λ s, is_dispatch s = true) sent)) script 200) None "body",
        50);
     RequestHandler.credentialedClientRequest := λ _ _,
       (Resolved {| RequestHandler.access_token := Some "token-2";
                    RequestHandler.expires_in := 3600;
                    RequestHandler.error := None;
                    RequestHandler.error_description := None;
                    RequestHandler.token_scope := Some ["read"] |},
        50);
     RequestHandler.jitter := λ _, 0 |}.

(** The default configuration with the retries switched off the documented
    way: [r.config({retryErrorCodes: []})]. *)
Definition no_retry_codes : RequestHandler.Config :=
  {| RequestHandler.requestDelay := 0;
     RequestHandler.continueAfterRatelimitError := false;
     RequestHandler.retryErrorCodes := [];
     RequestHandler.maxRetryAttempts := 3;
     RequestHandler.proxies := true |}.

(** A stub with two children, a replies Listing that is sourced by it, and a
    remote side whose [api/info] answers with the two comments. *)
Definition pair_stub : More :=
  {| children := ["c1"; "c2"]; m_name := Some "t1_m";
     link_id := Some "t3_x"; parent_id := Some "t1_c0" |}.

Definition replies : Listing :=
  {| items := [comment "t1_c0"];
     _query := ∅;
     _transform := Identity; _method := GET;
     _isCommentList := true; _link_id := Some "t3_x";
     _uri := None; _more := Some pair_stub;
     _cachedLookahead := None |}.

Definition info_echo : Remote :=
  {| page := λ _ _ _, Failed RequestError;
     info := λ _ _, Resolved [comment "t1_c1"; comment "t1_c2"];
     morechildren := λ _ _, Failed RequestError |}.

End Sample.

(** ** Statements about the requests that were sent *)

(** The [limit] of a page request of a regular Listing is
    [Math.min(amount, Number.MAX_SAFE_INTEGER)]: a finite number above 0 and
    at most [Number.MAX_SAFE_INTEGER], and an integer when [amount] is an
    integer or infinite. *)
Definition limit_ok (c : Call) : Prop :=
  match c with
  | PageCall false amount r =>
      qs r !! "limit" = Some (VNum (Num.min amount MAX_SAFE_INTEGER))
      ∧ match Num.min amount MAX_SAFE_INTEGER with
        | Fin z => 1 ≤ z ≤ MAX_SAFE_INTEGER
        | Frac z _ => 0 ≤ z < MAX_SAFE_INTEGER
        | PosInf | NegInf | NaN => False
        end
      ∧ (Num.integral amount = true →
         ∃ z, Num.min amount MAX_SAFE_INTEGER = Fin z)
  | _ => True
  end.

Definition is_page (c : Call) : bool :=
  match c with
  | PageCall _ _ _ => true
  | _ => false
  end.

(** [log'] is [log] followed by requests that all satisfy [P]. *)
Definition extends (P : Call → Prop) (log log' : list Call) : Prop :=
  ∃ sent, log' = log ++ sent ∧ Forall P sent.

(** What the remote side answered to the call [c] that was made after the
    calls [log]: the items of the answer (a page is answered with a Listing,
    read through [transform]; a call that failed was answered with nothing). *)
Definition answer (remote : Remote) (transform : Transform) (log : list Call) (c : Call)
    : list Item :=
  match c with
  | PageCall _ _ r =>
      match page remote log r transform with
      | Resolved response => items response
      | Failed _ => []
      end
  | InfoCall r =>
      match info remote log r with
      | Resolved things => things
      | Failed _ => []
      end
  | TreeCall r =>
      match morechildren remote log r with
      | Resolved things => things
      | Failed _ => []
      end
  end.

(** The answers to the calls [sent] that were made after the calls [log], in
    the order of the calls, and the items of all of them. *)
Fixpoint answers (remote : Remote) (transform : Transform) (log sent : list Call)
    : list (list Item) :=
  match sent with
  | [] => []
  | c :: rest => answer remote transform log c :: answers remote transform (log ++ [c]) rest
  end.

Definition answered (remote : Remote) (transform : Transform) (log sent : list Call)
    : list Item :=
  concat (answers remote transform log sent).

(** ** Statements about cursors *)

(** At most one direction of pagination is open: one of the two cursors of
    the query is [null]. *)
Definition one_cursor (L : Listing) : Prop :=
  get (_query L) "after" = VNull ∨ get (_query L) "before" = VNull.

(** ** Statements about the requests of a stub *)

(** A request of a More stub for a non-empty run of consecutive children: at
    most 100 fullnames for [api/info], at most 20 ids for [api/morechildren]. *)
Definition batch_ok (this : More) (c : Call) : Prop :=
  ∃ start ids,
    ids ≠ [] ∧ ids = take (length ids) (drop start (children this))
    ∧ (c = InfoCall (MoreObj.info_request (map (String.append "t1_") ids))
         ∧ (length ids ≤ 100)%nat
       ∨ c = TreeCall (MoreObj.tree_request this ids) ∧ (length ids ≤ 20)%nat).

(** ** Statements about helpers.ts *)

(** A string without a comma. *)
Fixpoint comma_free (s : string) : bool :=
  match s with
  | EmptyString => true
  | String c rest => negb (Ascii.eqb c ","%char) && comma_free rest
  end.

(** What [find_defined] over a mapped list says about the list. *)
Definition find_defined_spec_some {A B} (f : A → option B) (l : list A) (b : B) : Prop :=
  Helpers.find_defined (map f l) = Some b → ∃ a, In a l ∧ f a = Some b.

Definition find_defined_spec_none {A B} (f : A → option B) (l : list A) : Prop :=
  Helpers.find_defined (map f l) = None → ∀ a, In a l → f a = None.

(** [m] is a message of the tree under [root]. *)
Inductive in_tree (m : Helpers.Message) : Helpers.Message → Prop :=
| in_tree_root : in_tree m m
| in_tree_reply n l r : In r l → in_tree m r → in_tree m (Helpers.Msg n (Some l)).

(** ** Statements about ModmailConversation.ts *)

(** The objects of the response that the entries of [objIds] with the key
    [k] name, in the order of the entries. *)
Definition objects_of {V} (k : string) (objIds : list Modmail.ObjId)
    (response : gmap string (gmap string V)) : list (Modmail.Property V) :=
  map (λ o, match response !! k with
            | Some objects => Modmail.read objects (Modmail.id o)
            | None => Modmail.Undefined
            end)
      (filter (λ o, Modmail.key o = k) objIds).

(** A key that [_getConversationObjects] can group under: [Object.prototype]
    does not have it, and the response has an object for it. *)
Definition groupable {V} (response : gmap string (gmap string V)) (o : Modmail.ObjId) : Prop :=
  (Modmail.key o ∉ Modmail.Object_prototype) ∧ is_Some (response !! Modmail.key o).

(** ** Statements about the requests of the pipeline *)

(** The number of requests of the pipeline among what was sent (requests for
    a token are not counted). *)
Definition dispatches (l : list RequestHandler.Sent) : nat :=
  length (filter (λ s, Sample.is_dispatch s = true) l).

(** The part of the requester that the pipeline reads and never writes. *)
Definition settings (w : RequestHandler.World)
    : RequestHandler.Config * option string * option string * option string :=
  (RequestHandler._config (RequestHandler.this w),
   RequestHandler.refreshToken (RequestHandler.this w),
   RequestHandler.username (RequestHandler.this w),
   RequestHandler.password (RequestHandler.this w)).

(** The transport never answers 401, neither to a request of the pipeline
    nor to a request for a token. *)
Definition never_unauthorized (transport : RequestHandler.Transport) : Prop :=
  (∀ sent now options token ratelimit body,
     (RequestHandler.rawRequest transport sent now options token).1
     ≠ RequestHandler.Responded 401 ratelimit body)
  ∧ ∀ sent now m,
      (RequestHandler.credentialedClientRequest transport sent now).1
      ≠ Failed (StatusCodeError 401 m).

(** From [w] to [w']: the settings are kept, no time is lost, and what was
    sent has grown by at most [k] requests of the pipeline. *)
Definition advances (k : nat) (w w' : RequestHandler.World) : Prop :=
  settings w' = settings w
  ∧ RequestHandler.now w ≤ RequestHandler.now w'
  ∧ ∃ extra, RequestHandler.sent w' = RequestHandler.sent w ++ extra
             ∧ (dispatches extra ≤ k)%nat.

(** * Properties *)

(** ** The wrapper of the requester *)

Lemma promiseWrap_log {A S} (proxies : bool) (promise : Settled A * S) :
  (ListingObj._promiseWrap proxies promise).2 = promise.2.
Proof. unfold ListingObj._promiseWrap. destruct proxies; reflexivity. Qed.

Lemma promiseWrap_eq {A S} (proxies : bool) (out : Settled A) (s : S) :
  ListingObj._promiseWrap proxies (out, s)
  = (if proxies
     then match out with
          | Pending => Pending
          | Fulfilled _ | Rejected _ => Rejected TypeError
          end
     else out, s).
Proof. unfold ListingObj._promiseWrap. destruct proxies; reflexivity. Qed.

Lemma promiseWrap_fulfilled {A S} (proxies : bool) (promise : Settled A * S) (a : A) (s : S) :
  ListingObj._promiseWrap proxies promise = (Fulfilled a, s) →
  proxies = false ∧ promise = (Fulfilled a, s).
Proof.
  unfold ListingObj._promiseWrap. destruct proxies; [| intros ->; split; reflexivity].
  destruct promise as [[b|e|] s']; discriminate.
Qed.

Lemma promiseWrap_pending {A S} (proxies : bool) (promise : Settled A * S) :
  (ListingObj._promiseWrap proxies promise).1 = Pending ↔ promise.1 = Pending.
Proof.
  unfold ListingObj._promiseWrap. destruct proxies; [| reflexivity].
  destruct promise as [[b|e|] s']; simpl; split; congruence.
Qed.

(** [fetchMore] on an options object whose amount is a number. *)
Lemma fetchMore_number (proxies : bool) (remote : Remote) (fuel : nat) (L : Listing) (n : JsNum)
    (skip ap : JsVal) (log : list Call) :
  n ≠ NaN →
  ListingObj.fetchMore proxies remote (S fuel) L
    (Obj {| amount := VNum n; skipReplies := skip; append := ap |}) log
  = let options := {| amount := VNum n; skipReplies := skip;
                      append := if decide (ap = VUndefined) then VBool true else ap |} in
    if Num.le0 n || isFinished L
    then ListingObj._promiseWrap proxies
           (Fulfilled (if truthy (append options)
                       then ListingObj._clone L
                       else ListingObj._empty (ListingObj._clone L)), log)
    else
      match _cachedLookahead L with
      | Some _ =>
          match _cachedLookahead (ListingObj._clone L) with
          | Some lookahead =>
              let '(removed, rest) := Arr.splice0 n lookahead in
              if ListingObj.repeats L (ListingObj._clone L) removed
              then (Rejected RangeError, log)
              else
                let cloned :=
                  ListingObj.set_cachedLookahead (Some rest)
                    (ListingObj.set_items (items (ListingObj._clone L) ++ removed)
                                          (ListingObj._clone L)) in
                ListingObj.fetchMore proxies remote fuel cloned
                  (Bare (VNum (Num.add (Num.sub n (length (items cloned)))
                                       (length (items L))))) log
          | None => (Rejected TypeError, log)
          end
      | None =>
          ListingObj._promiseWrap proxies
            match _more L with
            | Some more => ListingObj._fetchMoreComments remote fuel L more options n log
            | None =>
                ListingObj._fetchMoreRegular remote (ListingObj.fetchMore proxies remote fuel) L
                  options n log
            end
      end.
Proof. intros Hn. destruct n; try congruence; reflexivity. Qed.

(** The same for a bare number. *)
Lemma fetchMore_bare (proxies : bool) (remote : Remote) (fuel : nat) (L : Listing) (n : JsNum)
    (log : list Call) :
  ListingObj.fetchMore proxies remote fuel L (Bare (VNum n)) log
  = ListingObj.fetchMore proxies remote fuel L
      (Obj {| amount := VNum n; skipReplies := VUndefined; append := VBool true |}) log.
Proof. destruct fuel; reflexivity. Qed.

(** With [proxies] off the wrapper is the identity. *)
Lemma fetchMore_number_off (remote : Remote) (fuel : nat) (L : Listing) (n : JsNum)
    (skip ap : JsVal) (log : list Call) :
  n ≠ NaN →
  ListingObj.fetchMore false remote (S fuel) L
    (Obj {| amount := VNum n; skipReplies := skip; append := ap |}) log
  = let options := {| amount := VNum n; skipReplies := skip;
                      append := if decide (ap = VUndefined) then VBool true else ap |} in
    if Num.le0 n || isFinished L
    then (Fulfilled (if truthy (append options)
                     then ListingObj._clone L else ListingObj._empty (ListingObj._clone L)), log)
    else
      match _cachedLookahead L with
      | Some _ =>
          match _cachedLookahead (ListingObj._clone L) with
          | Some lookahead =>
              let '(removed, rest) := Arr.splice0 n lookahead in
              if ListingObj.repeats L (ListingObj._clone L) removed
              then (Rejected RangeError, log)
              else
                let cloned :=
                  ListingObj.set_cachedLookahead (Some rest)
                    (ListingObj.set_items (items (ListingObj._clone L) ++ removed)
                                          (ListingObj._clone L)) in
                ListingObj.fetchMore false remote fuel cloned
                  (Bare (VNum (Num.add (Num.sub n (length (items cloned)))
                                       (length (items L))))) log
          | None => (Rejected TypeError, log)
          end
      | None =>
          match _more L with
          | Some more => ListingObj._fetchMoreComments remote fuel L more options n log
          | None =>
              ListingObj._fetchMoreRegular remote (ListingObj.fetchMore false remote fuel) L
                options n log
          end
      end.
Proof. exact (fetchMore_number false remote fuel L n skip ap log). Qed.

(** With [proxies] on no call of [fetchMore] is fulfilled. *)
Lemma proxied_not_fulfilled (remote : Remote) :
  ∀ fuel L options log L' log',
    ListingObj.fetchMore true remote fuel L options log ≠ (Fulfilled L', log').
Proof.
  induction fuel as [|fuel IH]; intros L options log L' log'; [discriminate|].
  cbn [ListingObj.fetchMore].
  destruct (ListingObj.parseOptions options) as [e|parsed]; [discriminate|].
  destruct (amount parsed) as [| | b | n | s]; try discriminate.
  destruct n; try discriminate;
    (destruct (Num.le0 _ || isFinished L);
     [intros H; apply promiseWrap_fulfilled in H as [? _]; discriminate|]);
    (destruct (_cachedLookahead L);
     [destruct (_cachedLookahead (ListingObj._clone L)); [| discriminate];
      destruct (Arr.splice0 _ _); destruct (ListingObj.repeats _ _ _);
      [discriminate | apply IH]
     | intros H; apply promiseWrap_fulfilled in H as [? _]; discriminate]).
Qed.

Ltac proxied_absurd :=
  intros; exfalso;
  match goal with
  | H : _ = (Fulfilled _, _) |- _ => exact (proxied_not_fulfilled _ _ _ _ _ _ _ H)
  end.

(** A Listing without a stub and without a lookahead that is not finished
    asks for a page.  In the code as it stands that call has no receiver: the
    call of [fetchMore] is rejected with the TypeError of it, whatever
    [proxies] is and whatever the remote side would have answered. *)
Lemma fetchMore_page_unbound (proxies : bool) (remote : Remote) (fuel : nat) (L : Listing)
    (n : JsNum) (skip ap : JsVal) (log : list Call) :
  _more L = None → _cachedLookahead L = None → isFinished L = false →
  Num.le0 n = false → n ≠ NaN →
  ListingObj.fetchMore proxies (as_called proxies remote) (S fuel) L
    (Obj {| amount := VNum n; skipReplies := skip; append := ap |}) log
  = (Rejected TypeError,
     log ++ [PageCall (_isCommentList L) n (ListingObj.page_request L n)]).
Proof.
  intros Hmore Hla Hfin Hpos Hn.
  rewrite fetchMore_number by exact Hn. cbn zeta.
  rewrite Hpos, Hfin, Hla, Hmore. cbn [orb].
  unfold ListingObj._fetchMoreRegular. cbn [as_called page oauthRequest_unbound].
  rewrite promiseWrap_eq. destruct proxies; reflexivity.
Qed.

(** ** Cloning *)

Lemma last_content_only (l : list Item) (m : More) :
  content_only l = true → last l ≠ Some (Stub m).
Proof.
  unfold content_only. intros H Hl.
  apply last_Some in Hl as [l' ->].
  rewrite forallb_app in H. simpl in H.
  apply andb_true_iff in H as [_ H]. discriminate.
Qed.

Lemma new_Listing_content (options : Listing) :
  content_only (items options) = true → ListingObj.new_Listing options = options.
Proof.
  intros H. unfold ListingObj.new_Listing.
  destruct (last (items options)) as [[c|m]|] eqn:E; try reflexivity.
  exfalso. exact (last_content_only _ m H E).
Qed.

Lemma clone_content (this : Listing) :
  content_only (items this) = true → ListingObj._clone this = this.
Proof.
  intros H. unfold ListingObj._clone.
  rewrite new_Listing_content by exact H.
  destruct this as [? ? ? ? ? ? ? [[]|] ?]; reflexivity.
Qed.

(** ** isFinished *)

(** C2. A comment Listing is finished exactly when its cached lookahead is
    empty ([null] or an empty array) and it has a More stub whose children
    list is empty; any other Listing is finished exactly when it has no URI
    ([null] or the empty string) or both its [before] and [after] query
    cursors are [null].  A Listing with a URI and no cursors at all (they read
    as [undefined]) is not finished. *)
Theorem isFinished_iff (L : Listing) :
  (isFinished L = true ↔
   if _isCommentList L
   then (_cachedLookahead L = None ∨ _cachedLookahead L = Some [])
        ∧ ∃ more, _more L = Some more ∧ children more = []
   else (_uri L = None ∨ _uri L = Some "")
        ∨ (get (_query L) "before" = VNull ∧ get (_query L) "after" = VNull))
  ∧ ∀ its tr me lid more la a u,
      isFinished {| items := its; _query := ∅; _transform := tr; _method := me;
                    _isCommentList := false; _link_id := lid;
                    _uri := Some (String a u); _more := more;
                    _cachedLookahead := la |} = false.
Proof.
  split; [| reflexivity].
  unfold isFinished. destruct (_isCommentList L).
  - rewrite andb_true_iff. split.
    + intros [H1 H2]. split.
      * destruct (_cachedLookahead L) as [[|]|]; try discriminate; auto.
      * destruct (_more L) as [more|]; [| discriminate].
        exists more. split; [reflexivity|].
        destruct (children more); [reflexivity | discriminate].
    + intros [H1 (more & Hm & Hc)]. split.
      * destruct H1 as [-> | ->]; reflexivity.
      * rewrite Hm. simpl. rewrite Hc. reflexivity.
  - rewrite orb_true_iff, andb_true_iff, !bool_decide_eq_true. split.
    + intros [H | [H1 H2]]; [left | right; split; assumption].
      destruct (_uri L) as [s|]; [right | left; reflexivity].
      simpl in H. apply negb_true_iff, Bool.negb_false_iff in H.
      destruct s; [reflexivity | discriminate].
    + intros [[H | H] | [H1 H2]]; [left | left | right; split; assumption];
        rewrite H; reflexivity.
Qed.

(** ** fetchMore on a finished Listing, or for no items *)

(** C1. For a Listing [L] that holds content only: when [L] is finished or
    the amount [n] is at most 0, [fetchMore] sends no request.  With
    [proxies: false] it is fulfilled: with [append: true] (also with a bare
    number) with a Listing equal to [L], and with [append: false] with a
    Listing that has no items and the other properties of [L].  With
    [proxies: true], the default of [createConfig], the call is rejected with
    a TypeError instead: [_promiseWrap] is handed the promise of the copy and
    calls [forEach] on it. *)
Theorem fetchMore_finished (proxies : bool) (remote : Remote) (fuel : nat) (L : Listing)
    (n : JsNum) (skip : JsVal) (log : list Call) :
  content_only (items L) = true →
  n ≠ NaN →
  isFinished L = true ∨ Num.le0 n = true →
  let settled (L' : Listing) : Settled Listing :=
    if proxies then Rejected TypeError else Fulfilled L' in
  ListingObj.fetchMore proxies remote (S fuel) L
    (Obj {| amount := VNum n; skipReplies := skip; append := VBool true |}) log
    = (settled L, log)
  ∧ ListingObj.fetchMore proxies remote (S fuel) L (Bare (VNum n)) log = (settled L, log)
  ∧ ListingObj.fetchMore proxies remote (S fuel) L
      (Obj {| amount := VNum n; skipReplies := skip; append := VBool false |}) log
      = (settled {| items := []; _query := _query L; _transform := _transform L;
                    _method := _method L; _isCommentList := _isCommentList L;
                    _link_id := _link_id L; _uri := _uri L; _more := _more L;
                    _cachedLookahead := _cachedLookahead L |}, log).
Proof.
  intros Hwf Hn Hstop settled.
  assert (Hgo : Num.le0 n || isFinished L = true).
  { destruct Hstop as [-> | ->]; [apply orb_true_r | reflexivity]. }
  subst settled.
  repeat split; simpl; destruct n; try congruence;
    rewrite Hgo; simpl; rewrite clone_content by exact Hwf;
    destruct proxies; reflexivity.
Qed.

Lemma fetchMore_finished_witness :
  ListingObj.fetchMore (RequestHandler.proxies RequestHandler.createConfig) Sample.remote 1
    Sample.done_listing
    (Obj {| amount := VNum (Fin 25); skipReplies := VUndefined; append := VBool true |}) []
    = (Rejected TypeError, [])
  ∧ ListingObj.fetchMore false Sample.remote 1 Sample.done_listing
      (Obj {| amount := VNum (Fin 25); skipReplies := VUndefined; append := VBool true |}) []
    = (Fulfilled Sample.done_listing, [])
  ∧ ListingObj.fetchMore false Sample.remote 1 Sample.done_listing
      (Obj {| amount := VNum (Fin 25); skipReplies := VUndefined; append := VBool false |}) []
    = (Fulfilled {| items := []; _query := _query Sample.done_listing;
                    _transform := Identity; _method := GET; _isCommentList := false;
                    _link_id := None; _uri := Some "/hot"; _more := None;
                    _cachedLookahead := None |}, []).
Proof.
  assert (Hwf : content_only (items Sample.done_listing) = true) by reflexivity.
  assert (Hn : Fin 25 ≠ NaN) by discriminate.
  assert (Hstop : isFinished Sample.done_listing = true ∨ Num.le0 (Fin 25) = true)
    by (left; reflexivity).
  split; [| split].
  - exact (proj1 (fetchMore_finished true Sample.remote 0 Sample.done_listing (Fin 25)
                    VUndefined [] Hwf Hn Hstop)).
  - exact (proj1 (fetchMore_finished false Sample.remote 0 Sample.done_listing (Fin 25)
                    VUndefined [] Hwf Hn Hstop)).
  - exact (proj2 (proj2 (fetchMore_finished false Sample.remote 0 Sample.done_listing (Fin 25)
                           VUndefined [] Hwf Hn Hstop))).
Defined.

(** ** Validation of the amount *)

(** C10 as stated fails when no options are passed at all: reading
    [options.skipReplies] throws a TypeError before the amount is looked at. *)
Lemma fetchMore_undefined_options :
  ListingObj.fetchMore false Sample.remote 1 Sample.hot (Bare VUndefined) []
    = (Rejected TypeError, [])
  ∧ is_amount (amount_of (Bare VUndefined)) = false
  ∧ ListingObj.fetchMore false Sample.remote 1 Sample.hot (Bare VUndefined) []
    ≠ (Rejected InvalidMethodCallError, []).
Proof. repeat split. discriminate. Qed.

(** C10, amended. When [options] is neither [undefined] nor [null] and the
    amount is missing, not a number, or NaN, [fetchMore] is rejected with an
    InvalidMethodCallError; when [options] is [undefined] or [null] it is
    rejected with a TypeError.  Either way no request is sent, and the outcome
    is the same for every Listing, finished or not. *)
Theorem fetchMore_invalid_amount (proxies : bool) (remote : Remote) (fuel : nat) (L : Listing)
    (options : Arg) (log : list Call) :
  is_amount (amount_of options) = false →
  ListingObj.fetchMore proxies remote (S fuel) L options log
  = (Rejected (if nullish options then TypeError else InvalidMethodCallError), log).
Proof.
  intros H. destruct options as [v | o]; simpl in *.
  - destruct v as [| | b | n | s]; try reflexivity.
    destruct n; try discriminate; reflexivity.
  - destruct (amount o) as [| | b | n | s]; try reflexivity.
    destruct n; try discriminate; reflexivity.
Qed.

Lemma fetchMore_invalid_amount_witness :
  ListingObj.fetchMore false Sample.remote 1 Sample.hot
    (Obj {| amount := VStr "ten"; skipReplies := VUndefined; append := VUndefined |}) []
  = (Rejected InvalidMethodCallError, []).
Proof.
  apply (fetchMore_invalid_amount false Sample.remote 0 Sample.hot
           (Obj {| amount := VStr "ten"; skipReplies := VUndefined; append := VUndefined |}) []).
  reflexivity.
Defined.

(** ** The requests a call sends *)

Lemma extends_refl (P : Call → Prop) (log : list Call) : extends P log log.
Proof. exists []. split; [symmetry; apply app_nil_r | constructor]. Qed.

Lemma extends_trans (P : Call → Prop) (a b c : list Call) :
  extends P a b → extends P b c → extends P a c.
Proof.
  intros (s1 & -> & H1) (s2 & -> & H2). exists (s1 ++ s2).
  split; [symmetry; apply app_assoc | apply Forall_app; auto].
Qed.

Lemma extends_one (P : Call → Prop) (log : list Call) (c : Call) :
  P c → extends P log (log ++ [c]).
Proof. intros H. exists [c]. split; [reflexivity | repeat constructor; exact H]. Qed.

Lemma extends_weaken (P Q : Call → Prop) (a b : list Call) :
  (∀ c, P c → Q c) → extends P a b → extends Q a b.
Proof.
  intros HPQ (s & -> & H). exists s. split; [reflexivity|].
  eapply Forall_impl; eauto.
Qed.

(** A More stub sends no page request. *)
Lemma More_fetch_sends (remote : Remote) (fuel : nat) :
  ∀ this amount skip start log,
    extends (λ c, is_page c = false) log
            (MoreObj.fetchMore remote fuel this amount skip start log).2
    ∧ extends (λ c, is_page c = false) log
              (MoreObj.fetchTree remote fuel this amount skip start log).2.
Proof.
  induction fuel as [|fuel IH]; intros this amount skip start log.
  - split; apply extends_refl.
  - assert (Htree : extends (λ c, is_page c = false) log
              (MoreObj.fetchTree remote (S fuel) this amount skip start log).2).
    { simpl. destruct (Num.le0 amount || (length (children this) <=? start)%nat);
        [apply extends_refl|].
      set (ids := MoreObj.getNextIdSlice _ _ _ _).
      pose proof (extends_one (λ c, is_page c = false) log
                    (TreeCall (MoreObj.tree_request this ids)) eq_refl) as H1.
      destruct (morechildren remote log _) as [things|e]; [| exact H1].
      destruct (MoreObj.resolve_things things) as [trees|e|]; try exact H1.
      destruct (IH this (Num.sub amount (length ids)) skip (start + length ids)%nat
                   (log ++ [TreeCall (MoreObj.tree_request this ids)])) as [H2 _].
      destruct (MoreObj.fetchMore remote fuel this _ skip _ _) as [r log2].
      simpl in H2. destruct r; simpl; eapply extends_trans; eauto. }
    split; [| exact Htree].
    simpl. destruct (Num.le0 amount || (length (children this) <=? start)%nat);
      [apply extends_refl|].
    destruct (negb (truthy skip)).
    + destruct (IH this amount skip start log) as [_ H]. exact H.
    + set (ids := map _ _).
      destruct (IH this (Num.sub amount (length ids)) skip (start + length ids)%nat
                   (log ++ [InfoCall (MoreObj.info_request ids)])) as [H2 _].
      destruct (MoreObj.fetchMore remote fuel this _ skip _ _) as [r log2].
      simpl in *. eapply extends_trans; [| exact H2].
      apply extends_one. reflexivity.
Qed.

Lemma limit_ok_page_request (this : Listing) (amount : JsNum) :
  Num.le0 amount = false → amount ≠ NaN →
  limit_ok (PageCall (_isCommentList this) amount (ListingObj.page_request this amount)).
Proof.
  intros Hpos Hnan. unfold limit_ok, ListingObj.page_request.
  destruct (_isCommentList this); [exact I|].
  split; [apply lookup_insert_eq|].
  destruct amount as [z|z f| | |]; simpl in *; try discriminate; try congruence.
  - split; [| intros _; eexists; reflexivity].
    apply Z.leb_gt in Hpos. unfold MAX_SAFE_INTEGER. lia.
  - apply Z.ltb_ge in Hpos. split; [| discriminate].
    destruct (z <? MAX_SAFE_INTEGER) eqn:E.
    + apply Z.ltb_lt in E. lia.
    + unfold MAX_SAFE_INTEGER. lia.
  - split; [| intros _; eexists; reflexivity]. unfold MAX_SAFE_INTEGER. lia.
Qed.

Lemma fetchMore_sends_limit_ok (proxies : bool) (remote : Remote) (fuel : nat) :
  ∀ this options log,
    extends limit_ok log (ListingObj.fetchMore proxies remote fuel this options log).2.
Proof.
  induction fuel as [|fuel IH]; intros this options log; [apply extends_refl|].
  simpl. destruct (ListingObj.parseOptions options) as [e|parsed]; [apply extends_refl|].
  destruct (amount parsed) as [| | b | n | s]; try apply extends_refl.
  destruct n as [z|z f| | |] eqn:En; try apply extends_refl;
    (destruct (Num.le0 n || isFinished this) eqn:Hstop; subst n; rewrite Hstop;
     [rewrite promiseWrap_log; apply extends_refl|]);
    apply orb_false_iff in Hstop as [Hpos _].
  all: destruct (_cachedLookahead this) as [la|].
  all: try (destruct (_cachedLookahead (ListingObj._clone this)) as [la'|];
            [destruct (ListingObj.repeats _ _ _); [apply extends_refl | apply IH]
            | apply extends_refl]).
  all: rewrite promiseWrap_log.
  all: destruct (_more this) as [more|].
  all: try (unfold ListingObj._fetchMoreComments;
            match goal with
            | |- context [MoreObj.fetchMore ?rm ?f ?m ?a ?sk 0%nat ?lg] =>
                destruct (More_fetch_sends rm f m a sk 0%nat lg) as [H _];
                destruct (MoreObj.fetchMore rm f m a sk 0%nat lg) as [r log']
            end;
            simpl in H;
            apply (extends_weaken (λ c, is_page c = false));
            [intros [] Hc; try discriminate; exact I|];
            destruct r; simpl; try exact H;
            match goal with
            | |- context [_more ?c] => destruct (_more c); exact H
            end).
  all: unfold ListingObj._fetchMoreRegular;
    match goal with
    | |- context [PageCall _ ?a _] =>
        pose proof (limit_ok_page_request this a Hpos ltac:(discriminate)) as Hl
    end;
    destruct (page remote log _ _) as [response|e];
    [eapply extends_trans; [apply extends_one; exact Hl | apply IH]
    | simpl; apply extends_one; exact Hl].
Qed.

(** ** The limit of a page request *)

(** C5 as stated fails for an amount that is not an integer: the check of
    [fetchMore] lets every number but NaN through, and [Math.min] does not
    round.  With [amount: 1.5] the [limit] of the page call is 1.5. *)
Lemma page_limit_fraction :
  let proxies := RequestHandler.proxies RequestHandler.createConfig in
  let r := ListingObj.fetchMore proxies (as_called proxies Sample.remote) 2 Sample.hot
             (Obj {| amount := VNum (Frac 1 1); skipReplies := VUndefined;
                     append := VUndefined |}) [] in
  r.2 = [PageCall false (Frac 1 1) (ListingObj.page_request Sample.hot (Frac 1 1))]
  ∧ qs (ListingObj.page_request Sample.hot (Frac 1 1)) !! "limit" = Some (VNum (Frac 1 1))
  ∧ Num.integral (Frac 1 1) = false
  ∧ ∀ z, VNum (Frac 1 1) ≠ VNum (Fin z).
Proof. repeat split. intros z. discriminate. Qed.

(** C5, amended. The query of every page call that [fetchMore] or [fetchAll]
    makes for a regular (non-comment) Listing has
    [limit = Math.min(amount, Number.MAX_SAFE_INTEGER)]: a finite number above
    0 and at most [Number.MAX_SAFE_INTEGER], and an integer when the amount
    is an integer or Infinity; Infinity is never the limit.  A regular Listing
    that is not finished and has neither a stub nor a lookahead makes such a
    call first, and for [fetchAll] its limit is [Number.MAX_SAFE_INTEGER]. *)
Theorem page_limit_clamped (proxies : bool) (remote : Remote) (fuel : nat) (L : Listing)
    (options : Arg) (log : list Call) :
  extends limit_ok log (ListingObj.fetchMore proxies remote fuel L options log).2
  ∧ extends limit_ok log (ListingObj.fetchAll proxies remote fuel L options log).2
  ∧ (∀ n skip ap,
       _isCommentList L = false → _more L = None → _cachedLookahead L = None →
       isFinished L = false → Num.le0 n = false → n ≠ NaN →
       ∃ r rest,
         (ListingObj.fetchMore proxies remote (S fuel) L
            (Obj {| amount := VNum n; skipReplies := skip; append := ap |}) log).2
         = log ++ PageCall false n r :: rest
         ∧ uri r = _uri L
         ∧ qs r !! "limit" = Some (VNum (Num.min n MAX_SAFE_INTEGER)))
  ∧ (_isCommentList L = false → _more L = None → _cachedLookahead L = None →
     isFinished L = false →
     ∃ r rest,
       (ListingObj.fetchAll proxies remote (S fuel) L options log).2
       = log ++ PageCall false PosInf r :: rest
       ∧ uri r = _uri L
       ∧ qs r !! "limit" = Some (VNum (Fin MAX_SAFE_INTEGER))).
Proof.
  split; [apply fetchMore_sends_limit_ok|].
  split; [apply fetchMore_sends_limit_ok|].
  assert (Hfirst : ∀ n skip ap,
    _isCommentList L = false → _more L = None → _cachedLookahead L = None →
    isFinished L = false → Num.le0 n = false → n ≠ NaN →
    ∃ r rest,
      (ListingObj.fetchMore proxies remote (S fuel) L
         (Obj {| amount := VNum n; skipReplies := skip; append := ap |}) log).2
      = log ++ PageCall false n r :: rest
      ∧ uri r = _uri L
      ∧ qs r !! "limit" = Some (VNum (Num.min n MAX_SAFE_INTEGER))).
  { intros n skip ap Hreg Hmore Hla Hfin Hpos Hnan.
    exists (ListingObj.page_request L n).
    assert (Hq : qs (ListingObj.page_request L n) !! "limit"
                 = Some (VNum (Num.min n MAX_SAFE_INTEGER))).
    { unfold ListingObj.page_request. rewrite Hreg. apply lookup_insert_eq. }
    assert (Hstep : ∃ rest,
      (ListingObj._fetchMoreRegular remote (ListingObj.fetchMore proxies remote fuel) L
         {| amount := VNum n; skipReplies := skip;
            append := if decide (ap = VUndefined) then VBool true else ap |} n log).2
      = log ++ PageCall false n (ListingObj.page_request L n) :: rest).
    { unfold ListingObj._fetchMoreRegular. rewrite Hreg.
      destruct (page remote log _ _) as [response|e].
      - match goal with
        | |- context [ListingObj.fetchMore proxies remote fuel ?t ?o ?l] =>
            destruct (fetchMore_sends_limit_ok proxies remote fuel t o l) as (sent & -> & _)
        end.
        exists sent. rewrite <- app_assoc. reflexivity.
      - exists []. reflexivity. }
    destruct Hstep as [rest Hrest]. exists rest.
    split; [| split; [reflexivity | exact Hq]].
    destruct n; try congruence; try discriminate;
      simpl in *; rewrite ?Hpos, Hfin, Hla, Hmore; simpl; rewrite promiseWrap_log;
      exact Hrest. }
  split; [exact Hfirst|].
  intros Hreg Hmore Hla Hfin. unfold ListingObj.fetchAll.
  destruct options as [v|o];
    apply Hfirst; try assumption; try reflexivity; discriminate.
Qed.

Lemma page_limit_clamped_witness :
  (∃ r rest,
     (ListingObj.fetchMore false Sample.remote 3 Sample.hot (Sample.opts 1) []).2
     = [] ++ PageCall false (Fin 1) r :: rest
     ∧ uri r = _uri Sample.hot
     ∧ qs r !! "limit" = Some (VNum (Num.min (Fin 1) MAX_SAFE_INTEGER)))
  ∧ ∃ r rest,
      (ListingObj.fetchAll false Sample.remote 3 Sample.hot (Bare VUndefined) []).2
      = [] ++ PageCall false PosInf r :: rest
      ∧ uri r = _uri Sample.hot
      ∧ qs r !! "limit" = Some (VNum (Fin MAX_SAFE_INTEGER)).
Proof.
  destruct (page_limit_clamped false Sample.remote 2 Sample.hot (Bare VUndefined) [])
    as (_ & _ & Hfirst & Hall).
  split.
  - apply (Hfirst (Fin 1) VUndefined (VBool true)); try reflexivity. discriminate.
  - apply Hall; reflexivity.
Defined.

(** ** The lookahead *)

Lemma content_only_app (l1 l2 : list Item) :
  content_only (l1 ++ l2) = content_only l1 && content_only l2.
Proof. apply forallb_app. Qed.

Lemma content_only_take (k : nat) (l : list Item) :
  content_only l = true → content_only (take k l) = true.
Proof.
  intros H. rewrite <- (take_drop k l), content_only_app in H.
  apply andb_true_iff in H as [H _]. exact H.
Qed.

Lemma content_only_drop (k : nat) (l : list Item) :
  content_only l = true → content_only (drop k l) = true.
Proof.
  intros H. rewrite <- (take_drop k l), content_only_app in H.
  apply andb_true_iff in H as [_ H]. exact H.
Qed.


(** A comment Listing whose lookahead is used up while its stub has children
    left is not finished and has a lookahead (the empty array is truthy):
    [fetchMore] moves nothing, calls itself on an equal copy with the same
    amount, and ends in a RangeError. *)
Example lookahead_recursion_overflows :
  let L := ListingObj.set_cachedLookahead (Some []) Sample.replies in
  isFinished L = false
  ∧ ∀ fuel, ListingObj.fetchMore false Sample.info_echo (S fuel) L (Sample.opts 1) []
            = (Rejected RangeError, []).
Proof. split; reflexivity. Qed.



(** ** Appending *)

Lemma get_insert_eq (q : gmap string JsVal) (k : string) (v : JsVal) :
  get (<[k := v]> q) k = v.
Proof. unfold get. rewrite lookup_insert_eq. reflexivity. Qed.

Lemma get_insert_ne (q : gmap string JsVal) (k k' : string) (v : JsVal) :
  k' ≠ k → get (<[k' := v]> q) k = get q k.
Proof. intros H. unfold get. rewrite lookup_insert_ne by exact H. reflexivity. Qed.

Lemma merge_page_regular (L response : Listing) (n : JsNum) :
  _isCommentList L = false → content_only (items L) = true →
  ListingObj.merge_page L n (VBool true) response
  = if truthy (get (_query L) "before")
    then ListingObj.set_query
           (<["after" := VNull]> (<["before" := get (_query response) "before"]> (_query L)))
           (ListingObj.set_items (items response ++ items L) L)
    else ListingObj.set_query
           (<["after" := get (_query response) "after"]> (<["before" := VNull]> (_query L)))
           (ListingObj.set_items (items L ++ items response) L).
Proof.
  intros Hreg Hwf. unfold ListingObj.merge_page.
  rewrite clone_content by exact Hwf. rewrite Hreg. reflexivity.
Qed.

(** C3. What [fetchMore] gives back for a Listing that has more to fetch.
    - With [proxies: true], the default of [createConfig], no call of
      [fetchMore] on any Listing is fulfilled, whatever the remote side
      answers: every result passes [_promiseWrap].
    - Whatever [proxies] is, a Listing without a stub and without a lookahead
      that is not finished, asked for a positive amount, makes one page call
      and is rejected with the TypeError of it, since [oauthRequest] is called
      without a receiver: the items the Listing had are not handed back, and
      no new ones are fetched. *)
Theorem fetchMore_regular_rejected (proxies : bool) (remote : Remote) (fuel : nat)
    (L : Listing) (n : JsNum) (skip : JsVal) (log : list Call) :
  _more L = None → _cachedLookahead L = None → isFinished L = false →
  Num.le0 n = false → n ≠ NaN →
  ListingObj.fetchMore proxies (as_called proxies remote) (S fuel) L
    (Obj {| amount := VNum n; skipReplies := skip; append := VBool true |}) log
  = (Rejected TypeError, log ++ [PageCall (_isCommentList L) n (ListingObj.page_request L n)])
  ∧ ∀ answers fuel' K options log' K' log'',
      ListingObj.fetchMore true answers fuel' K options log' ≠ (Fulfilled K', log'').
Proof.
  intros Hmore Hla Hfin Hpos Hn. split.
  - exact (fetchMore_page_unbound proxies remote fuel L n skip (VBool true) log
             Hmore Hla Hfin Hpos Hn).
  - intros answers. apply proxied_not_fulfilled.
Qed.

Lemma fetchMore_regular_rejected_witness :
  let proxies := RequestHandler.proxies RequestHandler.createConfig in
  isFinished Sample.hot = false
  ∧ items Sample.hot = [Sample.post "a"; Sample.post "b"; Sample.post "c"]
  ∧ ListingObj.fetchMore proxies (as_called proxies Sample.remote) 3 Sample.hot
      (Sample.opts 1) []
    = (Rejected TypeError,
       [PageCall false (Fin 1) (ListingObj.page_request Sample.hot (Fin 1))])
  ∧ ListingObj.fetchMore false (as_called false Sample.remote) 3 Sample.hot
      (Sample.opts 1) []
    = (Rejected TypeError,
       [PageCall false (Fin 1) (ListingObj.page_request Sample.hot (Fin 1))]).
Proof.
  intros proxies. split; [reflexivity|]. split; [reflexivity|]. split.
  - apply (fetchMore_regular_rejected proxies Sample.remote 2 Sample.hot (Fin 1) VUndefined []);
      try reflexivity. discriminate.
  - apply (fetchMore_regular_rejected false Sample.remote 2 Sample.hot (Fin 1) VUndefined []);
      try reflexivity. discriminate.
Defined.

(** ** Draining a stub through api/info *)

Lemma chunks_aux_nil {A} (fuel k : nat) : @chunks_aux A fuel k [] = [].
Proof. destruct fuel; reflexivity. Qed.

Lemma chunks_aux_fuel {A} (k : nat) :
  (0 < k)%nat →
  ∀ fuel fuel' (l : list A),
    (length l ≤ fuel)%nat → (length l ≤ fuel')%nat →
    chunks_aux fuel k l = chunks_aux fuel' k l.
Proof.
  intros Hk. induction fuel as [|fuel IH]; intros fuel' l H1 H2.
  - destruct l; [| simpl in H1; lia]. rewrite !chunks_aux_nil. reflexivity.
  - destruct l as [|x l]; [rewrite !chunks_aux_nil; reflexivity|].
    destruct fuel' as [|fuel']; [simpl in H2; lia|].
    cbn [chunks_aux]. f_equal.
    apply IH; rewrite length_drop; simpl in *; lia.
Qed.

Lemma chunks_cons {A} (k : nat) (l : list A) :
  (0 < k)%nat → l ≠ [] → chunks k l = take k l :: chunks k (drop k l).
Proof.
  intros Hk Hl. unfold chunks. destruct l as [|x l]; [congruence|].
  cbn [length chunks_aux]. f_equal.
  apply chunks_aux_fuel; try exact Hk; rewrite length_drop; simpl; lia.
Qed.

Lemma chunks_concat {A} (k : nat) (l : list A) :
  (0 < k)%nat → concat (chunks k l) = l.
Proof.
  intros Hk. remember (length l) as n eqn:Hn. revert l Hn.
  induction n as [n IH] using lt_wf_ind. intros l Hn.
  destruct l as [|x l]; [reflexivity|].
  rewrite chunks_cons by (try exact Hk; discriminate).
  cbn [concat]. rewrite (IH (length (drop k (x :: l)))); try reflexivity.
  - apply take_drop.
  - rewrite length_drop. subst n. simpl. lia.
Qed.


Lemma chunks_count {A} (l : list A) :
  length (chunks 100 l) = ((length l + 99) / 100)%nat.
Proof.
  remember (length l) as n eqn:Hn. revert l Hn.
  induction n as [n IH] using lt_wf_ind. intros l Hn.
  destruct l as [|x l]; [subst n; reflexivity|].
  rewrite chunks_cons by (try lia; discriminate).
  cbn [length]. rewrite (IH (length (drop 100 (x :: l)))); try reflexivity.
  - rewrite length_drop, <- Hn.
    destruct (le_lt_dec 100 n) as [Hge|Hlt].
    + replace (n + 99)%nat with ((n - 100 + 99) + 1 * 100)%nat by lia.
      rewrite Nat.div_add by lia. lia.
    + replace (n - 100 + 99)%nat with 99%nat by lia.
      assert (0 < n)%nat by (subst n; simpl; lia).
      replace (n + 99)%nat with ((n - 1) + 1 * 100)%nat by lia.
      rewrite Nat.div_add by lia.
      rewrite (Nat.div_small 99), (Nat.div_small (n - 1)) by lia. reflexivity.
  - rewrite length_drop. subst n. simpl. lia.
Qed.





(** ** The request pipeline: retries *)

Lemma retry_handler_patterns (patterns : list Z)
    (retry : RequestHandler.World → Settled string * RequestHandler.World)
    (attempts : Z) (settled : Settled string * RequestHandler.World) :
  patterns ≠ [] →
  RequestHandler.retry_handler patterns retry attempts settled = settled.
Proof.
  intros Hne. destruct patterns as [|code patterns]; [congruence|].
  destruct settled as [[body|e|] w]; reflexivity.
Qed.

Lemma retry_handler_status (retry : RequestHandler.World → Settled string * RequestHandler.World)
    (attempts statusCode : Z) (failed : Method) (w : RequestHandler.World) :
  RequestHandler.retry_handler [] retry attempts (Rejected (StatusCodeError statusCode failed), w)
  = if negb (bool_decide (failed ∈ IDEMPOTENT_HTTP_VERBS))
       || (RequestHandler.maxRetryAttempts (RequestHandler._config (RequestHandler.this w))
           <=? attempts)
    then (Rejected (StatusCodeError statusCode failed), w)
    else retry w.
Proof. reflexivity. Qed.

Lemma unauthorized_handler_other (again : RequestHandler.World → Settled string * RequestHandler.World)
    (settled : Settled string * RequestHandler.World) :
  (∀ m, settled.1 ≠ Rejected (StatusCodeError 401 m)) →
  RequestHandler.unauthorized_handler again settled = settled.
Proof.
  intros H. destruct settled as [[body|e|] w]; try reflexivity.
  destruct e as [| | | code m | | | |]; try reflexivity.
  destruct (decide (code = 401)) as [-> | Hne]; [exfalso; exact (H m eq_refl)|].
  unfold RequestHandler.unauthorized_handler.
  repeat (case_match; try reflexivity). congruence.
Qed.

Lemma unauthorized_handler_401 (again : RequestHandler.World → Settled string * RequestHandler.World)
    (failed : Method) (w : RequestHandler.World) :
  RequestHandler.unauthorized_handler again (Rejected (StatusCodeError 401 failed), w)
  = if RequestHandler.token_in_latency w
    then again (RequestHandler.invalidate_token w)
    else (Rejected (StatusCodeError 401 failed), w).
Proof. reflexivity. Qed.

(** A call whose chain is rejected with a status, under a configuration with
    at least one retryable status: the first [catch] lets the rejection
    through, and the second one sees it. *)
Lemma oauthRequest_status_patterns (transport : RequestHandler.Transport) (fuel : nat)
    (options : Request) (attempts statusCode : Z) (failed : Method)
    (w w1 : RequestHandler.World) :
  RequestHandler.dispatch transport options attempts w
    = (Rejected (StatusCodeError statusCode failed), w1) →
  RequestHandler.retryErrorCodes (RequestHandler._config (RequestHandler.this w)) ≠ [] →
  RequestHandler.oauthRequest transport (S fuel) options attempts w
  = RequestHandler.unauthorized_handler
      (RequestHandler.oauthRequest transport fuel options attempts)
      (Rejected (StatusCodeError statusCode failed), w1).
Proof.
  intros Hd Hne. cbn [RequestHandler.oauthRequest].
  rewrite Hd, retry_handler_patterns by exact Hne. reflexivity.
Qed.

(** Runs of the pipeline against a scripted transport, with a token that is
    valid for long and [retryErrorCodes] set to the empty array: a GET that
    meets 503 twice and then 200 is fulfilled by its third attempt; a GET that
    meets 404 every time is rejected after exactly [maxRetryAttempts]
    requests; a POST that meets 503 is rejected after one. *)
Example get_retried_without_patterns :
  let r := RequestHandler.oauthRequest (Sample.scripted [503; 503]) 3 Sample.get_me 1
             (Sample.world Sample.no_retry_codes 5000000) in
  r.1 = Fulfilled "body"
  ∧ RequestHandler.sent r.2
    = [RequestHandler.Dispatch Sample.get_me 1 (Some "token-1");
       RequestHandler.Dispatch Sample.get_me 2 (Some "token-1");
       RequestHandler.Dispatch Sample.get_me 3 (Some "token-1")].
Proof. vm_compute. split; reflexivity. Qed.

Example not_found_retried_without_patterns :
  let r := RequestHandler.oauthRequest (Sample.scripted [404; 404; 404; 404]) 5 Sample.get_me 1
             (Sample.world Sample.no_retry_codes 5000000) in
  r.1 = Rejected (StatusCodeError 404 GET)
  ∧ RequestHandler.sent r.2
    = [RequestHandler.Dispatch Sample.get_me 1 (Some "token-1");
       RequestHandler.Dispatch Sample.get_me 2 (Some "token-1");
       RequestHandler.Dispatch Sample.get_me 3 (Some "token-1")].
Proof. vm_compute. split; reflexivity. Qed.

Example post_is_sent_once :
  let r := RequestHandler.oauthRequest (Sample.scripted [503]) 5 Sample.post_comment 1
             (Sample.world Sample.no_retry_codes 5000000) in
  r.1 = Rejected (StatusCodeError 503 POST)
  ∧ RequestHandler.sent r.2
    = [RequestHandler.Dispatch Sample.post_comment 1 (Some "token-1")].
Proof. vm_compute. split; reflexivity. Qed.

(** C7. What [oauthRequest] does when its chain is rejected with a status
    code that is one of the configured [retryErrorCodes].  The patterns that
    are spread in front of the retry handler take its place as the reaction of
    the native [catch], so the handler is never called: whatever the method of
    the failed request and whatever [attempts] is, below [maxRetryAttempts]
    too, the call is rejected with that error, and the world is as the one
    request of the chain left it.  The one exception is the second [catch]: a
    401 that comes while the cached token is within [MAX_TOKEN_LATENCY] of its
    expiry is answered by the same call on the invalidated token. *)
Theorem transient_error_not_retried (transport : RequestHandler.Transport) (fuel : nat)
    (options : Request) (attempts statusCode : Z) (failed : Method)
    (w w1 : RequestHandler.World) :
  RequestHandler.dispatch transport options attempts w
    = (Rejected (StatusCodeError statusCode failed), w1) →
  statusCode ∈ RequestHandler.retryErrorCodes (RequestHandler._config (RequestHandler.this w)) →
  (statusCode ≠ 401 ∨ RequestHandler.token_in_latency w1 = false →
   RequestHandler.oauthRequest transport (S fuel) options attempts w
   = (Rejected (StatusCodeError statusCode failed), w1))
  ∧ (statusCode = 401 → RequestHandler.token_in_latency w1 = true →
     RequestHandler.oauthRequest transport (S fuel) options attempts w
     = RequestHandler.oauthRequest transport fuel options attempts
         (RequestHandler.invalidate_token w1)).
Proof.
  intros Hd Hcode.
  assert (Hne : RequestHandler.retryErrorCodes
                  (RequestHandler._config (RequestHandler.this w)) ≠ []).
  { intros Hnil. rewrite Hnil in Hcode. apply elem_of_nil in Hcode. exact Hcode. }
  rewrite (oauthRequest_status_patterns _ _ _ _ _ _ _ _ Hd Hne).
  split.
  - intros [Hne401 | Hlat].
    + apply unauthorized_handler_other. intros m [= ? _]. contradiction.
    + destruct (decide (statusCode = 401)) as [-> | Hne401].
      * rewrite unauthorized_handler_401, Hlat. reflexivity.
      * apply unauthorized_handler_other. intros m [= ? _]. contradiction.
  - intros -> Hlat. rewrite unauthorized_handler_401, Hlat. reflexivity.
Qed.

Lemma transient_error_not_retried_witness :
  let transport := Sample.scripted [503] in
  let w := Sample.world RequestHandler.createConfig 5000000 in
  let r := RequestHandler.oauthRequest transport 5 Sample.get_me 1 w in
  (method Sample.get_me ∈ IDEMPOTENT_HTTP_VERBS
   ∧ 1 < RequestHandler.maxRetryAttempts RequestHandler.createConfig)
  ∧ r = RequestHandler.dispatch transport Sample.get_me 1 w
  ∧ r.1 = Rejected (StatusCodeError 503 GET)
  ∧ RequestHandler.sent r.2 = [RequestHandler.Dispatch Sample.get_me 1 (Some "token-1")].
Proof.
  intros transport w r.
  split; [split; [vm_compute; apply list_elem_of_further, list_elem_of_here | reflexivity]|].
  assert (Hr : r = RequestHandler.dispatch transport Sample.get_me 1 w).
  { destruct (transient_error_not_retried transport 4 Sample.get_me 1 503 GET w
                (RequestHandler.dispatch transport Sample.get_me 1 w).2) as [H _].
    - reflexivity.
    - vm_compute. apply list_elem_of_further, list_elem_of_here.
    - subst r. rewrite H by (left; discriminate). reflexivity. }
  split; [exact Hr|]. rewrite Hr. split; reflexivity.
Defined.

(** ** The request pipeline: a 401 close to the expiry of the token *)

Example stale_token_is_refreshed :
  let r := RequestHandler.oauthRequest (Sample.scripted [401]) 3 Sample.get_me 1
             (Sample.world RequestHandler.createConfig 1005000) in
  r.1 = Fulfilled "body"
  ∧ RequestHandler.sent r.2
    = [RequestHandler.Dispatch Sample.get_me 1 (Some "token-1");
       RequestHandler.TokenRequest;
       RequestHandler.Dispatch Sample.get_me 1 (Some "token-2")].
Proof. vm_compute. split; reflexivity. Qed.

(** C8. What [oauthRequest] does when its chain is rejected with status 401.
    The test of the second [catch] is that an access token is cached and its
    expiry minus the current time is below [MAX_TOKEN_LATENCY] (10000 ms).
    - When the first [catch] lets the 401 through (there is at least one
      status among [retryErrorCodes], so that the retry handler is never
      called; or the method is not idempotent; or the attempts are used up):
      if the test holds, the call goes on as [oauthRequest(options, attempts)]
      with [accessToken] and [tokenExpiration] set to [null] and everything
      else as the failure left it, and whatever that call settles with, a
      fulfilment in particular, is what the caller gets; if not, the call is
      rejected with the 401.
    - When [retryErrorCodes] is empty, the method is idempotent and
      [attempts] is below [maxRetryAttempts], the retry handler takes the 401
      first: the call goes on as [oauthRequest(options, attempts + 1)] from
      the state the failure left, the cached token still in place. *)
Theorem stale_token_recovery (transport : RequestHandler.Transport) (fuel : nat)
    (options : Request) (attempts : Z) (failed : Method) (w w1 : RequestHandler.World) :
  RequestHandler.dispatch transport options attempts w
    = (Rejected (StatusCodeError 401 failed), w1) →
  let patterns := RequestHandler.retryErrorCodes
                    (RequestHandler._config (RequestHandler.this w)) in
  let max := RequestHandler.maxRetryAttempts
               (RequestHandler._config (RequestHandler.this w1)) in
  (RequestHandler.token_in_latency w1 = true ↔
   (∃ token, RequestHandler.accessToken (RequestHandler.this w1) = Some token ∧ token ≠ "")
   ∧ RequestHandler.num (RequestHandler.tokenExpiration (RequestHandler.this w1))
     - RequestHandler.now w1 < 10000)
  ∧ (patterns ≠ [] ∨ failed ∉ IDEMPOTENT_HTTP_VERBS ∨ max ≤ attempts →
     (RequestHandler.token_in_latency w1 = true →
      let w2 := RequestHandler.invalidate_token w1 in
      RequestHandler.oauthRequest transport (S fuel) options attempts w
      = RequestHandler.oauthRequest transport fuel options attempts w2
      ∧ RequestHandler.accessToken (RequestHandler.this w2) = None
      ∧ RequestHandler.tokenExpiration (RequestHandler.this w2) = None
      ∧ RequestHandler.sent w2 = RequestHandler.sent w1
      ∧ ∀ body w3,
          RequestHandler.oauthRequest transport fuel options attempts w2 = (Fulfilled body, w3) →
          RequestHandler.oauthRequest transport (S fuel) options attempts w
          = (Fulfilled body, w3))
     ∧ (RequestHandler.token_in_latency w1 = false →
        RequestHandler.oauthRequest transport (S fuel) options attempts w
        = (Rejected (StatusCodeError 401 failed), w1)))
  ∧ (patterns = [] → failed ∈ IDEMPOTENT_HTTP_VERBS → attempts < max →
     RequestHandler.oauthRequest transport (S fuel) options attempts w
     = RequestHandler.unauthorized_handler
         (RequestHandler.oauthRequest transport fuel options attempts)
         (RequestHandler.oauthRequest transport fuel options (attempts + 1) w1)).
Proof.
  intros Hd patterns max.
  split; [| split].
  - unfold RequestHandler.token_in_latency, MAX_TOKEN_LATENCY, truthy_str.
    rewrite andb_true_iff, Z.ltb_lt. split.
    + intros [Ht Hl]. split; [| exact Hl].
      destruct (RequestHandler.accessToken (RequestHandler.this w1)) as [t|]; [| discriminate].
      exists t. split; [reflexivity|]. intros ->. discriminate.
    + intros [(t & Ht & Hne) Hl]. split; [| exact Hl].
      rewrite Ht. destruct t; [congruence | reflexivity].
  - intros Hfirst.
    assert (Hrun : RequestHandler.oauthRequest transport (S fuel) options attempts w
                   = if RequestHandler.token_in_latency w1
                     then RequestHandler.oauthRequest transport fuel options attempts
                            (RequestHandler.invalidate_token w1)
                     else (Rejected (StatusCodeError 401 failed), w1)).
    { destruct (decide (patterns = [])) as [Hnil | Hne].
      - cbn [RequestHandler.oauthRequest]. fold patterns. rewrite Hd, Hnil.
        rewrite retry_handler_status. fold max.
        assert (Hb : negb (bool_decide (failed ∈ IDEMPOTENT_HTTP_VERBS))
                     || (max <=? attempts) = true).
        { destruct Hfirst as [Hp | [Hm | Hmax]]; [contradiction | |].
          - rewrite (bool_decide_eq_false_2 _ Hm). reflexivity.
          - apply orb_true_iff. right. apply Z.leb_le. exact Hmax. }
        rewrite Hb. apply unauthorized_handler_401.
      - rewrite (oauthRequest_status_patterns _ _ _ _ _ _ _ _ Hd Hne).
        apply unauthorized_handler_401. }
    split.
    + intros Hlat w2. rewrite Hrun, Hlat. repeat split.
      intros body w3 H. exact H.
    + intros Hlat. rewrite Hrun, Hlat. reflexivity.
  - intros Hnil Hm Hlt. cbn [RequestHandler.oauthRequest]. fold patterns.
    rewrite Hd, Hnil, retry_handler_status. fold max.
    rewrite (bool_decide_eq_true_2 _ Hm).
    assert (Hmax : (max <=? attempts) = false) by (apply Z.leb_gt; exact Hlt).
    rewrite Hmax. reflexivity.
Qed.

Lemma stale_token_recovery_witness :
  let transport := Sample.scripted [401] in
  let w := Sample.world Sample.no_retry_codes 1005000 in
  let w1 := (RequestHandler.dispatch transport Sample.get_me 1 w).2 in
  let r := RequestHandler.oauthRequest transport 3 Sample.get_me 1 w in
  (RequestHandler.dispatch transport Sample.get_me 1 w).1 = Rejected (StatusCodeError 401 GET)
  ∧ RequestHandler.token_in_latency w1 = true
  ∧ r = RequestHandler.unauthorized_handler
          (RequestHandler.oauthRequest transport 2 Sample.get_me 1)
          (RequestHandler.oauthRequest transport 2 Sample.get_me (1 + 1) w1)
  ∧ r ≠ RequestHandler.oauthRequest transport 2 Sample.get_me 1
          (RequestHandler.invalidate_token w1)
  ∧ r.1 = Fulfilled "body"
  ∧ RequestHandler.sent r.2
    = [RequestHandler.Dispatch Sample.get_me 1 (Some "token-1");
       RequestHandler.Dispatch Sample.get_me 2 (Some "token-1")]
  ∧ RequestHandler.accessToken (RequestHandler.this r.2) = Some "token-1".
Proof.
  intros transport w w1 r.
  split; [reflexivity|]. split; [reflexivity|].
  assert (Hr : r = RequestHandler.unauthorized_handler
                     (RequestHandler.oauthRequest transport 2 Sample.get_me 1)
                     (RequestHandler.oauthRequest transport 2 Sample.get_me (1 + 1) w1)).
  { destruct (stale_token_recovery transport 2 Sample.get_me 1 GET w w1) as (_ & _ & H).
    - reflexivity.
    - apply H.
      + reflexivity.
      + vm_compute. apply list_elem_of_further, list_elem_of_here.
      + vm_compute. reflexivity. }
  split; [exact Hr|]. rewrite Hr.
  split; [vm_compute; discriminate|].
  vm_compute. repeat split; reflexivity.
Defined.

(** ** The original Listing is left alone *)

Lemma stubs_out_nil (h0 : gmap positive Store.Cell) : stubs_out h0 [].
Proof. intros m []. Qed.

Lemma stubs_out_app (h0 : gmap positive Store.Cell) (a b : list Store.Elem) :
  stubs_out h0 a → stubs_out h0 b → stubs_out h0 (a ++ b).
Proof. intros Ha Hb m H. apply in_app_or in H as [H|H]; auto. Qed.

Lemma stubs_out_take (h0 : gmap positive Store.Cell) (k : nat) (a : list Store.Elem) :
  stubs_out h0 a → stubs_out h0 (take k a).
Proof.
  intros Ha m H. apply Ha. rewrite <- (take_drop k a). apply in_or_app. left. exact H.
Qed.

Lemma stubs_out_drop (h0 : gmap positive Store.Cell) (k : nat) (a : list Store.Elem) :
  stubs_out h0 a → stubs_out h0 (drop k a).
Proof.
  intros Ha m H. apply Ha. rewrite <- (take_drop k a). apply in_or_app. right. exact H.
Qed.

Lemma stubs_out_last (h0 : gmap positive Store.Cell) (a : list Store.Elem) (m : positive) :
  stubs_out h0 a → last a = Some (Store.EStub m) → h0 !! m = None.
Proof.
  intros Ha Hl. apply Ha. apply last_Some in Hl as [a' ->].
  apply in_or_app. right. left. reflexivity.
Qed.

Lemma alloc_frame (h0 h h' : gmap positive Store.Cell) (c : Store.Cell) (l : positive) :
  h0 ⊆ h → Store.alloc c h = (l, h') →
  h0 ⊆ h' ∧ h0 !! l = None ∧ h !! l = None ∧ h' = <[l := c]> h.
Proof.
  intros Hsub [= <- <-].
  assert (Hfresh : h !! fresh (dom h) = None) by (apply not_elem_of_dom, is_fresh).
  assert (H0 : h0 !! fresh (dom h) = None) by (eapply lookup_weaken_None; eauto).
  repeat split; [| exact H0 | exact Hfresh].
  apply insert_subseteq_r; assumption.
Qed.

Lemma alloc_extends (h h' : gmap positive Store.Cell) (c : Store.Cell) (l : positive) :
  Store.alloc c h = (l, h') → h ⊆ h'.
Proof. intros E. eapply alloc_frame; [reflexivity | exact E]. Qed.

Lemma new_More_frame (h0 h h' : gmap positive Store.Cell) (m : More) (l : positive) :
  h0 ⊆ h → Store.new_More m h = (l, h') → h0 ⊆ h' ∧ h0 !! l = None.
Proof.
  intros Hsub. unfold Store.new_More.
  destruct (Store.alloc (Store.CIds (children m)) h) as [ids h1] eqn:E1.
  destruct (alloc_frame h0 h h1 _ ids Hsub E1) as (Hsub1 & _ & _).
  intros E2. destruct (alloc_frame h0 h1 h' _ l Hsub1 E2) as (Hsub2 & H0 & _).
  split; assumption.
Qed.

Lemma new_items_frame (h0 : gmap positive Store.Cell) (its : list Item) :
  ∀ h es h', h0 ⊆ h → Store.new_items its h = (es, h') → h0 ⊆ h' ∧ stubs_out h0 es.
Proof.
  induction its as [|[c|m] its IH]; intros h es h' Hsub; cbn [Store.new_items].
  - intros [= <- <-]. split; [exact Hsub | apply stubs_out_nil].
  - destruct (Store.new_items its h) as [es1 h1] eqn:E. intros [= <- <-].
    destruct (IH h es1 h1 Hsub E) as [Hsub1 Hes]. split; [exact Hsub1|].
    intros m [H|H]; [discriminate | auto].
  - destruct (Store.new_More m h) as [lm h1] eqn:E1.
    destruct (new_More_frame h0 h h1 m lm Hsub E1) as [Hsub1 Hlm].
    destruct (Store.new_items its h1) as [es1 h2] eqn:E2. intros [= <- <-].
    destruct (IH h1 es1 h2 Hsub1 E2) as [Hsub2 Hes]. split; [exact Hsub2|].
    intros m' [H|H]; [injection H as <-; exact Hlm | auto].
Qed.

Lemma listing_at_Some (h : gmap positive Store.Cell) (l : positive) (cell : Store.ListingCell) :
  Store.listing_at h l = Some cell ↔ h !! l = Some (Store.CListing cell).
Proof.
  unfold Store.listing_at. destruct (h !! l) as [[?|?|?|?|?]|]; split; congruence.
Qed.

Lemma query_at_Some (h : gmap positive Store.Cell) (l : positive) (q : gmap string JsVal) :
  Store.query_at h l = Some q ↔ h !! l = Some (Store.CQuery q).
Proof.
  unfold Store.query_at. destruct (h !! l) as [[?|?|?|?|?]|]; split; congruence.
Qed.

Lemma array_at_Some (h : gmap positive Store.Cell) (l : positive) (a : list Store.Elem) :
  Store.array_at h l = Some a ↔ h !! l = Some (Store.CArray a).
Proof.
  unfold Store.array_at. destruct (h !! l) as [[?|?|?|?|?]|]; split; congruence.
Qed.

Lemma ids_at_Some (h : gmap positive Store.Cell) (l : positive) (a : list string) :
  Store.ids_at h l = Some a ↔ h !! l = Some (Store.CIds a).
Proof.
  unfold Store.ids_at. destruct (h !! l) as [[?|?|?|?|?]|]; split; congruence.
Qed.

Lemma more_at_Some (h : gmap positive Store.Cell) (l : positive) (m : Store.MoreCell) :
  Store.more_at h l = Some m ↔ h !! l = Some (Store.CMore m).
Proof.
  unfold Store.more_at. destruct (h !! l) as [[?|?|?|?|?]|]; split; congruence.
Qed.

Lemma holds_content_extends (h0 h h1 : gmap positive Store.Cell) (this : positive) :
  h ⊆ h1 → holds_content h0 h this → holds_content h0 h1 this.
Proof.
  intros Hext (cell & Hcell & Helems & Hla). exists cell.
  split; [| split; [exact Helems|]].
  - apply listing_at_Some. eapply lookup_weaken; [| exact Hext].
    apply listing_at_Some, Hcell.
  - intros la Hl. destruct (Hla la Hl) as (arr & Harr & Hout).
    exists arr. split; [| exact Hout]. eapply lookup_weaken; eauto.
Qed.

(** What [_clone] returns: a new Listing whose query object, lookahead array
    and stub are not objects of [h0] either. *)
Lemma clone_frame (h0 h h' : gmap positive Store.Cell) (this c : positive)
    (cloned : Store.ListingCell) :
  h0 ⊆ h → holds_content h0 h this →
  Store._clone this h = Some (c, cloned, h') →
  h0 ⊆ h'
  ∧ h0 !! c = None
  ∧ h' !! c = Some (Store.CListing cloned)
  ∧ h0 !! Store.query cloned = None
  ∧ (∀ m, Store.more cloned = Some m → h0 !! m = None)
  ∧ stubs_out h0 (Store.elems cloned)
  ∧ ∀ la, Store.cachedLookahead cloned = Some la →
      h0 !! la = None
      ∧ ∃ arr, h' !! la = Some (Store.CArray arr) ∧ stubs_out h0 arr.
Proof.
  intros Hsub (cell & Ecell & Helems & Hla). unfold Store._clone.
  rewrite Ecell. cbn [mbind option_bind].
  destruct (Store.query_at h (Store.query cell)) as [q|]; [| discriminate].
  cbn [mbind option_bind].
  (* the lookahead array *)
  assert (Hstep1 : ∀ la h1,
    match Store.cachedLookahead cell with
    | Some a => arr ← Store.array_at h a;
                let '(a', h) := Store.alloc (Store.CArray arr) h in Some (Some a', h)
    | None => Some (None, h)
    end = Some (la, h1) →
    h0 ⊆ h1
    ∧ ∀ l, la = Some l →
        h0 !! l = None ∧ ∃ arr, h1 !! l = Some (Store.CArray arr) ∧ stubs_out h0 arr).
  { intros la h1. destruct (Store.cachedLookahead cell) as [a|] eqn:Ea.
    - destruct (Hla a eq_refl) as (arr & Harr & Hout).
      apply array_at_Some in Harr. rewrite Harr. cbn [mbind option_bind].
      destruct (Store.alloc (Store.CArray arr) h) as [a' h2] eqn:Ealloc.
      intros [= <- <-].
      destruct (alloc_frame h0 h h2 _ a' Hsub Ealloc) as (Hsub2 & Ha' & _ & ->).
      split; [exact Hsub2|]. intros l [= <-]. split; [exact Ha'|].
      exists arr. split; [apply lookup_insert_eq | exact Hout].
    - intros [= <- <-]. split; [exact Hsub|]. intros l. discriminate. }
  destruct (match Store.cachedLookahead cell with Some _ => _ | None => _ end)
    as [[la h1]|] eqn:E1; [| discriminate].
  destruct (Hstep1 la h1 eq_refl) as [Hsub1 Hla1]. clear Hstep1.
  cbn [mbind option_bind].
  (* the stub *)
  assert (Hstep2 : ∀ mo h2,
    match Store.more cell with
    | Some m => mc ← Store.more_at h1 m;
                let '(m', h) := Store.alloc (Store.CMore mc) h1 in Some (Some m', h)
    | None => Some (None, h1)
    end = Some (mo, h2) →
    h0 ⊆ h2 ∧ h1 ⊆ h2 ∧ (∀ m, mo = Some m → h0 !! m = None)).
  { intros mo h2. destruct (Store.more cell) as [m|].
    - destruct (Store.more_at h1 m) as [mc|]; [| discriminate].
      cbn [mbind option_bind].
      destruct (Store.alloc (Store.CMore mc) h1) as [m' h3] eqn:Ealloc.
      intros [= <- <-].
      destruct (alloc_frame h0 h1 h3 _ m' Hsub1 Ealloc) as (Hsub3 & Hm' & _ & _).
      split; [exact Hsub3|]. split; [eapply alloc_extends; eauto|].
      intros ? [= <-]; exact Hm'.
    - intros [= <- <-]. split; [exact Hsub1|]. split; [reflexivity | discriminate]. }
  destruct (match Store.more cell with Some _ => _ | None => _ end)
    as [[mo h2]|] eqn:E2; [| discriminate].
  destruct (Hstep2 mo h2 eq_refl) as (Hsub2 & Hext2 & Hmo). clear Hstep2.
  cbn [mbind option_bind].
  destruct (Store.alloc (Store.CQuery q) h2) as [q' h3] eqn:E3.
  destruct (alloc_frame h0 h2 h3 _ q' Hsub2 E3) as (Hsub3 & Hq' & _ & _).
  pose proof (alloc_extends _ _ _ _ E3) as Hext3.
  match goal with
  | |- context [Store.alloc (Store.CListing ?x) _] => set (result := x)
  end.
  destruct (Store.alloc (Store.CListing result) h3) as [c' h4] eqn:E4.
  destruct (alloc_frame h0 _ h4 _ c' Hsub3 E4) as (Hsub4 & Hc' & _ & Hh4).
  pose proof (alloc_extends _ _ _ _ E4) as Hext4.
  intros [= <- <- <-].
  assert (Hfields : Store.query result = q'
                    ∧ Store.cachedLookahead result = la
                    ∧ (∀ m, Store.more result = Some m → h0 !! m = None)
                    ∧ stubs_out h0 (Store.elems result)).
  { subst result. destruct (last (Store.elems cell)) as [[e|popped]|] eqn:El; cbn;
      repeat split; auto.
    - intros m [= <-]. eapply stubs_out_last; eauto.
    - apply stubs_out_take, Helems. }
  destruct Hfields as (Hfq & Hfla & Hfm & Hfe).
  split; [exact Hsub4|]. split; [exact Hc'|].
  split; [rewrite Hh4; apply lookup_insert_eq|].
  split; [rewrite Hfq; exact Hq'|].
  split; [exact Hfm|]. split; [exact Hfe|].
  intros l Hl. rewrite Hfla in Hl. destruct (Hla1 l Hl) as (Hl0 & arr & Harr & Hout).
  split; [exact Hl0|]. exists arr. split; [| exact Hout].
  eapply lookup_weaken; [| exact Hext4].
  eapply lookup_weaken; [| exact Hext3].
  eapply lookup_weaken; [| exact Hext2]. exact Harr.
Qed.

Lemma framed_rejected (h0 h : gmap positive Store.Cell) (e : Error) (log : list Call) :
  h0 ⊆ h → framed h0 (Rejected e, (h, log)).
Proof. intros H. split; [exact H | discriminate]. Qed.

Lemma framed_pending (h0 h : gmap positive Store.Cell) (log : list Call) :
  h0 ⊆ h → framed h0 (Pending, (h, log)).
Proof. intros H. split; [exact H | discriminate]. Qed.

Lemma framed_promiseWrap (h0 : gmap positive Store.Cell) (proxies : bool)
    (out : Settled positive * Store.State) :
  framed h0 out → framed h0 (ListingObj._promiseWrap proxies out).
Proof.
  unfold framed, ListingObj._promiseWrap. intros [Hsub Hnew].
  destruct proxies; [| split; assumption].
  split; [exact Hsub|]. cbn. intros c Hc. destruct out.1; discriminate.
Qed.

Lemma framed_fulfilled (h0 h : gmap positive Store.Cell) (c : positive) (log : list Call) :
  h0 ⊆ h → h0 !! c = None → framed h0 (Fulfilled c, (h, log)).
Proof. intros H Hc. split; [exact H | intros ? [= <-]; exact Hc]. Qed.

Ltac settled :=
  first [ apply framed_rejected; assumption
        | apply framed_pending; assumption ].

Lemma emptied_fields (b : bool) (cloned : Store.ListingCell) :
  let cloned' := if b then cloned else Store.set_elems [] cloned in
  Store.query cloned' = Store.query cloned
  ∧ Store.more cloned' = Store.more cloned
  ∧ Store.cachedLookahead cloned' = Store.cachedLookahead cloned
  ∧ ∀ h0, stubs_out h0 (Store.elems cloned) → stubs_out h0 (Store.elems cloned').
Proof.
  destruct b; cbn; repeat split; auto. intros h0 _. apply stubs_out_nil.
Qed.

Lemma fetchMoreComments_frame (remote : Remote) (h0 : gmap positive Store.Cell)
    (fuel : nat) (this m : positive) (options : Options) (amount : JsNum)
    (h : gmap positive Store.Cell) (log : list Call) :
  h0 ⊆ h → holds_content h0 h this →
  framed h0 (Store._fetchMoreComments remote fuel this m options amount (h, log)).
Proof.
  intros Hsub Hok. unfold Store._fetchMoreComments.
  destruct (Store.view_more h m) as [stub|]; [| settled].
  destruct (MoreObj.fetchMore remote fuel stub amount (skipReplies options) 0 log)
    as [[moreComments|e|] log']; try settled.
  destruct (Store.new_items moreComments h) as [new_elems h1] eqn:E1.
  destruct (new_items_frame h0 moreComments h new_elems h1 Hsub E1) as [Hsub1 Hnew].
  assert (Hext1 : h ⊆ h1) by (eapply new_items_frame; [reflexivity | exact E1]).
  destruct (Store._clone this h1) as [[[c cloned] h2]|] eqn:E2; [| settled].
  destruct (clone_frame h0 h1 h2 this c cloned Hsub1
              (holds_content_extends _ _ _ _ Hext1 Hok) E2)
    as (Hsub2 & Hc & _ & _ & Hmore & _ & _).
  destruct (emptied_fields (truthy (append options)) cloned) as (_ & Hm & _ & _).
  cbn zeta in Hm. cbn [Store.set_elems Store.more].
  set (cloned1 := if truthy (append options) then cloned else Store.set_elems [] cloned) in *.
  assert (Hsub3 : h0 ⊆ <[c := Store.CListing
                              (Store.set_elems (Store.elems cloned1 ++ new_elems) cloned1)]> h2)
    by (apply insert_subseteq_r; assumption).
  rewrite Hm. destruct (Store.more cloned) as [cm|] eqn:Ecm; [| settled].
  destruct (Store.more_at _ cm) as [mc|]; [| settled].
  destruct (Store.ids_at _ (Store.s_children mc)) as [ids|]; [| settled].
  destruct (Store.alloc _ _) as [sliced h4] eqn:E4.
  destruct (alloc_frame h0 _ h4 _ sliced Hsub3 E4) as (Hsub4 & _).
  apply framed_fulfilled; [| exact Hc].
  apply insert_subseteq_r; [apply Hmore; reflexivity | exact Hsub4].
Qed.

Lemma fetchMoreRegular_frame (remote : Remote) (emptyChildren : positive)
    (h0 : gmap positive Store.Cell)
    (fetchMore : positive → Arg → Store.State → Settled positive * Store.State) :
  (∀ this options h log,
     h0 ⊆ h → holds_content h0 h this → framed h0 (fetchMore this options (h, log))) →
  ∀ this cell options amount h log,
    h0 ⊆ h → holds_content h0 h this →
    framed h0 (Store._fetchMoreRegular remote emptyChildren fetchMore this cell options amount
                 (h, log)).
Proof.
  intros IH this cell options amount h log Hsub Hok. unfold Store._fetchMoreRegular.
  destruct (Store.query_at h (Store.query cell)) as [q|]; [| settled].
  destruct (page remote log _ (Store.transform cell)) as [response|e]; [| settled].
  destruct (Store.new_items (items response) h) as [page_elems h1] eqn:E1.
  destruct (new_items_frame h0 _ h page_elems h1 Hsub E1) as [Hsub1 Hpage].
  assert (Hext1 : h ⊆ h1) by (eapply new_items_frame; [reflexivity | exact E1]).
  assert (Hpm : ∃ pm h2,
    match _more response with
    | Some m => let '(lm, h) := Store.new_More m h1 in (Some lm, h)
    | None => (None, h1)
    end = (pm, h2)
    ∧ h0 ⊆ h2 ∧ h1 ⊆ h2 ∧ ∀ lm, pm = Some lm → h0 !! lm = None).
  { destruct (_more response) as [m|].
    - destruct (Store.new_More m h1) as [lm h2] eqn:E.
      exists (Some lm), h2. split; [reflexivity|].
      destruct (new_More_frame h0 h1 h2 m lm Hsub1 E) as [Hs Hl].
      split; [exact Hs|]. split; [eapply new_More_frame; [reflexivity | exact E]|].
      intros ? [= <-]. exact Hl.
    - exists None, h1. repeat split; auto. discriminate. }
  destruct Hpm as (pm & h2 & -> & Hsub2 & Hext2 & Hpm).
  destruct (Store._clone this h2) as [[[c cloned] h3]|] eqn:E3; [| settled].
  assert (Hok2 : holds_content h0 h2 this).
  { eapply holds_content_extends; [exact Hext2|].
    eapply holds_content_extends; [exact Hext1 | exact Hok]. }
  destruct (clone_frame h0 h2 h3 this c cloned Hsub2 Hok2 E3)
    as (Hsub3 & Hc & Hatc & Hq & Hmore & Helems & Hla).
  destruct (emptied_fields (truthy (append options)) cloned) as (Hq1 & Hm1 & Hla1 & He1).
  cbn zeta in Hq1, Hm1, Hla1, He1. specialize (He1 h0 Helems).
  set (cloned1 := if truthy (append options) then cloned else Store.set_elems [] cloned) in *.
  set (h4 := <[c := Store.CListing cloned1]> h3).
  assert (Hsub4 : h0 ⊆ h4) by (apply insert_subseteq_r; assumption).
  destruct (Store.query_at h4 (Store.query cloned1)) as [cq|] eqn:Ecq; [| settled].
  apply query_at_Some in Ecq.
  (* the merged clone and its query *)
  assert (Hmerge : ∃ cloned2 cq2,
    (if truthy (get cq "before")
     then (Store.set_elems (page_elems ++ Store.elems cloned1) cloned1,
           <["after" := VNull]> (<["before" := get (_query response) "before"]> cq))
     else (Store.set_elems (Store.elems cloned1 ++ page_elems) cloned1,
           <["after" := get (_query response) "after"]> (<["before" := VNull]> cq)))
    = (cloned2, cq2)
    ∧ Store.query cloned2 = Store.query cloned
    ∧ Store.more cloned2 = Store.more cloned
    ∧ Store.cachedLookahead cloned2 = Store.cachedLookahead cloned
    ∧ stubs_out h0 (Store.elems cloned2)).
  { destruct (truthy (get cq "before")); eexists _, _; (split; [reflexivity|]);
      cbn; repeat split; auto; apply stubs_out_app; assumption. }
  destruct Hmerge as (cloned2 & cq2 & -> & Hq2 & Hm2 & Hla2 & He2).
  set (h5 := <[Store.query cloned2 := Store.CQuery cq2]>
               (<[c := Store.CListing cloned2]> h4)).
  assert (Hsub5 : h0 ⊆ h5).
  { apply insert_subseteq_r; [rewrite Hq2; exact Hq|].
    apply insert_subseteq_r; assumption. }
  (* the lookahead of the clone is still an array of h5 *)
  assert (Hc_ne_q : c ≠ Store.query cloned).
  { intros Heq. rewrite Hq1, <- Heq in Ecq. unfold h4 in Ecq.
    rewrite lookup_insert_eq in Ecq. discriminate. }
  assert (Hla5 : ∀ la, Store.cachedLookahead cloned = Some la →
            ∃ arr, h5 !! la = Some (Store.CArray arr) ∧ stubs_out h0 arr).
  { intros la Hl. destruct (Hla la Hl) as (_ & arr & Harr & Hout).
    exists arr. split; [| exact Hout].
    assert (la ≠ c) by (intros ->; congruence).
    assert (la ≠ Store.query cloned).
    { intros ->. unfold h4 in Ecq. rewrite Hq1 in Ecq.
      rewrite lookup_insert_ne in Ecq by exact Hc_ne_q. congruence. }
    unfold h5, h4. rewrite Hq2.
    rewrite !lookup_insert_ne by congruence. exact Harr. }
  (* the comment Listing part *)
  assert (Hfinal : ∃ cloned3 h6,
    (if Store.isCommentList cell
     then
       let cloned := Store.set_more
                       (match Store.more cloned2, pm with
                        | Some m, _ => Some m
                        | None, Some m => Some m
                        | None, None => Some emptyChildren
                        end) cloned2 in
       if Num.lt_len amount (length (items response))
       then
         let '(removed, rest) := Arr.splice_from amount (Store.elems cloned) in
         let '(la, h) := Store.alloc (Store.CArray removed) h5 in
         (Store.set_cachedLookahead (Some la) (Store.set_elems rest cloned), h)
       else (cloned, h5)
     else (cloned2, h5)) = (cloned3, h6)
    ∧ h0 ⊆ h6
    ∧ h6 !! c = Some (Store.CListing cloned2)
    ∧ stubs_out h0 (Store.elems cloned3)
    ∧ ∀ la, Store.cachedLookahead cloned3 = Some la →
        ∃ arr, h6 !! la = Some (Store.CArray arr) ∧ stubs_out h0 arr).
  { assert (Hat5 : h5 !! c = Some (Store.CListing cloned2)).
    { unfold h5. rewrite lookup_insert_ne by (rewrite Hq2; congruence).
      apply lookup_insert_eq. }
    destruct (Store.isCommentList cell).
    - cbn zeta. destruct (Num.lt_len amount (length (items response))).
      + unfold Arr.splice_from. cbn [Store.set_more Store.elems].
        destruct (Store.alloc _ h5) as [la h6] eqn:E6.
        destruct (alloc_frame h0 h5 h6 _ la Hsub5 E6) as (Hsub6 & _ & Hfresh & ->).
        eexists _, _. split; [reflexivity|]. split; [exact Hsub6|].
        split; [rewrite lookup_insert_ne by congruence; exact Hat5|].
        split; [cbn; apply stubs_out_take, He2|].
        intros la' [= <-]. eexists. split; [apply lookup_insert_eq|].
        apply stubs_out_drop, He2.
      + eexists _, _. split; [reflexivity|]. repeat split; auto.
        cbn. rewrite Hla2. exact Hla5.
    - eexists _, _. split; [reflexivity|]. repeat split; auto.
      rewrite Hla2. exact Hla5. }
  cbn zeta in Hfinal. destruct Hfinal as (cloned3 & h6 & -> & Hsub6 & Hat6 & He3 & Hla3).
  apply IH.
  - apply insert_subseteq_r; assumption.
  - exists cloned3. split; [apply listing_at_Some, lookup_insert_eq|].
    split; [exact He3|].
    intros la Hl. destruct (Hla3 la Hl) as (arr & Harr & Hout).
    exists arr. split; [| exact Hout].
    rewrite lookup_insert_ne by (intros ->; congruence). exact Harr.
Qed.

Lemma fetchMore_frame (proxies : bool) (remote : Remote) (emptyChildren : positive)
    (h0 : gmap positive Store.Cell) (fuel : nat) :
  ∀ this options h log,
    h0 ⊆ h → holds_content h0 h this →
    framed h0 (Store.fetchMore proxies remote emptyChildren fuel this options (h, log)).
Proof.
  induction fuel as [|fuel IH]; intros this options h log Hsub Hok; [settled|].
  cbn [Store.fetchMore].
  destruct (ListingObj.parseOptions options) as [e|parsed]; [settled|].
  destruct (amount parsed) as [| | b | n | s]; try settled.
  assert (Hgo : ∀ amount : JsNum,
    framed h0 (match Store.listing_at h this, Store.isFinished h this with
          | Some cell, Some finished =>
              if Num.le0 amount || finished
              then
                match Store._clone this h with
                | None => (Rejected TypeError, (h, log))
                | Some (c, cloned, h1) =>
                    ListingObj._promiseWrap proxies
                      (if truthy (append parsed) then (Fulfilled c, (h1, log))
                       else (Fulfilled c,
                             (<[c := Store.CListing (Store.set_elems [] cloned)]> h1, log)))
                end
              else
                match Store.cachedLookahead cell with
                | Some _ =>
                    match Store._clone this h with
                    | None => (Rejected TypeError, (h, log))
                    | Some (c, cloned, h1) =>
                        match Store.cachedLookahead cloned with
                        | None => (Rejected TypeError, (h1, log))
                        | Some la =>
                            match Store.array_at h1 la with
                            | None => (Rejected TypeError, (h1, log))
                            | Some lookahead =>
                                let '(removed, rest) := Arr.splice0 amount lookahead in
                                if (length removed =? 0)%nat
                                   && (length (Store.elems cloned)
                                       =? length (Store.elems cell))%nat
                                then (Rejected RangeError, (h1, log))
                                else
                                let h2 := <[la := Store.CArray rest]> h1 in
                                let cloned' :=
                                  Store.set_elems (Store.elems cloned ++ removed) cloned in
                                let h3 := <[c := Store.CListing cloned']> h2 in
                                Store.fetchMore proxies remote emptyChildren fuel c
                                  (Bare (VNum (Num.add
                                                 (Num.sub amount (length (Store.elems cloned')))
                                                 (length (Store.elems cell)))))
                                  (h3, log)
                            end
                        end
                    end
                | None =>
                    ListingObj._promiseWrap proxies
                      match Store.more cell with
                      | Some m =>
                          Store._fetchMoreComments remote fuel this m parsed amount (h, log)
                      | None =>
                          Store._fetchMoreRegular remote emptyChildren
                            (Store.fetchMore proxies remote emptyChildren fuel) this cell
                            parsed amount (h, log)
                      end
                end
          | _, _ => (Rejected TypeError, (h, log))
          end)).
  { intros amount.
    destruct (Store.listing_at h this) as [cell|]; [| settled].
    destruct (Store.isFinished h this) as [finished|]; [| settled].
    destruct (Num.le0 amount || finished).
    - destruct (Store._clone this h) as [[[c cloned] h1]|] eqn:E; [| settled].
      destruct (clone_frame h0 h h1 this c cloned Hsub Hok E) as (Hsub1 & Hc & _).
      apply framed_promiseWrap.
      destruct (truthy (append parsed)); apply framed_fulfilled; try assumption.
      apply insert_subseteq_r; assumption.
    - destruct (Store.cachedLookahead cell) as [la0|].
      + destruct (Store._clone this h) as [[[c cloned] h1]|] eqn:E; [| settled].
        destruct (clone_frame h0 h h1 this c cloned Hsub Hok E)
          as (Hsub1 & Hc & Hatc & _ & _ & Helems & Hla).
        destruct (Store.cachedLookahead cloned) as [la|] eqn:Ela; [| settled].
        destruct (Hla la eq_refl) as (Hla0 & arr & Harr & Hout).
        destruct (Store.array_at h1 la) as [lookahead|] eqn:Earr; [| settled].
        apply array_at_Some in Earr. unfold Arr.splice0. cbn zeta.
        assert (lookahead = arr) by congruence. subst lookahead.
        assert (Hne : la ≠ c) by (intros ->; congruence).
        destruct (_ && _); [settled|].
        apply IH.
        * apply insert_subseteq_r; [exact Hc|].
          apply insert_subseteq_r; assumption.
        * eexists. split; [apply listing_at_Some, lookup_insert_eq|].
          split; [cbn; apply stubs_out_app; [exact Helems | apply stubs_out_take, Hout]|].
          cbn. intros la' Hl. rewrite Ela in Hl. injection Hl as <-.
          eexists. split; [rewrite lookup_insert_ne by congruence; apply lookup_insert_eq|].
          apply stubs_out_drop, Hout.
      + apply framed_promiseWrap. destruct (Store.more cell) as [m|].
        * apply fetchMoreComments_frame; assumption.
        * apply fetchMoreRegular_frame; assumption. }
  destruct n; try settled; apply Hgo.
Qed.

(** Reading an object back from a larger store. *)

Lemma view_more_extends (h h' : gmap positive Store.Cell) (m : positive) (v : More) :
  h ⊆ h' → Store.view_more h m = Some v → Store.view_more h' m = Some v.
Proof.
  intros Hext. unfold Store.view_more.
  destruct (Store.more_at h m) as [mc|] eqn:Em; [| discriminate].
  cbn [mbind option_bind].
  destruct (Store.ids_at h (Store.s_children mc)) as [ids|] eqn:Ei; [| discriminate].
  apply more_at_Some in Em. apply ids_at_Some in Ei.
  pose proof (proj2 (more_at_Some _ _ _) (lookup_weaken _ _ _ _ Em Hext)) as Em'.
  pose proof (proj2 (ids_at_Some _ _ _) (lookup_weaken _ _ _ _ Ei Hext)) as Ei'.
  rewrite Em'. cbn [mbind option_bind]. rewrite Ei'. auto.
Qed.

Lemma view_elems_extends (h h' : gmap positive Store.Cell) (es : list Store.Elem)
    (its : list Item) :
  h ⊆ h' → Store.view_elems h es = Some its → Store.view_elems h' es = Some its.
Proof.
  intros Hext H. apply mapM_Some in H. apply mapM_Some.
  eapply Forall2_impl; [exact H|].
  intros [c|m] y; cbn; [auto|].
  destruct (Store.view_more h m) as [v|] eqn:E; [| discriminate].
  rewrite (view_more_extends h h' m v Hext E). auto.
Qed.

Lemma view_extends (h h' : gmap positive Store.Cell) (l : positive) (v : Listing) :
  h ⊆ h' → Store.view h l = Some v → Store.view h' l = Some v.
Proof.
  intros Hext. unfold Store.view.
  destruct (Store.listing_at h l) as [cell|] eqn:Ec; [| discriminate].
  apply listing_at_Some in Ec.
  pose proof (proj2 (listing_at_Some _ _ _) (lookup_weaken _ _ _ _ Ec Hext)) as Ec'.
  rewrite Ec'. cbn [mbind option_bind].
  destruct (Store.view_elems h (Store.elems cell)) as [its|] eqn:Ee; [| discriminate].
  rewrite (view_elems_extends h h' _ its Hext Ee). cbn [mbind option_bind].
  destruct (Store.query_at h (Store.query cell)) as [q|] eqn:Eq; [| discriminate].
  apply query_at_Some in Eq.
  pose proof (proj2 (query_at_Some _ _ _) (lookup_weaken _ _ _ _ Eq Hext)) as Eq'.
  rewrite Eq'. cbn [mbind option_bind].
  assert (Hmo : ∀ mo,
    match Store.more cell with
    | Some m => Some <$> Store.view_more h m
    | None => Some None
    end = Some mo →
    match Store.more cell with
    | Some m => Some <$> Store.view_more h' m
    | None => Some None
    end = Some mo).
  { intros mo. destruct (Store.more cell) as [m|]; [| auto].
    destruct (Store.view_more h m) as [mv|] eqn:Em; [| discriminate].
    rewrite (view_more_extends h h' m mv Hext Em). auto. }
  destruct (match Store.more cell with Some _ => _ | None => _ end) as [mo|];
    [| discriminate].
  rewrite (Hmo mo eq_refl). cbn [mbind option_bind].
  assert (Hla : ∀ la,
    match Store.cachedLookahead cell with
    | Some a => arr ← Store.array_at h a; Some <$> Store.view_elems h arr
    | None => Some None
    end = Some la →
    match Store.cachedLookahead cell with
    | Some a => arr ← Store.array_at h' a; Some <$> Store.view_elems h' arr
    | None => Some None
    end = Some la).
  { intros la. destruct (Store.cachedLookahead cell) as [a|]; [| auto].
    destruct (Store.array_at h a) as [arr|] eqn:Ea; [| discriminate].
    apply array_at_Some in Ea.
    pose proof (proj2 (array_at_Some _ _ _) (lookup_weaken _ _ _ _ Ea Hext)) as Ea'.
    rewrite Ea'. cbn [mbind option_bind].
    destruct (Store.view_elems h arr) as [its'|] eqn:Ee'; [| discriminate].
    rewrite (view_elems_extends h h' _ its' Hext Ee'). auto. }
  destruct (match Store.cachedLookahead cell with Some _ => _ | None => _ end) as [la|];
    [| discriminate].
  rewrite (Hla la eq_refl). auto.
Qed.

Lemma view_elems_content (h : gmap positive Store.Cell) (es : list Store.Elem)
    (its : list Item) (h0 : gmap positive Store.Cell) :
  Store.view_elems h es = Some its → content_only its = true → stubs_out h0 es.
Proof.
  intros H. apply mapM_Some in H. induction H as [|e i es its He _ IH]; intros Hc m Hin.
  - destruct Hin.
  - cbn in Hc. apply andb_true_iff in Hc as [Hi Hc].
    destruct Hin as [-> | Hin]; [| exact (IH Hc m Hin)].
    cbn in He. destruct (Store.view_more h m); [| discriminate].
    injection He as <-. discriminate.
Qed.

Lemma view_holds_content (h : gmap positive Store.Cell) (L : positive) (v : Listing) :
  Store.view h L = Some v →
  content_only (items v) = true →
  content_only (default [] (_cachedLookahead v)) = true →
  holds_content h h L.
Proof.
  unfold Store.view. intros Hv Hi Hl.
  destruct (Store.listing_at h L) as [cell|] eqn:Ec; [| discriminate].
  cbn [mbind option_bind] in Hv.
  destruct (Store.view_elems h (Store.elems cell)) as [its|] eqn:Ee; [| discriminate].
  cbn [mbind option_bind] in Hv.
  destruct (Store.query_at h (Store.query cell)) as [q|]; [| discriminate].
  cbn [mbind option_bind] in Hv.
  destruct (match Store.more cell with Some _ => _ | None => _ end) as [mo|];
    [| discriminate].
  cbn [mbind option_bind] in Hv.
  destruct (match Store.cachedLookahead cell with Some _ => _ | None => _ end)
    as [la|] eqn:Ela; [| discriminate].
  cbn [mbind option_bind] in Hv. injection Hv as <-.
  cbn [items _cachedLookahead] in Hi, Hl.
  exists cell. split; [exact Ec|].
  split; [eapply view_elems_content; eauto|].
  intros a Ha. rewrite Ha in Ela.
  destruct (Store.array_at h a) as [arr|] eqn:Ea; [| discriminate].
  cbn [mbind option_bind] in Ela.
  destruct (Store.view_elems h arr) as [its'|] eqn:Ee'; [| discriminate].
  injection Ela as <-. cbn [default] in Hl.
  exists arr. split; [apply array_at_Some, Ea|].
  eapply view_elems_content; eauto.
Qed.

(** C4. Take a store with a Listing [L] that holds content only (no More
    instance among its elements or in its lookahead).  After a call of
    [fetchMore] or [fetchAll] on [L], with any options and whatever the call
    settles with, every object that was in the store is still there with the
    contents it had; in particular [L] reads as before: its elements, its
    query object with the cursors, its More stub with the children array of
    the stub, and its lookahead array.  A Listing the call is fulfilled with
    is an object that was not in the store before. *)
Theorem fetchMore_leaves_original (proxies : bool) (remote : Remote) (emptyChildren : positive)
    (fuel : nat) (L : positive) (options : Arg) (h : gmap positive Store.Cell)
    (log : list Call) (v : Listing) :
  Store.view h L = Some v →
  content_only (items v) = true →
  content_only (default [] (_cachedLookahead v)) = true →
  let out := Store.fetchMore proxies remote emptyChildren fuel L options (h, log) in
  let out_all := Store.fetchAll proxies remote emptyChildren fuel L options (h, log) in
  (h ⊆ out.2.1
   ∧ Store.view out.2.1 L = Some v
   ∧ ∀ c, out.1 = Fulfilled c → h !! c = None)
  ∧ (h ⊆ out_all.2.1
     ∧ Store.view out_all.2.1 L = Some v
     ∧ ∀ c, out_all.1 = Fulfilled c → h !! c = None).
Proof.
  intros Hv Hi Hl out out_all.
  pose proof (view_holds_content h L v Hv Hi Hl) as Hok.
  assert (Hone : ∀ o,
    let r := Store.fetchMore proxies remote emptyChildren fuel L o (h, log) in
    h ⊆ r.2.1 ∧ Store.view r.2.1 L = Some v ∧ ∀ c, r.1 = Fulfilled c → h !! c = None).
  { intros o r.
    destruct (fetchMore_frame proxies remote emptyChildren h fuel L o h log
                (reflexivity h) Hok)
      as [Hsub Hnew].
    split; [exact Hsub|]. split; [| exact Hnew].
    eapply view_extends; eauto. }
  split; [apply Hone|]. apply Hone.
Qed.

Lemma fetchMore_leaves_original_witness :
  let out := Store.fetchMore false Sample.remote Sample.store_empty.1 5 Sample.store_hot.1
               (Sample.opts 5) (Sample.store, []) in
  let out_all := Store.fetchAll false Sample.remote Sample.store_empty.1 5 Sample.store_hot.1
                   (Sample.opts 5) (Sample.store, []) in
  (Sample.store ⊆ out.2.1
   ∧ Store.view out.2.1 Sample.store_hot.1 = Some Sample.hot
   ∧ ∀ c, out.1 = Fulfilled c → Sample.store !! c = None)
  ∧ (Sample.store ⊆ out_all.2.1
     ∧ Store.view out_all.2.1 Sample.store_hot.1 = Some Sample.hot
     ∧ ∀ c, out_all.1 = Fulfilled c → Sample.store !! c = None).
Proof.
  apply (fetchMore_leaves_original false Sample.remote Sample.store_empty.1 5
           Sample.store_hot.1
           (Sample.opts 5) Sample.store [] Sample.hot).
  - vm_compute. reflexivity.
  - reflexivity.
  - reflexivity.
Defined.

(** On the sample store the two embeddings of [fetchMore] agree: the Listing
    the call over the store is fulfilled with reads as the Listing the call
    over values is fulfilled with, and the same requests are sent. *)
Example store_agrees_on_hot :
  let out := Store.fetchMore false Sample.remote Sample.store_empty.1 5 Sample.store_hot.1
               (Sample.opts 5) (Sample.store, []) in
  let res := ListingObj.fetchMore false Sample.remote 5 Sample.hot (Sample.opts 5) [] in
  match out.1, res.1 with
  | Fulfilled c, Fulfilled L' => Store.view out.2.1 c = Some L' ∧ out.2.2 = res.2
  | _, _ => False
  end.
Proof. vm_compute. split; reflexivity. Qed.

Example store_agrees_on_thread :
  let out := Store.fetchMore false Sample.remote Sample.store_empty.1 5 Sample.store_thread.1
               (Sample.opts 1) (Sample.store, []) in
  let res := ListingObj.fetchMore false Sample.remote 5 Sample.thread (Sample.opts 1) [] in
  match out.1, res.1 with
  | Fulfilled c, Fulfilled L' => Store.view out.2.1 c = Some L' ∧ out.2.2 = res.2
  | _, _ => False
  end.
Proof. vm_compute. split; reflexivity. Qed.

Example store_agrees_on_lookahead :
  let out := Store.fetchMore false Sample.remote Sample.store_empty.1 5 Sample.store_lookahead.1
               (Sample.opts 1) (Sample.store, []) in
  let res := ListingObj.fetchMore false Sample.remote 5 Sample.with_lookahead (Sample.opts 1) [] in
  match out.1, res.1 with
  | Fulfilled c, Fulfilled L' => Store.view out.2.1 c = Some L' ∧ out.2.2 = res.2
  | _, _ => False
  end.
Proof. vm_compute. split; reflexivity. Qed.

(** * Further properties of Listing.ts *)

Lemma isFinished_empty (L : Listing) : isFinished (ListingObj._empty L) = isFinished L.
Proof. reflexivity. Qed.

Lemma empty_clone (L : Listing) :
  content_only (items L) = true →
  ListingObj._empty (ListingObj._clone L) = ListingObj._clone (ListingObj._empty L).
Proof.
  intros Hwf. rewrite (clone_content L Hwf).
  rewrite (clone_content (ListingObj._empty L)) by reflexivity. reflexivity.
Qed.

Lemma answered_cons (remote : Remote) (transform : Transform) (log : list Call) (c : Call)
    (sent : list Call) :
  answered remote transform log (c :: sent)
  = answer remote transform log c ++ answered remote transform (log ++ [c]) sent.
Proof. reflexivity. Qed.

(** What a stub is fulfilled with is what the remote side answered to its
    calls, in the order of the calls. *)
Lemma More_fetch_answers (remote : Remote) (transform : Transform) (fuel : nat) :
  ∀ this amount skip start log fetched log',
    (MoreObj.fetchMore remote fuel this amount skip start log = (Fulfilled fetched, log') →
     ∃ sent, log' = log ++ sent ∧ fetched = answered remote transform log sent)
    ∧ (MoreObj.fetchTree remote fuel this amount skip start log = (Fulfilled fetched, log') →
       ∃ sent, log' = log ++ sent ∧ fetched = answered remote transform log sent).
Proof.
  induction fuel as [|fuel IH]; intros this amount skip start log fetched log';
    [split; discriminate|].
  assert (Htree : MoreObj.fetchTree remote (S fuel) this amount skip start log
                  = (Fulfilled fetched, log') →
                  ∃ sent, log' = log ++ sent ∧ fetched = answered remote transform log sent).
  { cbn [MoreObj.fetchTree].
    destruct (Num.le0 amount || (length (children this) <=? start)%nat).
    { intros [= <- <-]. exists []. rewrite app_nil_r. split; reflexivity. }
    set (ids := MoreObj.getNextIdSlice _ _ _ _).
    destruct (morechildren remote log (MoreObj.tree_request this ids)) as [things|e] eqn:Hanswer;
      [| discriminate].
    destruct (MoreObj.resolve_things things) as [trees|e|] eqn:Hthings; try discriminate.
    assert (trees = things) as ->.
    { unfold MoreObj.resolve_things in Hthings.
      repeat (destruct (existsb _ things); [discriminate|]). congruence. }
    destruct (MoreObj.fetchMore remote fuel this _ skip _ _) as [[nexts|e|] log2] eqn:Hrest;
      try discriminate.
    intros [= <- <-].
    apply (IH _ _ _ _ _ nexts log2) in Hrest as (sent & -> & ->).
    exists (TreeCall (MoreObj.tree_request this ids) :: sent).
    split; [rewrite <- app_assoc; reflexivity|].
    rewrite answered_cons. cbn [answer]. rewrite Hanswer. reflexivity. }
  split; [| exact Htree].
  cbn [MoreObj.fetchMore].
  destruct (Num.le0 amount || (length (children this) <=? start)%nat).
  { intros [= <- <-]. exists []. rewrite app_nil_r. split; reflexivity. }
  destruct (negb (truthy skip)).
  { intros Hrun. destruct (IH this amount skip start log fetched log') as [_ H]. exact (H Hrun). }
  set (ids := map _ _).
  destruct (MoreObj.fetchMore remote fuel this _ skip _ _) as [rest log2] eqn:Hrest.
  destruct (info remote log (MoreObj.info_request ids)) as [batch|e] eqn:Hanswer;
    [| destruct rest; discriminate].
  destruct rest as [nexts|e|]; try discriminate.
  intros [= <- <-].
  apply (IH _ _ _ _ _ nexts log2) in Hrest as (sent & -> & ->).
  exists (InfoCall (MoreObj.info_request ids) :: sent).
  split; [rewrite <- app_assoc; reflexivity|].
  rewrite answered_cons. cbn [answer]. rewrite Hanswer. reflexivity.
Qed.

(** X1. A regular Listing (no stub, no lookahead) that holds content only,
    against pages that hold content only, asked for more with
    [append: true]: when the call is fulfilled, every call it made was a page
    call, and the new Listing has the items of the original, in their order,
    together with the pages that were answered to these calls.  Without a
    truthy [before] cursor the pages follow the items of the original, in the
    order of the calls.  With one, when every page comes with a [before]
    cursor that is [null] or non-empty, the pages stand in front, the last
    one first.  A finished Listing makes no call and gets nothing new.  (A
    call is only fulfilled with [proxies] off and when the page calls are
    answered.) *)
Theorem fetchMore_regular_grows (proxies : bool) (remote : Remote) (fuel : nat) (L L' : Listing)
    (n : JsNum) (skip : JsVal) (log log' : list Call) :
  (∀ log req t resp, page remote log req t = Resolved resp →
     content_only (items resp) = true) →
  _isCommentList L = false → _more L = None → _cachedLookahead L = None →
  content_only (items L) = true →
  ListingObj.fetchMore proxies remote fuel L
    (Obj {| amount := VNum n; skipReplies := skip; append := VBool true |}) log
  = (Fulfilled L', log') →
  ∃ sent,
    log' = log ++ sent
    ∧ Forall (λ c, is_page c = true) sent
    ∧ (isFinished L = true → sent = [] ∧ items L' = items L)
    ∧ (truthy (get (_query L) "before") = false →
       items L' = items L ++ answered remote (_transform L) log sent)
    ∧ ((∀ log req t resp, page remote log req t = Resolved resp →
          get (_query resp) "before" = VNull
          ∨ truthy (get (_query resp) "before") = true) →
       truthy (get (_query L) "before") = true →
       items L' = concat (reverse (answers remote (_transform L) log sent)) ++ items L).
Proof.
  intros Hpages. destruct proxies; [proxied_absurd|].
  revert L n log. induction fuel as [|fuel IH];
    intros L n log Hreg Hmore Hla Hwf Hrun; [discriminate|].
  assert (Hn : n ≠ NaN) by (intros ->; discriminate).
  rewrite fetchMore_number_off in Hrun by exact Hn. cbn zeta in Hrun.
  destruct (decide (VBool true = VUndefined)) as [|_]; [discriminate|].
  destruct (Num.le0 n || isFinished L) eqn:Hstop.
  - cbn [append truthy] in Hrun. rewrite clone_content in Hrun by exact Hwf.
    injection Hrun as <- <-. exists []. rewrite app_nil_r.
    split; [reflexivity|]. split; [constructor|].
    split; [split; reflexivity|].
    split; [intros _; cbn; rewrite app_nil_r; reflexivity | intros _ _; reflexivity].
  - apply orb_false_iff in Hstop as [_ Hfin]. rewrite Hla, Hmore in Hrun.
    unfold ListingObj._fetchMoreRegular in Hrun.
    destruct (page remote log (ListingObj.page_request L n) (_transform L))
      as [response|e] eqn:Hp; [| discriminate].
    cbn [append skipReplies] in Hrun.
    pose proof (Hpages _ _ _ _ Hp) as Hwfr.
    rewrite (merge_page_regular L response n Hreg Hwf) in Hrun.
    set (c := PageCall (_isCommentList L) n (ListingObj.page_request L n)) in *.
    assert (Hc : answer remote (_transform L) log c = items response)
      by (cbn; rewrite Hp; reflexivity).
    destruct (truthy (get (_query L) "before")) eqn:Hb.
    + apply IH in Hrun; try assumption; try reflexivity;
        [| cbn; rewrite content_only_app, Hwfr, Hwf; reflexivity].
      destruct Hrun as (sent & -> & Hsent & Hf & _ & Hback). cbn in Hf, Hback.
      exists (c :: sent). split; [rewrite <- app_assoc; reflexivity|].
      split; [constructor; [reflexivity | exact Hsent]|].
      split; [congruence|]. split; [discriminate|].
      intros Hcur _. cbn [answers]. rewrite Hc, reverse_cons, concat_app. cbn [concat].
      rewrite app_nil_r, <- app_assoc.
      destruct (Hcur _ _ _ _ Hp) as [Hnull | Htruthy].
      * destruct Hf as [-> ->].
        { unfold isFinished. cbn.
          rewrite get_insert_eq, get_insert_ne, get_insert_eq, Hnull by discriminate.
          rewrite Hreg. apply orb_true_r. }
        reflexivity.
      * apply Hback; [exact Hcur|].
        rewrite get_insert_ne, get_insert_eq by discriminate. exact Htruthy.
    + apply IH in Hrun; try assumption; try reflexivity;
        [| cbn; rewrite content_only_app, Hwfr, Hwf; reflexivity].
      destruct Hrun as (sent & -> & Hsent & _ & Hfwd & _). cbn in Hfwd.
      exists (c :: sent). split; [rewrite <- app_assoc; reflexivity|].
      split; [constructor; [reflexivity | exact Hsent]|].
      split; [congruence|]. split; [| discriminate].
      intros _. rewrite answered_cons, Hc, app_assoc. apply Hfwd.
      rewrite get_insert_ne, get_insert_eq by discriminate. reflexivity.
Qed.

Lemma fetchMore_regular_grows_witness :
  ∃ L' sent,
    ListingObj.fetchMore false Sample.remote 3 Sample.hot (Sample.opts 1) []
    = (Fulfilled L', [] ++ sent)
    ∧ sent = [PageCall false (Fin 1) (ListingObj.page_request Sample.hot (Fin 1))]
    ∧ items L' = items Sample.hot ++ answered Sample.remote Identity [] sent
    ∧ items L' = [Sample.post "a"; Sample.post "b"; Sample.post "c";
                  Sample.post "d"; Sample.post "e"].
Proof.
  eexists _, _. split; [vm_compute; reflexivity|]. split; [reflexivity|].
  split; [| reflexivity].
  assert (Hpages : ∀ log req t resp, page Sample.remote log req t = Resolved resp →
                     content_only (items resp) = true)
    by (intros log req t resp [= <-]; reflexivity).
  destruct (fetchMore_regular_grows false Sample.remote 3 Sample.hot _ (Fin 1) VUndefined []
              [PageCall false (Fin 1) (ListingObj.page_request Sample.hot (Fin 1))]
              Hpages eq_refl eq_refl eq_refl eq_refl eq_refl)
    as (sent & Hlog & _ & _ & Hfwd & _).
  cbn in Hlog. subst sent. apply Hfwd. reflexivity.
Defined.

(** X2. A Listing with a More stub, content only and no lookahead, that is
    asked for more with [append: true]: when the call is fulfilled, the new
    Listing has the items of the original, in their order, followed by the
    items that the remote side answered to the calls this call made, in the
    order of the calls; none of them is a page call.  (A call is only
    fulfilled with [proxies] off.) *)
Theorem fetchMore_comments_appends (proxies : bool) (remote : Remote) (fuel : nat)
    (L L' : Listing) (more : More) (n : JsNum) (skip : JsVal) (log log' : list Call) :
  _more L = Some more → _cachedLookahead L = None →
  content_only (items L) = true →
  ListingObj.fetchMore proxies remote fuel L
    (Obj {| amount := VNum n; skipReplies := skip; append := VBool true |}) log
  = (Fulfilled L', log') →
  proxies = false
  ∧ ∃ sent,
      log' = log ++ sent
      ∧ Forall (λ c, is_page c = false) sent
      ∧ items L' = items L ++ answered remote (_transform L) log sent.
Proof.
  intros Hmore Hla Hwf. destruct proxies; [proxied_absurd|].
  split; [reflexivity|].
  destruct fuel as [|fuel]; [discriminate|].
  assert (Hn : n ≠ NaN) by (intros ->; discriminate).
  rewrite fetchMore_number_off in H by exact Hn. cbn zeta in H.
  destruct (decide (VBool true = VUndefined)) as [|_]; [discriminate|].
  destruct (Num.le0 n || isFinished L).
  - cbn [append truthy] in H. rewrite clone_content in H by exact Hwf.
    injection H as <- <-. exists []. rewrite !app_nil_r.
    split; [reflexivity | split; [constructor | reflexivity]].
  - rewrite Hla, Hmore in H. unfold ListingObj._fetchMoreComments in H.
    cbn [skipReplies append truthy] in H.
    destruct (More_fetch_sends remote fuel more n skip 0%nat log) as [(sent0 & Hlog0 & Hsent0) _].
    destruct (MoreObj.fetchMore remote fuel more n skip 0 log) as [[fetched|e|] log1] eqn:Hrun;
      try discriminate.
    destruct (More_fetch_answers remote (_transform L) fuel more n skip 0%nat log fetched log1)
      as [Hans _].
    destruct (Hans Hrun) as (sent & -> & ->).
    rewrite clone_content in H by exact Hwf.
    cbn [ListingObj.set_items _more] in H. rewrite Hmore in H.
    injection H as <- <-. exists sent. split; [reflexivity|]. split; [| reflexivity].
    cbn in Hlog0. apply app_inv_head in Hlog0. subst sent0. exact Hsent0.
Qed.

Lemma fetchMore_comments_appends_witness :
  ∃ L' sent,
    ListingObj.fetchMore false (as_called false Sample.info_echo) 3 Sample.replies
      (Obj {| amount := VNum (Fin 2); skipReplies := VBool true; append := VBool true |}) []
    = (Fulfilled L', [] ++ sent)
    ∧ sent = [InfoCall (MoreObj.info_request ["t1_c1"; "t1_c2"])]
    ∧ items L' = items Sample.replies
                 ++ answered (as_called false Sample.info_echo) Identity [] sent
    ∧ items L' = [Sample.comment "t1_c0"; Sample.comment "t1_c1"; Sample.comment "t1_c2"].
Proof.
  eexists _, _. split; [vm_compute; reflexivity|]. split; [reflexivity|].
  split; [| reflexivity].
  destruct (fetchMore_comments_appends false (as_called false Sample.info_echo) 3 Sample.replies
              _ Sample.pair_stub (Fin 2) (VBool true) []
              [InfoCall (MoreObj.info_request ["t1_c1"; "t1_c2"])]
              eq_refl eq_refl eq_refl eq_refl) as (_ & sent & Hlog & _ & Hitems).
  cbn in Hlog. subst sent. exact Hitems.
Defined.

(** X3. On a Listing that holds content only and has no lookahead, a falsy
    [append] option ([false], [null], [0], the empty string) is the same as
    emptying the Listing first and appending: the same settlement and the same
    requests. *)
Theorem append_false_empties_first (proxies : bool) (remote : Remote) (fuel : nat) (L : Listing)
    (n : JsVal) (skip ap : JsVal) (log : list Call) :
  content_only (items L) = true →
  _cachedLookahead L = None →
  truthy ap = false → ap ≠ VUndefined →
  ListingObj.fetchMore proxies remote fuel L
    (Obj {| amount := n; skipReplies := skip; append := ap |}) log
  = ListingObj.fetchMore proxies remote fuel (ListingObj._empty L)
      (Obj {| amount := n; skipReplies := skip; append := VBool true |}) log.
Proof.
  intros Hwf Hla Hap Hdef. destruct fuel as [|fuel]; [reflexivity|].
  destruct n as [| | b | n | str]; try reflexivity.
  destruct (decide (n = NaN)) as [-> | Hn]; [reflexivity|].
  rewrite !fetchMore_number by exact Hn. cbn zeta. cbn [append amount skipReplies].
  destruct (decide (ap = VUndefined)) as [|_]; [contradiction|].
  destruct (decide (VBool true = VUndefined)) as [|_]; [discriminate|].
  rewrite Hap, isFinished_empty. cbn [truthy].
  rewrite (empty_clone L Hwf).
  destruct (Num.le0 n || isFinished L); [reflexivity|].
  cbn [ListingObj._empty ListingObj.set_items _cachedLookahead _more]. rewrite Hla.
  destruct (_more L) as [more|].
  - unfold ListingObj._fetchMoreComments. cbn [skipReplies append].
    destruct (MoreObj.fetchMore remote fuel more n skip 0 log) as [[fetched|e|] log1];
      try reflexivity.
    rewrite Hap. cbn [truthy].
    fold (ListingObj._empty L). rewrite (empty_clone L Hwf). reflexivity.
  - unfold ListingObj._fetchMoreRegular, ListingObj.merge_page.
    cbn [skipReplies append]. rewrite Hap. cbn [truthy].
    fold (ListingObj._empty L). rewrite (empty_clone L Hwf). reflexivity.
Qed.

Lemma append_false_empties_first_witness :
  ListingObj.fetchMore false Sample.remote 3 Sample.hot
    (Obj {| amount := VNum (Fin 2); skipReplies := VUndefined; append := VBool false |}) []
  = ListingObj.fetchMore false Sample.remote 3 (ListingObj._empty Sample.hot)
      (Obj {| amount := VNum (Fin 2); skipReplies := VUndefined; append := VBool true |}) [].
Proof.
  apply (append_false_empties_first false Sample.remote 3 Sample.hot (VNum (Fin 2)) VUndefined
           (VBool false) []); [reflexivity | reflexivity | reflexivity | discriminate].
Defined.

(** *** Cursors *)

Lemma get_defaultsDeep (object source : gmap string JsVal) (k : string) :
  get (ListingObj.defaultsDeep object source) k
  = if decide (get object k = VUndefined) then get source k else get object k.
Proof.
  unfold get, ListingObj.defaultsDeep. rewrite lookup_union_with.
  destruct (object !! k) as [o|], (source !! k) as [s|]; simpl;
    repeat case_decide; congruence.
Qed.

Lemma get_parsed_query (q : gmap string string) (k : string) :
  get (VStr <$> q) k ≠ VNull.
Proof. unfold get. rewrite lookup_fmap. destruct (q !! k); discriminate. Qed.

Lemma clone_query (L : Listing) : _query (ListingObj._clone L) = _query L.
Proof.
  unfold ListingObj._clone, ListingObj.new_Listing. cbn [items].
  destruct (last (items L)) as [[c|m]|]; reflexivity.
Qed.

Lemma merge_page_one_cursor (L response : Listing) (n : JsNum) (ap : JsVal) :
  one_cursor (ListingObj.merge_page L n ap response).
Proof.
  unfold one_cursor, ListingObj.merge_page, Arr.splice_from.
  destruct (truthy ap); cbn zeta;
    match goal with
    | |- context [truthy (get (_query ?c) "before")] =>
        destruct (truthy (get (_query c) "before"))
    end;
    destruct (_isCommentList L); try destruct (Num.lt_len n _); cbn;
    first [ left; rewrite get_insert_eq; reflexivity
          | right; rewrite get_insert_ne, get_insert_eq by discriminate; reflexivity ].
Qed.

(** X4. [_setUri] leaves a Listing with one direction of pagination: one of
    its two cursors is [null].  [fetchMore] keeps it that way: the Listing it
    is fulfilled with has a [null] cursor whenever the Listing it was called
    on has one. *)
Theorem one_cursor_kept (proxies : bool) (remote : Remote) (parsedUri : ListingObj.ParsedUri) :
  (∀ L, one_cursor (ListingObj._setUri parsedUri L))
  ∧ ∀ fuel L options log L' log',
      one_cursor L →
      ListingObj.fetchMore proxies remote fuel L options log = (Fulfilled L', log') →
      one_cursor L'.
Proof.
  split.
  - intros L. unfold one_cursor, ListingObj._setUri. cbn [_query].
    destruct (truthy (get (VStr <$> ListingObj.query parsedUri) "before"));
      [left | right]; apply get_insert_eq.
  - destruct proxies; [proxied_absurd|].
    induction fuel as [|fuel IH]; intros L options log L' log' Hone; [discriminate|].
    assert (Hobj : ∀ n skip ap,
      ListingObj.fetchMore false remote (S fuel) L
        (Obj {| amount := VNum n; skipReplies := skip; append := ap |}) log
      = (Fulfilled L', log') → one_cursor L').
    { intros n skip ap.
      destruct (decide (n = NaN)) as [-> | Hn]; [discriminate|].
      rewrite fetchMore_number_off by exact Hn. cbn zeta.
      destruct (Num.le0 n || isFinished L).
      { intros [= <- <-]. unfold one_cursor.
        destruct (truthy _); cbn [ListingObj._empty ListingObj.set_items _query];
          rewrite clone_query; exact Hone. }
      destruct (_cachedLookahead L) as [la|].
      { destruct (_cachedLookahead (ListingObj._clone L)) as [lookahead|]; [| discriminate].
        unfold Arr.splice0. cbn zeta.
        destruct (ListingObj.repeats _ _ _); [discriminate|]. apply IH.
        unfold one_cursor. cbn [ListingObj.set_cachedLookahead ListingObj.set_items _query].
        rewrite clone_query. exact Hone. }
      destruct (_more L) as [more|].
      - unfold ListingObj._fetchMoreComments.
        destruct (MoreObj.fetchMore remote fuel more n _ 0 log) as [[fetched|e|] log1];
          try discriminate.
        match goal with
        | |- context [_more ?c] => destruct (_more c) as [m|] eqn:Hm
        end; [| discriminate].
        intros [= <- <-]. unfold one_cursor.
        cbn [ListingObj.set_more ListingObj.set_items _query].
        destruct (truthy _); cbn [ListingObj._empty ListingObj.set_items _query];
          rewrite clone_query; exact Hone.
      - unfold ListingObj._fetchMoreRegular.
        destruct (page remote log _ _) as [response|e]; [| discriminate].
        apply IH, merge_page_one_cursor. }
    destruct options as [v|o].
    + destruct v as [| | b | n | str]; try discriminate.
      rewrite fetchMore_bare. apply Hobj.
    + destruct o as [am skip ap].
      destruct am as [| | b | n | str]; try discriminate. apply Hobj.
Qed.

Lemma one_cursor_kept_witness :
  one_cursor
    (ListingObj.merge_page Sample.hot (Fin 1) (VBool true) Sample.last_page).
Proof.
  destruct (one_cursor_kept false Sample.remote
              {| ListingObj.pathname := Some "/hot"; ListingObj.query := ∅ |}) as [_ H].
  apply (H 3%nat Sample.hot (Sample.opts 1) [] _
           [PageCall false (Fin 1) (ListingObj.page_request Sample.hot (Fin 1))]).
  - right. reflexivity.
  - reflexivity.
Defined.

(** X5. A regular Listing that has just been given its URI is finished
    exactly when the URI has no path, or the cursor in the direction of travel
    is [null] in the Listing's own query: [before] when the URI carries a
    non-empty [before] parameter, [after] otherwise.  A cursor in the URI
    never makes up for a [null] of the Listing, and never counts as [null]. *)
Theorem setUri_finished (parsedUri : ListingObj.ParsedUri) (L : Listing) :
  _isCommentList L = false →
  isFinished (ListingObj._setUri parsedUri L) = true
  ↔ truthy_str (ListingObj.pathname parsedUri) = false
    ∨ (if truthy (get (VStr <$> ListingObj.query parsedUri) "before")
       then get (_query L) "before" = VNull
       else get (_query L) "after" = VNull).
Proof.
  intros Hreg. unfold isFinished, ListingObj._setUri. cbn [_isCommentList _uri _query].
  rewrite Hreg.
  assert (Hcur : ∀ k,
    get (ListingObj.defaultsDeep (_query L) (VStr <$> ListingObj.query parsedUri)) k = VNull
    ↔ get (_query L) k = VNull).
  { intros k. rewrite get_defaultsDeep. case_decide as Hk.
    - split; intros H; [| congruence]. exfalso. exact (get_parsed_query _ _ H).
    - reflexivity. }
  rewrite orb_true_iff, negb_true_iff, andb_true_iff, !bool_decide_eq_true.
  destruct (truthy (get (VStr <$> ListingObj.query parsedUri) "before")).
  - rewrite get_insert_eq, get_insert_ne, Hcur by discriminate. tauto.
  - rewrite get_insert_eq, get_insert_ne, Hcur by discriminate. tauto.
Qed.

Lemma setUri_finished_witness :
  isFinished
    (ListingObj._setUri
       {| ListingObj.pathname := Some "/hot"; ListingObj.query := {[ "after" := "t3_c" ]} |}
       Sample.last_page) = true.
Proof.
  apply (setUri_finished
           {| ListingObj.pathname := Some "/hot"; ListingObj.query := {[ "after" := "t3_c" ]} |}
           Sample.last_page); [reflexivity|].
  right. reflexivity.
Defined.

(** *** How far a call fetches *)

(** The clone a page is merged into, for a Listing that holds content only. *)
Lemma merge_page_fields (L response : Listing) (n : JsNum) (ap : JsVal) :
  content_only (items L) = true →
  let merged := ListingObj.merge_page L n ap response in
  _isCommentList merged = _isCommentList L
  ∧ (_isCommentList L = false →
     _more merged = _more L ∧ _cachedLookahead merged = _cachedLookahead L
     ∧ length (items merged)
       = ((if truthy ap then length (items L) else 0) + length (items response))%nat)
  ∧ (_isCommentList L = true → _more merged ≠ None)
  ∧ (Num.lt_len n (length (items response)) = false →
     _cachedLookahead merged = _cachedLookahead L)
  ∧ (content_only (items response) = true → content_only (items merged) = true).
Proof.
  intros Hwf merged. subst merged. unfold ListingObj.merge_page, Arr.splice_from.
  rewrite clone_content by exact Hwf.
  assert (Hwf' : content_only (items (if truthy ap then L else ListingObj._empty L)) = true)
    by (destruct (truthy ap); [exact Hwf | reflexivity]).
  assert (Hlen : length (items (if truthy ap then L else ListingObj._empty L))
                 = if truthy ap then length (items L) else 0%nat)
    by (destruct (truthy ap); reflexivity).
  assert (Hsame : ∀ c : Listing, c = (if truthy ap then L else ListingObj._empty L) →
            _isCommentList c = _isCommentList L ∧ _more c = _more L
            ∧ _cachedLookahead c = _cachedLookahead L)
    by (intros c ->; destruct (truthy ap); repeat split).
  remember (if truthy ap then L else ListingObj._empty L) as c eqn:Hc.
  destruct (Hsame c eq_refl) as (Hi & Hm & Hl). clear Hsame Hc. cbn zeta.
  destruct (truthy (get (_query c) "before")), (_isCommentList L) eqn:Hcom;
    try destruct (Num.lt_len n (length (items response))) eqn:Hlt;
    cbn; rewrite ?Hi, ?Hm, ?Hl;
    repeat split; try congruence; try discriminate;
    try (rewrite length_app, Hlen; lia);
    try (intros _; destruct (_more L), (_more response); discriminate);
    try (intros Hr; rewrite ?content_only_app, ?Hr, ?Hwf'; reflexivity);
    try (intros Hr; apply content_only_take; rewrite content_only_app, ?Hr, ?Hwf';
         reflexivity).
Qed.

Lemma fetchMore_all_finished (proxies : bool) (remote : Remote) (L' : Listing) (log' : list Call) :
  (∀ log req t resp, page remote log req t = Resolved resp →
     content_only (items resp) = true) →
  ∀ fuel L skip ap log,
    content_only (items L) = true →
    (∀ la, _cachedLookahead L = Some la → content_only la = true) →
    (_more L ≠ None → _isCommentList L = true) →
    ListingObj.fetchMore proxies remote fuel L
      (Obj {| amount := VNum PosInf; skipReplies := skip; append := ap |}) log
    = (Fulfilled L', log') →
    isFinished L' = true.
Proof.
  intros Hpages. destruct proxies; [proxied_absurd|].
  induction fuel as [|fuel IH]; intros L skip ap log Hwf Hla Hinv; [discriminate|].
  rewrite fetchMore_number_off by discriminate. cbn zeta. cbn [Num.le0 orb].
  destruct (isFinished L) eqn:Hfin.
  { intros [= <- <-]. rewrite clone_content by exact Hwf.
    destruct (truthy _); [exact Hfin | rewrite isFinished_empty; exact Hfin]. }
  destruct (_cachedLookahead L) as [la|] eqn:Ela.
  { rewrite clone_content by exact Hwf. rewrite Ela.
    unfold Arr.splice0. cbn zeta.
    destruct (ListingObj.repeats _ _ _); [discriminate|].
    cbn [Num.sub Num.add]. rewrite fetchMore_bare.
    apply IH.
    - cbn. rewrite content_only_app, Hwf. apply content_only_take, Hla. reflexivity.
    - cbn. intros la' [= <-]. apply content_only_drop, Hla. reflexivity.
    - exact Hinv. }
  destruct (_more L) as [more|] eqn:Emore.
  - unfold ListingObj._fetchMoreComments.
    destruct (MoreObj.fetchMore remote fuel more PosInf _ 0 log) as [[fetched|e|] log1];
      try discriminate.
    rewrite clone_content by exact Hwf.
    assert (Hm : ∀ c : Listing, c = (if truthy (append {| amount := VNum PosInf;
                   skipReplies := skip;
                   append := if decide (ap = VUndefined) then VBool true else ap |})
                 then L else ListingObj._empty L) →
              _more c = Some more ∧ _isCommentList c = true ∧ _cachedLookahead c = None).
    { intros c ->. destruct (truthy _); cbn; rewrite ?Emore, ?Ela;
        repeat split; apply Hinv; discriminate. }
    match goal with
    | |- context [ListingObj.set_items (items ?c ++ fetched) ?c] =>
        destruct (Hm c eq_refl) as (Hm1 & Hm2 & Hm3); clear Hm;
        remember c as cl eqn:Hcl; clear Hcl
    end.
    cbn [ListingObj.set_items _more]. rewrite Hm1. intros [= <- <-].
    unfold isFinished. cbn. rewrite Hm2, Hm3. cbn.
    unfold Arr.slice_from. cbn [Num.index]. rewrite drop_all. reflexivity.
  - unfold ListingObj._fetchMoreRegular.
    destruct (page remote log _ _) as [response|e] eqn:Hp; [| discriminate].
    cbn [Num.sub skipReplies append].
    destruct (merge_page_fields L response PosInf
                (if decide (ap = VUndefined) then VBool true else ap) Hwf)
      as (Hi & Hreg & Hcom & Hkeep & Hcontent).
    apply IH.
    + apply Hcontent, (Hpages _ _ _ _ Hp).
    + rewrite Hkeep, Ela by reflexivity. discriminate.
    + intros Hsome. rewrite Hi. destruct (_isCommentList L) eqn:Ec; [reflexivity|].
      destruct (Hreg eq_refl) as (Hm & _). rewrite Hm, Emore in Hsome. congruence.
Qed.

(** X6. [fetchAll] does not stop halfway.  On a Listing that holds content
    only (in its items and its lookahead), whose stub, if it has one, makes it
    a comment Listing, and against pages that hold content only: whenever
    [fetchAll] is fulfilled, the Listing it is fulfilled with is finished. *)
Theorem fetchAll_fulfilled_finished (proxies : bool) (remote : Remote) (fuel : nat) (L : Listing)
    (options : Arg) (log : list Call) (L' : Listing) (log' : list Call) :
  (∀ log req t resp, page remote log req t = Resolved resp →
     content_only (items resp) = true) →
  content_only (items L) = true →
  (∀ la, _cachedLookahead L = Some la → content_only la = true) →
  (_more L ≠ None → _isCommentList L = true) →
  ListingObj.fetchAll proxies remote fuel L options log = (Fulfilled L', log') →
  isFinished L' = true.
Proof.
  intros Hpages HwfL HwfLa Hinv Hrun. unfold ListingObj.fetchAll in Hrun.
  destruct options as [v|o];
    eapply (fetchMore_all_finished proxies remote L' log' Hpages); eauto.
Qed.

Lemma fetchAll_fulfilled_finished_witness :
  ∃ L' log',
    ListingObj.fetchAll false Sample.remote 3 Sample.hot (Bare VUndefined) [] = (Fulfilled L', log')
    ∧ isFinished L' = true.
Proof.
  do 2 eexists. split; [vm_compute; reflexivity|].
  assert (Hpages : ∀ log req t resp, page Sample.remote log req t = Resolved resp →
                     content_only (items resp) = true)
    by (intros log req t resp [= <-]; reflexivity).
  apply (fetchAll_fulfilled_finished false Sample.remote 3 Sample.hot (Bare VUndefined) [] _
           [PageCall false PosInf (ListingObj.page_request Sample.hot PosInf)] Hpages).
  - reflexivity.
  - intros la [=].
  - intros H. contradiction H. reflexivity.
  - reflexivity.
Defined.

(** X7. A regular Listing (no stub, no lookahead, content only) asked for
    [a] items, against pages that each bring at least one item, settles after
    at most [a] page requests: every round asks for what is still missing and
    takes at least one item off that.  Fuel above [a] is enough, whatever the
    pages hold. *)
Theorem fetchMore_regular_settles (proxies : bool) (remote : Remote) :
  (∀ log req t resp, page remote log req t = Resolved resp →
     items resp ≠ [] ∧ content_only (items resp) = true) →
  ∀ (fuel : nat) (a : Z) (L : Listing) (skip ap : JsVal) (log : list Call),
    _isCommentList L = false → _more L = None → _cachedLookahead L = None →
    content_only (items L) = true →
    Z.max a 0 < Z.of_nat fuel →
    ∃ out sent,
      ListingObj.fetchMore proxies remote fuel L
        (Obj {| amount := VNum (Fin a); skipReplies := skip; append := ap |}) log
      = (out, log ++ sent)
      ∧ out ≠ Pending
      ∧ Z.of_nat (length sent) ≤ Z.max a 0
      ∧ Forall (λ c, is_page c = true) sent.
Proof.
  intros Hpages.
  induction fuel as [|fuel IH]; intros a L skip ap log Hreg Hmore Hla Hwf Hfuel; [lia|].
  rewrite fetchMore_number by discriminate. cbn zeta.
  destruct (Num.le0 (Fin a) || isFinished L) eqn:Hstop.
  { rewrite promiseWrap_eq. eexists _, []. rewrite app_nil_r.
    repeat split; [destruct proxies; discriminate | simpl; lia | constructor]. }
  apply orb_false_iff in Hstop as [Hpos _]. cbn in Hpos. apply Z.leb_gt in Hpos.
  rewrite Hla, Hmore. unfold ListingObj._fetchMoreRegular.
  destruct (page remote log _ _) as [response|e] eqn:Hp.
  - destruct (Hpages _ _ _ _ Hp) as [Hne Hwfr].
    destruct (merge_page_fields L response (Fin a)
                (if decide (ap = VUndefined) then VBool true else ap) Hwf)
      as (Hi & Hfields & _ & _ & Hcontent).
    destruct (Hfields Hreg) as (Hm & Hl & _).
    assert (Hk : (0 < length (items response))%nat)
      by (destruct (items response); [congruence | simpl; lia]).
    cbn [Num.sub skipReplies append].
    edestruct (IH (a - Z.of_nat (length (items response)))
                 (ListingObj.merge_page L (Fin a)
                    (if decide (ap = VUndefined) then VBool true else ap) response)
                 skip (VBool true)
                 (log ++ [PageCall (_isCommentList L) (Fin a)
                            (ListingObj.page_request L (Fin a))]))
      as (out & sent & Hrun & Hout & Hlen & Hall);
      try congruence; [apply Hcontent, Hwfr | lia |].
    rewrite Hrun, promiseWrap_eq.
    eexists _, (PageCall (_isCommentList L) (Fin a)
                  (ListingObj.page_request L (Fin a)) :: sent).
    rewrite <- app_assoc. repeat split; try assumption.
    + destruct proxies; [destruct out; congruence | assumption].
    + cbn [length]. lia.
    + constructor; [reflexivity | exact Hall].
  - rewrite promiseWrap_eq. eexists _, [_].
    repeat split; [destruct proxies; discriminate | simpl; lia | repeat constructor].
Qed.

Lemma fetchMore_regular_settles_witness :
  ∃ out sent,
    ListingObj.fetchMore false Sample.remote 3 Sample.hot
      (Obj {| amount := VNum (Fin 2); skipReplies := VUndefined; append := VUndefined |}) []
    = (out, [] ++ sent)
    ∧ out ≠ Pending
    ∧ Z.of_nat (length sent) ≤ Z.max 2 0
    ∧ Forall (λ c, is_page c = true) sent.
Proof.
  apply (fetchMore_regular_settles false Sample.remote); try reflexivity.
  intros log req t resp [= <-]. split; [discriminate | reflexivity].
Defined.

Lemma fetchMore_regular_enough_aux (proxies : bool) (remote : Remote) (L' : Listing) (log' : list Call) :
  (∀ log req t resp, page remote log req t = Resolved resp →
     content_only (items resp) = true) →
  ∀ (fuel : nat) (a : Z) (L : Listing) (skip : JsVal) (log : list Call),
    _isCommentList L = false → _more L = None → _cachedLookahead L = None →
    content_only (items L) = true →
    ListingObj.fetchMore proxies remote fuel L
      (Obj {| amount := VNum (Fin a); skipReplies := skip; append := VBool true |}) log
    = (Fulfilled L', log') →
    isFinished L' = true
    ∨ Z.of_nat (length (items L)) + a ≤ Z.of_nat (length (items L')).
Proof.
  intros Hpages. destruct proxies; [proxied_absurd|].
  induction fuel as [|fuel IH]; intros a L skip log Hreg Hmore Hla Hwf; [discriminate|].
  rewrite fetchMore_number_off by discriminate. cbn zeta.
  destruct (decide (VBool true = VUndefined)) as [|_]; [discriminate|].
  destruct (Num.le0 (Fin a)) eqn:Hpos; cbn [orb].
  { intros [= <- <-]. rewrite clone_content by exact Hwf. cbn [append truthy].
    right. cbn in Hpos. apply Z.leb_le in Hpos. lia. }
  destruct (isFinished L) eqn:Hfin.
  { intros [= <- <-]. rewrite clone_content by exact Hwf. cbn [append truthy].
    left. exact Hfin. }
  rewrite Hla, Hmore. unfold ListingObj._fetchMoreRegular.
  destruct (page remote log _ _) as [response|e] eqn:Hp; [| discriminate].
  destruct (merge_page_fields L response (Fin a) (VBool true) Hwf)
    as (Hi & Hfields & _ & _ & Hcontent).
  destruct (Hfields Hreg) as (Hm & Hl & Hlen).
  cbn [Num.sub skipReplies append]. intros Hrun.
  apply IH in Hrun; try congruence; [| apply Hcontent, (Hpages _ _ _ _ Hp)].
  destruct Hrun as [Hdone | Hmany]; [left; exact Hdone | right].
  rewrite Hlen in Hmany. cbn [truthy] in Hmany. lia.
Qed.

(** X8. A regular Listing (no stub, no lookahead, content only) asked for [a]
    more items with [append: true] or with the bare number, against pages that
    hold content only: whenever the call is fulfilled, the new Listing is
    finished or holds at least [a] items more than the original. *)
Theorem fetchMore_regular_enough (proxies : bool) (remote : Remote) (fuel : nat) (a : Z) (L L' : Listing)
    (skip : JsVal) (options : Arg) (log log' : list Call) :
  (∀ log req t resp, page remote log req t = Resolved resp →
     content_only (items resp) = true) →
  _isCommentList L = false → _more L = None → _cachedLookahead L = None →
  content_only (items L) = true →
  options = Bare (VNum (Fin a))
  ∨ options = Obj {| amount := VNum (Fin a); skipReplies := skip; append := VBool true |} →
  ListingObj.fetchMore proxies remote fuel L options log = (Fulfilled L', log') →
  isFinished L' = true
  ∨ Z.of_nat (length (items L)) + a ≤ Z.of_nat (length (items L')).
Proof.
  intros Hpages Hreg Hmore Hla Hwf [-> | ->] Hrun.
  - rewrite fetchMore_bare in Hrun.
    eapply (fetchMore_regular_enough_aux proxies remote L' log' Hpages); eauto.
  - eapply (fetchMore_regular_enough_aux proxies remote L' log' Hpages); eauto.
Qed.

Lemma fetchMore_regular_enough_witness :
  ∃ L' log',
    ListingObj.fetchMore false Sample.remote 3 Sample.hot (Bare (VNum (Fin 2))) []
    = (Fulfilled L', log')
    ∧ (isFinished L' = true
       ∨ Z.of_nat (length (items Sample.hot)) + 2 ≤ Z.of_nat (length (items L'))).
Proof.
  do 2 eexists. split; [vm_compute; reflexivity|].
  assert (Hpages : ∀ log req t resp, page Sample.remote log req t = Resolved resp →
                     content_only (items resp) = true)
    by (intros log req t resp [= <-]; reflexivity).
  apply (fetchMore_regular_enough false Sample.remote 3 2 Sample.hot _ VUndefined
           (Bare (VNum (Fin 2))) []
           [PageCall false (Fin 2) (ListingObj.page_request Sample.hot (Fin 2))] Hpages);
    try reflexivity.
  left. reflexivity.
Defined.

(** * Further properties of More.ts *)

(** The slice [getNextIdSlice] cuts, for a positive amount and a start index
    inside the array. *)
Lemma getNextIdSlice_take (children : list string) (start : nat) (amount : JsNum)
    (limit : Z) :
  0 < limit → amount ≠ NaN → Num.le0 amount = false →
  (start < length children)%nat →
  MoreObj.getNextIdSlice children start amount limit
  = take (Nat.min (Num.count amount (length children - start)) (Z.to_nat limit))
         (drop start children)
  ∧ (Num.integral amount = true →
     (0 < Nat.min (Num.count amount (length children - start)) (Z.to_nat limit))%nat).
Proof.
  intros Hlim Hnan Hpos Hs. unfold MoreObj.getNextIdSlice, Arr.slice.
  rewrite (Nat.min_l start) by lia.
  destruct amount as [a|a f| | |]; try congruence; try discriminate; cbn in Hpos.
  - apply Z.leb_gt in Hpos. cbn [Num.min Num.add Num.index Num.count].
    destruct (Z.min a limit + Z.of_nat start <? 0) eqn:E; [apply Z.ltb_lt in E; lia|].
    split; [f_equal|]; lia.
  - apply Z.ltb_ge in Hpos. split; [| discriminate].
    cbn [Num.min Num.count]. unfold Num.trunc.
    destruct (a <? 0) eqn:Ea; [apply Z.ltb_lt in Ea; lia|].
    destruct (a <? limit) eqn:El; cbn [Num.add Num.index]; unfold Num.trunc.
    + apply Z.ltb_lt in El.
      destruct (a + Z.of_nat start <? 0) eqn:E; [apply Z.ltb_lt in E; lia|]. rewrite E.
      f_equal. lia.
    + apply Z.ltb_ge in El.
      destruct (limit + Z.of_nat start <? 0) eqn:E; [apply Z.ltb_lt in E; lia|].
      f_equal. lia.
  - cbn [Num.min Num.add Num.index Num.count].
    destruct (limit + Z.of_nat start <? 0) eqn:E; [apply Z.ltb_lt in E; lia|].
    split; [f_equal|]; lia.
Qed.

Lemma sub_not_NaN (amount : JsNum) (k : nat) : amount ≠ NaN → Num.sub amount k ≠ NaN.
Proof. destruct amount; simpl; congruence. Qed.

Lemma sub_integral (amount : JsNum) (k : nat) :
  Num.integral amount = true → Num.integral (Num.sub amount k) = true.
Proof. destruct amount; simpl; congruence. Qed.

Lemma integral_not_NaN (amount : JsNum) : Num.integral amount = true → amount ≠ NaN.
Proof. intros H ->. discriminate. Qed.

Lemma batch_ok_info (this : More) (start : nat) (amount : JsNum) :
  Num.integral amount = true → Num.le0 amount = false →
  (start < length (children this))%nat →
  batch_ok this
    (InfoCall (MoreObj.info_request
                 (map (String.append "t1_")
                      (MoreObj.getNextIdSlice (children this) start amount
                                              MAX_API_INFO_AMOUNT)))).
Proof.
  intros Hint Hpos Hs.
  assert (Hnan : amount ≠ NaN) by (intros ->; discriminate).
  destruct (getNextIdSlice_take (children this) start amount MAX_API_INFO_AMOUNT)
    as [Hids Hk]; try assumption; [reflexivity|]. specialize (Hk Hint).
  assert (Hlen : length (MoreObj.getNextIdSlice (children this) start amount
                                                MAX_API_INFO_AMOUNT)
                 = Nat.min (Num.count amount (length (children this) - start))
                           (Z.to_nat MAX_API_INFO_AMOUNT)).
  { rewrite Hids, length_take, length_drop.
    assert ((Num.count amount (length (children this) - start)
             ≤ length (children this) - start)%nat)
      by (destruct amount; simpl; lia).
    lia. }
  exists start, (MoreObj.getNextIdSlice (children this) start amount MAX_API_INFO_AMOUNT).
  split; [| split].
  - intros H. rewrite H in Hlen. simpl in Hlen. lia.
  - rewrite Hlen. exact Hids.
  - left. split; [reflexivity|]. rewrite Hlen. change (Z.to_nat MAX_API_INFO_AMOUNT) with 100%nat.
    lia.
Qed.

Lemma batch_ok_tree (this : More) (start : nat) (amount : JsNum) :
  Num.integral amount = true → Num.le0 amount = false →
  (start < length (children this))%nat →
  batch_ok this
    (TreeCall (MoreObj.tree_request this
                 (MoreObj.getNextIdSlice (children this) start amount
                                         MAX_API_MORECHILDREN_AMOUNT))).
Proof.
  intros Hint Hpos Hs.
  assert (Hnan : amount ≠ NaN) by (intros ->; discriminate).
  destruct (getNextIdSlice_take (children this) start amount MAX_API_MORECHILDREN_AMOUNT)
    as [Hids Hk]; try assumption; [reflexivity|]. specialize (Hk Hint).
  assert (Hlen : length (MoreObj.getNextIdSlice (children this) start amount
                                                MAX_API_MORECHILDREN_AMOUNT)
                 = Nat.min (Num.count amount (length (children this) - start))
                           (Z.to_nat MAX_API_MORECHILDREN_AMOUNT)).
  { rewrite Hids, length_take, length_drop.
    assert ((Num.count amount (length (children this) - start)
             ≤ length (children this) - start)%nat)
      by (destruct amount; simpl; lia).
    lia. }
  exists start,
    (MoreObj.getNextIdSlice (children this) start amount MAX_API_MORECHILDREN_AMOUNT).
  split; [| split].
  - intros H. rewrite H in Hlen. simpl in Hlen. lia.
  - rewrite Hlen. exact Hids.
  - right. split; [reflexivity|]. rewrite Hlen.
    change (Z.to_nat MAX_API_MORECHILDREN_AMOUNT) with 20%nat. lia.
Qed.

(** X9. Whatever amount a More stub is asked for, as long as it is an integer
    or infinite, whatever the remote side answers and in either mode, every
    request it sends asks for a non-empty run of consecutive children of the
    stub: at most 100 of them (as [t1_] fullnames) in a request to
    [api/info], at most 20 in a request to [api/morechildren]. *)
Theorem More_requests_capped (remote : Remote) (fuel : nat) (this : More)
    (amount : JsNum) (skip : JsVal) (start : nat) (log : list Call) :
  Num.integral amount = true →
  extends (batch_ok this) log (MoreObj.fetchMore remote fuel this amount skip start log).2
  ∧ extends (batch_ok this) log (MoreObj.fetchTree remote fuel this amount skip start log).2.
Proof.
  revert amount start log.
  induction fuel as [|fuel IH]; intros amount start log Hint.
  - split; apply extends_refl.
  - assert (Htree : extends (batch_ok this) log
              (MoreObj.fetchTree remote (S fuel) this amount skip start log).2).
    { simpl. destruct (Num.le0 amount || (length (children this) <=? start)%nat) eqn:Hstop;
        [apply extends_refl|].
      apply orb_false_iff in Hstop as [Hpos Hlt]. apply Nat.leb_gt in Hlt.
      pose proof (extends_one (batch_ok this) log _
                    (batch_ok_tree this start amount Hint Hpos Hlt)) as H1.
      set (ids := MoreObj.getNextIdSlice _ _ _ _) in *.
      destruct (morechildren remote log _) as [things|e]; [| exact H1].
      destruct (MoreObj.resolve_things things) as [trees|e|]; try exact H1.
      destruct (IH (Num.sub amount (length ids)) (start + length ids)%nat
                   (log ++ [TreeCall (MoreObj.tree_request this ids)])
                   (sub_integral _ _ Hint)) as [H2 _].
      destruct (MoreObj.fetchMore remote fuel this _ skip _ _) as [r log2].
      simpl in H2. destruct r; simpl; eapply extends_trans; eauto. }
    split; [| exact Htree].
    simpl. destruct (Num.le0 amount || (length (children this) <=? start)%nat) eqn:Hstop;
      [apply extends_refl|].
    apply orb_false_iff in Hstop as [Hpos Hlt]. apply Nat.leb_gt in Hlt.
    destruct (negb (truthy skip)).
    + destruct (IH amount start log Hint) as [_ H]. exact H.
    + pose proof (extends_one (batch_ok this) log _
                    (batch_ok_info this start amount Hint Hpos Hlt)) as H1.
      set (ids := map _ _) in *.
      destruct (IH (Num.sub amount (length ids)) (start + length ids)%nat
                   (log ++ [InfoCall (MoreObj.info_request ids)])
                   (sub_integral _ _ Hint)) as [H2 _].
      destruct (MoreObj.fetchMore remote fuel this _ skip _ _) as [r log2].
      simpl in *. eapply extends_trans; eauto.
Qed.

Lemma More_requests_capped_witness :
  extends (batch_ok Sample.stub) []
    (MoreObj.fetchMore Sample.info_remote 5 Sample.stub PosInf (VBool true) 0 []).2
  ∧ extends (batch_ok Sample.stub) []
      (MoreObj.fetchTree Sample.info_remote 5 Sample.stub PosInf (VBool true) 0 []).2.
Proof.
  apply (More_requests_capped Sample.info_remote 5 Sample.stub PosInf (VBool true) 0 []).
  reflexivity.
Defined.

Lemma count_le (amount : JsNum) (len : nat) : (Num.count amount len ≤ len)%nat.
Proof. destruct amount; simpl; lia. Qed.

Lemma count_sub (amount : JsNum) (len k : nat) :
  (k ≤ Num.count amount len)%nat →
  Num.count (Num.sub amount k) (len - k) = (Num.count amount len - k)%nat.
Proof.
  destruct amount as [a|a f| | |]; simpl; try lia.
  unfold Num.trunc.
  destruct (a <? 0) eqn:E, (a - Z.of_nat k <? 0) eqn:E';
    try apply Z.ltb_lt in E; try apply Z.ltb_ge in E;
    try apply Z.ltb_lt in E'; try apply Z.ltb_ge in E'; lia.
Qed.

(** An amount that is above 0 and takes nothing off a list that has
    something is a fraction below 1. *)
Lemma count_zero (amount : JsNum) (len : nat) :
  amount ≠ NaN → Num.le0 amount = false → (0 < len)%nat →
  Num.count amount len = 0%nat → ∃ f, amount = Frac 0 f.
Proof.
  intros Hnan Hpos Hlen Hc.
  destruct amount as [a|a f| | |]; cbn in Hpos, Hc; try congruence; try lia.
  unfold Num.trunc in Hc. rewrite Hpos in Hc. exists f. f_equal. lia.
Qed.

Lemma all_flatten_settles (a : Response (list Item)) (b : Settled (list Item)) :
  b ≠ Pending → MoreObj.all_flatten (settle a) b ≠ Pending.
Proof. destruct a, b; simpl; congruence. Qed.

Lemma all_flatten_fulfilled (a b : Settled (list Item)) (x : list Item) :
  MoreObj.all_flatten a b = Fulfilled x →
  ∃ u v, a = Fulfilled u ∧ b = Fulfilled v ∧ x = u ++ v.
Proof.
  destruct a as [u|e|], b as [v|e'|]; simpl; intros H; try discriminate.
  injection H as <-. eauto.
Qed.

Lemma count_stop (amount : JsNum) (len : nat) :
  Num.le0 amount = true → Num.count amount len = 0%nat.
Proof.
  destruct amount as [a|a f| | |]; cbn; unfold Num.trunc; intros H;
    try discriminate; try reflexivity; [lia|].
  rewrite H. lia.
Qed.

(** The batch that [getNextIdSlice] cuts for [api/info], and how what is
    wanted from [start] on splits into that batch and what is wanted after
    it. *)
Lemma wanted_step (children : list string) (start : nat) (amount : JsNum) :
  amount ≠ NaN → Num.le0 amount = false → (start < length children)%nat →
  let c := Num.count amount (length children - start) in
  let k := Nat.min c 100 in
  let ids := take k (drop start children) in
  MoreObj.getNextIdSlice children start amount MAX_API_INFO_AMOUNT = ids
  ∧ length ids = k
  ∧ ((0 < k)%nat →
     chunks 100 (map (String.append "t1_") (take c (drop start children)))
     = map (String.append "t1_") ids
       :: chunks 100 (map (String.append "t1_")
                          (take (Num.count (Num.sub amount k)
                                   (length children - (start + k)))
                                (drop (start + k) children)))).
Proof.
  intros Hnan Hpos Hs c k ids.
  destruct (getNextIdSlice_take children start amount MAX_API_INFO_AMOUNT)
    as [Hids _]; try assumption; [reflexivity|].
  change (Z.to_nat MAX_API_INFO_AMOUNT) with 100%nat in *. fold c in Hids. fold k in Hids.
  pose proof (count_le amount (length children - start)) as Hc. fold c in Hc.
  split; [exact Hids|].
  assert (Hlen : length ids = k)
    by (subst ids; rewrite length_take, length_drop; lia).
  split; [exact Hlen|]. intros Hk.
  set (wanted := take c (drop start children)).
  assert (Hlenw : length wanted = c)
    by (subst wanted; rewrite length_take, length_drop; lia).
  assert (Hne : map (String.append "t1_") wanted ≠ []).
  { intros H. apply (f_equal length) in H. rewrite length_map, Hlenw in H.
    simpl in H. lia. }
  rewrite (chunks_cons 100 (map (String.append "t1_") wanted)) by (try lia; exact Hne).
  f_equal.
  - rewrite firstn_map. f_equal. subst wanted ids. rewrite take_take. f_equal. lia.
  - f_equal. rewrite skipn_map. f_equal.
    replace (length children - (start + k))%nat
      with (length children - start - k)%nat by lia.
    assert (Hkc : (k ≤ c)%nat) by (unfold k; lia).
    rewrite count_sub by exact Hkc. fold c.
    destruct (le_lt_dec c 100) as [Hsmall|Hbig].
    + replace (c - k)%nat with 0%nat by (unfold k; lia).
      rewrite (drop_ge wanted 100%nat) by lia. reflexivity.
    + replace k with 100%nat by (unfold k; lia). subst wanted.
      rewrite skipn_firstn_comm, drop_drop. reflexivity.
Qed.

(** The requests of a stub in the [skipReplies] mode do not depend on the
    answers. *)
Lemma fetchMore_flat_sends (remote : Remote) (this : More) (skip : JsVal) :
  truthy skip = true →
  ∀ fuel start amount log,
    Num.integral amount = true →
    (length (children this) - start < fuel)%nat →
    let wanted := take (Num.count amount (length (children this) - start))
                       (drop start (children this)) in
    ∃ out,
      MoreObj.fetchMore remote fuel this amount skip start log
      = (out, log ++ map (λ b, InfoCall (MoreObj.info_request b))
                         (chunks 100 (map (String.append "t1_") wanted)))
      ∧ out ≠ Pending.
Proof.
  intros Hskip. induction fuel as [|fuel IH]; intros start amount log Hint Hfuel wanted;
    [lia|].
  pose proof (integral_not_NaN amount Hint) as Hnan.
  cbn [MoreObj.fetchMore].
  destruct (Num.le0 amount || (length (children this) <=? start)%nat) eqn:Hstop.
  - assert (Hnil : wanted = []).
    { subst wanted. apply orb_true_iff in Hstop as [H|H].
      - rewrite count_stop by exact H. reflexivity.
      - apply Nat.leb_le in H. rewrite drop_ge by exact H. apply take_nil. }
    rewrite Hnil. simpl. rewrite app_nil_r. eexists. split; [reflexivity | discriminate].
  - apply orb_false_iff in Hstop as [Hpos Hlt]. apply Nat.leb_gt in Hlt.
    rewrite Hskip. cbn [negb].
    destruct (wanted_step (children this) start amount Hnan Hpos Hlt)
      as (Hids & Hlen & Hstep).
    destruct (getNextIdSlice_take (children this) start amount MAX_API_INFO_AMOUNT)
      as [_ Hk]; try assumption; [reflexivity|]. specialize (Hk Hint).
    change (Z.to_nat MAX_API_INFO_AMOUNT) with 100%nat in *.
    rewrite Hids, length_map, Hlen. subst wanted. rewrite (Hstep Hk).
    destruct (IH (start + Nat.min (Num.count amount (length (children this) - start)) 100)%nat
                 (Num.sub amount
                    (Nat.min (Num.count amount (length (children this) - start)) 100))
                 (log ++ [InfoCall (MoreObj.info_request
                     (map (String.append "t1_")
                        (take (Nat.min (Num.count amount (length (children this) - start)) 100)
                              (drop start (children this)))))])
                 (sub_integral _ _ Hint) ltac:(lia)) as (out & Hrun & Hout).
    cbn zeta in Hrun. rewrite Hrun.
    eexists. split.
    + f_equal. cbn [map]. rewrite <- app_assoc. reflexivity.
    + apply all_flatten_settles, Hout.
Qed.

(** An amount between 0 and 1 makes the stub ask for no child at all, again
    and again: the call is never fulfilled. *)
Lemma fetchMore_flat_stuck (remote : Remote) (this : More) (skip : JsVal) (f : positive)
    (start : nat) :
  truthy skip = true → (start < length (children this))%nat →
  ∀ fuel log fetched log',
    MoreObj.fetchMore remote fuel this (Frac 0 f) skip start log ≠ (Fulfilled fetched, log').
Proof.
  intros Hskip Hs. induction fuel as [|fuel IH]; intros log fetched log'; [discriminate|].
  cbn [MoreObj.fetchMore Num.le0]. change (0 <? 0) with false. cbn [orb].
  destruct (length (children this) <=? start)%nat eqn:E; [apply Nat.leb_le in E; lia|].
  rewrite Hskip. cbn [negb].
  assert (Hids : MoreObj.getNextIdSlice (children this) start (Frac 0 f) MAX_API_INFO_AMOUNT
                 = []).
  { destruct (wanted_step (children this) start (Frac 0 f)) as (H & _);
      [discriminate | reflexivity | exact Hs |].
    rewrite H. reflexivity. }
  rewrite Hids. cbn [map length]. rewrite Nat.add_0_r.
  change (Num.sub (Frac 0 f) 0) with (Frac 0 f).
  match goal with
  | |- context [MoreObj.fetchMore remote fuel this (Frac 0 f) skip start ?lg] =>
      destruct (MoreObj.fetchMore remote fuel this (Frac 0 f) skip start lg) as [r l] eqn:Er
  end.
  intros H. injection H as H _.
  apply all_flatten_fulfilled in H as (u & v & _ & -> & _).
  exact (IH _ _ _ Er).
Qed.

(** The requests of a stub in the [skipReplies] mode when the call is
    fulfilled, for any amount. *)
Lemma fetchMore_flat_fulfilled (remote : Remote) (this : More) (skip : JsVal) :
  truthy skip = true →
  ∀ fuel start amount log fetched log',
    amount ≠ NaN →
    MoreObj.fetchMore remote fuel this amount skip start log = (Fulfilled fetched, log') →
    log' = log ++ map (λ b, InfoCall (MoreObj.info_request b))
                      (chunks 100 (map (String.append "t1_")
                                       (take (Num.count amount (length (children this) - start))
                                             (drop start (children this))))).
Proof.
  intros Hskip. induction fuel as [|fuel IH]; intros start amount log fetched log' Hnan;
    [discriminate|].
  cbn [MoreObj.fetchMore].
  destruct (Num.le0 amount || (length (children this) <=? start)%nat) eqn:Hstop.
  - intros [= _ <-].
    replace (take _ (drop start (children this))) with (@nil string);
      [simpl; rewrite app_nil_r; reflexivity|].
    apply orb_true_iff in Hstop as [H|H].
    + rewrite count_stop by exact H. reflexivity.
    + apply Nat.leb_le in H. rewrite drop_ge by exact H. symmetry. apply take_nil.
  - apply orb_false_iff in Hstop as [Hpos Hlt]. apply Nat.leb_gt in Hlt.
    rewrite Hskip. cbn [negb].
    destruct (wanted_step (children this) start amount Hnan Hpos Hlt)
      as (Hids & Hlen & Hstep).
    cbn zeta in Hids, Hlen, Hstep.
    destruct (Nat.eq_dec (Num.count amount (length (children this) - start)) 0) as [Hz|Hnz].
    + destruct (count_zero amount (length (children this) - start) Hnan Hpos ltac:(lia) Hz)
        as [f ->].
      intros H. exfalso.
      exact (fetchMore_flat_stuck remote this skip f start Hskip Hlt (S fuel) log _ _
               ltac:(cbn [MoreObj.fetchMore Num.le0]; change (0 <? 0) with false; cbn [orb];
                     replace (length (children this) <=? start)%nat with false
                       by (symmetry; apply Nat.leb_gt; exact Hlt);
                     rewrite Hskip; cbn [negb]; exact H)).
    + rewrite Hids, length_map, Hlen. rewrite Hstep by lia.
      destruct (MoreObj.fetchMore remote fuel this _ skip _ _) as [r l] eqn:Er.
      intros H. injection H as H <-.
      apply all_flatten_fulfilled in H as (u & v & _ & -> & _).
      apply IH in Er; [| apply sub_not_NaN, Hnan].
      rewrite Er. cbn [map]. rewrite <- app_assoc. reflexivity.
Qed.

(** X10. In the [skipReplies] mode the requests of a More stub are fixed
    before any answer arrives: asked for [amount] children from [start],
    where [amount] is an integer or infinite, it
    sends the next min(amount, N - start) children in batches of 100 to
    [api/info], ceil(min(amount, N - start) / 100) requests, and it settles
    (fulfilled or rejected) whatever the remote side answers.  Fuel above the
    number of children left is enough. *)
Theorem fetchMore_flat_requests (remote : Remote) (this : More) (skip : JsVal)
    (fuel start : nat) (amount : JsNum) (log : list Call) :
  truthy skip = true →
  Num.integral amount = true →
  (length (children this) - start < fuel)%nat →
  let wanted := take (Num.count amount (length (children this) - start))
                     (drop start (children this)) in
  let batches := chunks 100 (map (String.append "t1_") wanted) in
  ∃ out,
    MoreObj.fetchMore remote fuel this amount skip start log
    = (out, log ++ map (λ b, InfoCall (MoreObj.info_request b)) batches)
    ∧ out ≠ Pending
    ∧ length batches
      = ((Num.count amount (length (children this) - start) + 99) / 100)%nat
    ∧ concat batches = map (String.append "t1_") wanted.
Proof.
  intros Hskip Hnan Hfuel wanted batches.
  destruct (fetchMore_flat_sends remote this skip Hskip fuel start amount log Hnan Hfuel)
    as (out & Hrun & Hout).
  exists out. repeat split; try assumption.
  - subst batches. rewrite chunks_count, length_map. subst wanted.
    rewrite length_take, length_drop.
    pose proof (count_le amount (length (children this) - start)). f_equal. lia.
  - apply chunks_concat. lia.
Qed.

Lemma fetchMore_flat_requests_witness :
  ∃ out,
    MoreObj.fetchMore Sample.remote 3 Sample.pair_stub (Fin 1) (VBool true) 0 []
    = (out, [] ++ map (λ b, InfoCall (MoreObj.info_request b))
                      (chunks 100 (map (String.append "t1_")
                                       (take (Num.count (Fin 1)
                                                (length (children Sample.pair_stub) - 0))
                                             (drop 0 (children Sample.pair_stub))))))
    ∧ out ≠ Pending
    ∧ length (chunks 100 (map (String.append "t1_")
                              (take (Num.count (Fin 1)
                                       (length (children Sample.pair_stub) - 0))
                                    (drop 0 (children Sample.pair_stub)))))
      = ((Num.count (Fin 1) (length (children Sample.pair_stub) - 0) + 99) / 100)%nat
    ∧ concat (chunks 100 (map (String.append "t1_")
                              (take (Num.count (Fin 1)
                                       (length (children Sample.pair_stub) - 0))
                                    (drop 0 (children Sample.pair_stub)))))
      = map (String.append "t1_")
            (take (Num.count (Fin 1) (length (children Sample.pair_stub) - 0))
                  (drop 0 (children Sample.pair_stub))).
Proof.
  apply (fetchMore_flat_requests Sample.remote Sample.pair_stub (VBool true) 3 0 (Fin 1) []).
  - reflexivity.
  - reflexivity.
  - simpl. lia.
Defined.

Lemma index_count (n : JsNum) (len : nat) :
  n ≠ NaN → Num.le0 n = false → Num.index n len = Num.count n len.
Proof.
  intros Hnan Hpos. destruct n as [a|a f| | |]; try congruence; try discriminate;
    [| | reflexivity]; cbn in *.
  - destruct (a <? 0) eqn:E; [lia | reflexivity].
  - unfold Num.trunc. rewrite Hpos, Hpos. reflexivity.
Qed.

(** X11. The children a comment Listing asks its stub for are the children it
    takes off the stub.  A comment Listing with a stub of N children and no
    lookahead, asked for [n] items in the [skipReplies] mode: when the call is
    fulfilled, it has sent the first min(n, N) children to [api/info], in
    batches of 100 and in order, and the stub of the new Listing holds the
    other children, in order; so a later call goes on where this one stopped. *)
Theorem fetchMore_stub_bookkeeping (proxies : bool) (remote : Remote) (fuel : nat) (L L' : Listing)
    (more : More) (n : JsNum) (skip ap : JsVal) (log log' : list Call) :
  _more L = Some more → _isCommentList L = true → _cachedLookahead L = None →
  content_only (items L) = true →
  truthy skip = true → n ≠ NaN →
  (length (children more) < fuel)%nat →
  ListingObj.fetchMore proxies remote (S fuel) L
    (Obj {| amount := VNum n; skipReplies := skip; append := ap |}) log
  = (Fulfilled L', log') →
  let c := Num.count n (length (children more)) in
  log' = log ++ map (λ b, InfoCall (MoreObj.info_request b))
                    (chunks 100 (map (String.append "t1_") (take c (children more))))
  ∧ children <$> _more L' = Some (drop c (children more))
  ∧ _cachedLookahead L' = None.
Proof.
  intros Hmore Hcom Hla Hwf Hskip Hnan Hfuel. destruct proxies; [proxied_absurd|].
  rewrite fetchMore_number_off by exact Hnan. cbn zeta.
  destruct (Num.le0 n || isFinished L) eqn:Hstop.
  - assert (Hc : Num.count n (length (children more)) = 0%nat).
    { apply orb_true_iff in Hstop as [H|H].
      - apply count_stop, H.
      - unfold isFinished in H. rewrite Hcom, Hmore, Hla in H. cbn in H.
        destruct (children more); [| discriminate].
        pose proof (count_le n 0). simpl. lia. }
    intros [= <- <-]. cbn zeta. rewrite Hc. cbn. rewrite app_nil_r.
    rewrite clone_content by exact Hwf.
    repeat split;
      match goal with
      | |- context [if truthy ?x then L else _] => destruct (truthy x)
      end; cbn; rewrite ?Hmore, ?Hla; reflexivity.
  - apply orb_false_iff in Hstop as [Hpos _]. rewrite Hla, Hmore.
    unfold ListingObj._fetchMoreComments. cbn [skipReplies append].
    destruct (MoreObj.fetchMore remote fuel more n skip 0 log) as [out log1] eqn:Hrun.
    destruct out as [fetched|e|]; try discriminate.
    apply (fetchMore_flat_fulfilled remote more skip Hskip) in Hrun; [| exact Hnan].
    rewrite Nat.sub_0_r, drop_0 in Hrun. subst log1.
    rewrite clone_content by exact Hwf.
    assert (Hm : ∀ c : Listing,
              c = (if truthy (if decide (ap = VUndefined) then VBool true else ap)
                   then L else ListingObj._empty L) →
              _more c = Some more ∧ _cachedLookahead c = None)
      by (intros c ->;
          match goal with
          | |- context [if truthy ?x then L else _] => destruct (truthy x)
          end; cbn; rewrite ?Hmore, ?Hla; repeat split).
    match goal with
    | |- context [ListingObj.set_items (items ?c ++ fetched) ?c] =>
        destruct (Hm c eq_refl) as (Hm1 & Hm2); clear Hm;
        remember c as cl eqn:Hcl; clear Hcl
    end.
    cbn [ListingObj.set_items _more]. rewrite Hm1. intros [= <- <-]. cbn zeta.
    repeat split; cbn; [| exact Hm2].
    unfold Arr.slice_from. rewrite index_count by assumption. reflexivity.
Qed.

Lemma fetchMore_stub_bookkeeping_witness :
  ∃ L' log',
    ListingObj.fetchMore false Sample.info_echo 4 Sample.replies
      (Obj {| amount := VNum (Fin 1); skipReplies := VBool true; append := VUndefined |}) []
    = (Fulfilled L', log')
    ∧ log' = [] ++ map (λ b, InfoCall (MoreObj.info_request b))
                       (chunks 100 (map (String.append "t1_")
                                        (take (Num.count (Fin 1)
                                                 (length (children Sample.pair_stub)))
                                              (children Sample.pair_stub))))
    ∧ children <$> _more L'
      = Some (drop (Num.count (Fin 1) (length (children Sample.pair_stub)))
                   (children Sample.pair_stub))
    ∧ _cachedLookahead L' = None.
Proof.
  do 2 eexists. split; [vm_compute; reflexivity|].
  eapply (fetchMore_stub_bookkeeping false Sample.info_echo 3 Sample.replies _ Sample.pair_stub
            (Fin 1) (VBool true) VUndefined []); try reflexivity.
  - discriminate.
  - simpl. lia.
Defined.

(** * Further properties of request_handler.ts *)

(** *** The rate limit *)

(** X12. A request made while the rate limit is used up ([ratelimitRemaining]
    below 1 and [ratelimitExpiration] not reached).  Without
    [continueAfterRatelimitError] the chain is rejected with a RateLimitError
    that carries the time left, and [oauthRequest] is rejected: with that
    error when there is at least one status among [retryErrorCodes] (as by
    default), and with a TypeError when [retryErrorCodes] is empty, where the
    retry handler runs and reads the [response] that this error does not
    have.  Either way nothing is sent, no time passes and the requester is as
    before.  With [continueAfterRatelimitError], the call is the same call
    made at the moment the rate limit expires. *)
Theorem rate_limited_request (transport : RequestHandler.Transport) (fuel : nat)
    (options : Request) (attempts : Z) (w : RequestHandler.World) :
  let r := RequestHandler.this w in
  let left := RequestHandler.num (RequestHandler.ratelimitExpiration r)
              - RequestHandler.now w in
  RequestHandler.num (RequestHandler.ratelimitRemaining r) < 1 →
  0 < left →
  (RequestHandler.continueAfterRatelimitError (RequestHandler._config r) = false →
   RequestHandler.dispatch transport options attempts w = (Rejected (RateLimitError left), w)
   ∧ (RequestHandler.retryErrorCodes (RequestHandler._config r) ≠ [] →
      RequestHandler.oauthRequest transport (S fuel) options attempts w
      = (Rejected (RateLimitError left), w))
   ∧ (RequestHandler.retryErrorCodes (RequestHandler._config r) = [] →
      RequestHandler.oauthRequest transport (S fuel) options attempts w
      = (Rejected TypeError, w)))
  ∧ (RequestHandler.continueAfterRatelimitError (RequestHandler._config r) = true →
     let later := RequestHandler.delay left w in
     RequestHandler.now later
     = RequestHandler.num (RequestHandler.ratelimitExpiration r)
     ∧ RequestHandler.oauthRequest transport (S fuel) options attempts w
       = RequestHandler.oauthRequest transport (S fuel) options attempts later).
Proof.
  intros r left Hrem Hleft. subst r left.
  assert (Hlim : RequestHandler._awaitRatelimit w
    = if RequestHandler.continueAfterRatelimitError
           (RequestHandler._config (RequestHandler.this w))
      then (Fulfilled (),
            RequestHandler.delay
              (RequestHandler.num (RequestHandler.ratelimitExpiration (RequestHandler.this w))
               - RequestHandler.now w) w)
      else (Rejected
              (RateLimitError
                 (RequestHandler.num
                    (RequestHandler.ratelimitExpiration (RequestHandler.this w))
                  - RequestHandler.now w)), w)).
  { unfold RequestHandler._awaitRatelimit.
    rewrite (proj2 (Z.ltb_lt _ _)) by exact Hrem.
    rewrite (proj2 (Z.ltb_lt _ _)) by lia. reflexivity. }
  split; intros Hcont.
  - assert (Hd : RequestHandler.dispatch transport options attempts w
                 = (Rejected
                      (RateLimitError
                         (RequestHandler.num
                            (RequestHandler.ratelimitExpiration (RequestHandler.this w))
                          - RequestHandler.now w)), w)).
    { unfold RequestHandler.dispatch. rewrite Hlim, Hcont. reflexivity. }
    split; [exact Hd|]. split; intros Hpat.
    + cbn [RequestHandler.oauthRequest].
      rewrite Hd, retry_handler_patterns by exact Hpat. reflexivity.
    + cbn [RequestHandler.oauthRequest]. rewrite Hd, Hpat. reflexivity.
  - cbn zeta. split; [unfold RequestHandler.delay; cbn; lia|].
    cbn [RequestHandler.oauthRequest].
    cbn [RequestHandler.delay RequestHandler.this].
    do 2 f_equal.
    unfold RequestHandler.dispatch. rewrite Hlim, Hcont.
    unfold RequestHandler._awaitRatelimit. cbn [RequestHandler.delay RequestHandler.this
      RequestHandler.now].
    rewrite (proj2 (Z.ltb_ge _ (RequestHandler.num
               (RequestHandler.ratelimitExpiration (RequestHandler.this w))))) by lia.
    rewrite andb_false_r. reflexivity.
Qed.

Lemma rate_limited_request_witness :
  let limited := λ config,
    {| RequestHandler.this :=
         RequestHandler.set_ratelimit (Some 0) (Some 1060000) (Sample.requester config 5000000);
       RequestHandler.now := 1000000;
       RequestHandler.sent := [] |} in
  RequestHandler.oauthRequest (Sample.scripted []) 1 Sample.get_me 1
    (limited RequestHandler.createConfig)
  = (Rejected (RateLimitError 60000), limited RequestHandler.createConfig)
  ∧ RequestHandler.oauthRequest (Sample.scripted []) 1 Sample.get_me 1
      (limited Sample.no_retry_codes)
    = (Rejected TypeError, limited Sample.no_retry_codes).
Proof.
  intros limited. split.
  - destruct (rate_limited_request (Sample.scripted []) 0 Sample.get_me 1
                (limited RequestHandler.createConfig)) as [H _];
      [reflexivity | reflexivity |].
    destruct (H eq_refl) as (_ & Hdefault & _). apply Hdefault. discriminate.
  - destruct (rate_limited_request (Sample.scripted []) 0 Sample.get_me 1
                (limited Sample.no_retry_codes)) as [H _];
      [reflexivity | reflexivity |].
    destruct (H eq_refl) as (_ & _ & Hnone). apply Hnone. reflexivity.
Defined.

(** *** The delay between requests *)

(** X13. [_awaitRequestDelay] spaces the requests.  A call lets its
    request through at the later of now and [_nextRequestTimestamp], and the
    next call (on a requester with the timestamp this call has left) lets its
    request through at least [requestDelay] ms after that, however soon it is
    made. *)
Theorem request_delay_spacing (w w' : RequestHandler.World) :
  RequestHandler._nextRequestTimestamp (RequestHandler.this w) ≠ PosInf →
  RequestHandler._nextRequestTimestamp (RequestHandler.this w) ≠ NaN →
  let w1 := RequestHandler._awaitRequestDelay w in
  RequestHandler._nextRequestTimestamp (RequestHandler.this w')
  = RequestHandler._nextRequestTimestamp (RequestHandler.this w1) →
  RequestHandler.now w ≤ RequestHandler.now w1
  ∧ (∀ t, RequestHandler._nextRequestTimestamp (RequestHandler.this w) = Fin t →
          RequestHandler.now w1 = Z.max (RequestHandler.now w) t)
  ∧ RequestHandler.now w1
    + RequestHandler.requestDelay (RequestHandler._config (RequestHandler.this w))
    ≤ RequestHandler.now (RequestHandler._awaitRequestDelay w').
Proof.
  intros Hinf Hnan w1 Hnext. subst w1. revert Hnext.
  unfold RequestHandler._awaitRequestDelay.
  destruct (RequestHandler._nextRequestTimestamp (RequestHandler.this w)) as [t|t f| | |];
    try congruence; cbn.
  - intros ->. cbn. repeat split; try lia. intros ? [= <-]. lia.
  - destruct (RequestHandler.now w <=? t) eqn:E; intros ->; cbn; unfold Num.trunc;
      repeat split; try discriminate;
      repeat match goal with
             | |- context [if ?b then _ else _] => destruct b eqn:?
             end; lia.
  - intros ->. cbn. repeat split; try discriminate; lia.
Qed.

Lemma request_delay_spacing_witness :
  let w := Sample.world RequestHandler.createConfig 5000000 in
  RequestHandler.now (RequestHandler._awaitRequestDelay w)
  + RequestHandler.requestDelay (RequestHandler._config (RequestHandler.this w))
  ≤ RequestHandler.now
      (RequestHandler._awaitRequestDelay (RequestHandler._awaitRequestDelay w)).
Proof.
  intros w.
  destruct (request_delay_spacing w (RequestHandler._awaitRequestDelay w))
    as (_ & _ & H); [discriminate | discriminate | reflexivity |].
  exact H.
Defined.

(** *** The backoff *)

(** X14. With [Math.random()] in [0, 1), the exponential backoff waits
    nothing before a first attempt, between 2^(attempts-1) s - 300 ms and
    2^(attempts-1) s + 700 ms before a later one, and always longer before
    attempt [attempts + 1] than before attempt [attempts]. *)
Theorem backoff_grows (transport : RequestHandler.Transport) (attempts : Z)
    (w w' : RequestHandler.World) :
  (∀ s, -300 ≤ RequestHandler.jitter transport s < 700) →
  1 ≤ attempts →
  let wait := λ a v, RequestHandler.now (RequestHandler._awaitExponentialBackoff transport a v)
                     - RequestHandler.now v in
  (attempts = 1 → wait attempts w = 0)
  ∧ (2 ≤ attempts →
     2 ^ (attempts - 1) * 1000 - 300 ≤ wait attempts w < 2 ^ (attempts - 1) * 1000 + 700)
  ∧ wait attempts w < wait (attempts + 1) w'.
Proof.
  intros Hj Ha wait. subst wait. cbn beta.
  unfold RequestHandler._awaitExponentialBackoff, RequestHandler.delay.
  pose proof (Hj (RequestHandler.sent w)) as Hw.
  pose proof (Hj (RequestHandler.sent w')) as Hw'.
  rewrite (proj2 (Z.leb_le 1 attempts)) by lia.
  rewrite (proj2 (Z.leb_le 1 (attempts + 1))) by lia.
  replace (attempts + 1 - 1) with (Z.succ (attempts - 1)) by lia.
  rewrite Z.pow_succ_r by lia.
  assert (Hpow1 : 0 < 2 ^ (attempts - 1)) by (apply Z.pow_pos_nonneg; lia).
  destruct (attempts =? 1) eqn:E1; destruct (attempts + 1 =? 1) eqn:E2;
    try (apply Z.eqb_eq in E2; lia).
  - apply Z.eqb_eq in E1. subst attempts. cbn in *. repeat split; lia.
  - apply Z.eqb_neq in E1.
    assert (Hpow2 : 2 ≤ 2 ^ (attempts - 1)).
    { change 2 with (2 ^ 1) at 1. apply Z.pow_le_mono_r; lia. }
    cbn. repeat split; lia.
Qed.

Lemma backoff_grows_witness :
  let w := Sample.world RequestHandler.createConfig 5000000 in
  RequestHandler.now (RequestHandler._awaitExponentialBackoff (Sample.scripted []) 2 w)
  - RequestHandler.now w
  < RequestHandler.now (RequestHandler._awaitExponentialBackoff (Sample.scripted []) (2 + 1) w)
    - RequestHandler.now w.
Proof.
  intros w.
  destruct (backoff_grows (Sample.scripted []) 2 w w) as (_ & _ & H);
    [intros s; cbn; lia | lia | exact H].
Defined.

(** *** The access token *)

(** X15. [updateAccessToken] asks for a token only when it has to.  A cached
    token that has not expired is returned as it is, and so is whatever is
    cached when the requester has neither a refresh token nor a username with
    a password: nothing is sent and nothing changes.  When a token is asked
    for, one request is sent, and the token of the answer is stored with the
    expiry [Date.now() + expires_in * 1000] of the moment the answer came.
    And a token the call is fulfilled with is returned again, without a
    request, by every later call that finds it cached and not expired. *)
Theorem token_reused (transport : RequestHandler.Transport) (w : RequestHandler.World) :
  let r := RequestHandler.this w in
  (truthy_str (RequestHandler.accessToken r) = true →
   RequestHandler.now w ≤ RequestHandler.num (RequestHandler.tokenExpiration r) →
   RequestHandler.updateAccessToken transport w
   = (Fulfilled (RequestHandler.accessToken r), w))
  ∧ (truthy_str (RequestHandler.refreshToken r) = false →
     truthy_str (RequestHandler.username r) && truthy_str (RequestHandler.password r)
     = false →
     RequestHandler.updateAccessToken transport w
     = (Fulfilled (RequestHandler.accessToken r), w))
  ∧ ∀ token w1,
      RequestHandler.updateAccessToken transport w = (Fulfilled token, w1) →
      (w1 = w
       ∨ ∃ tokenInfo latency,
           RequestHandler.credentialedClientRequest transport (RequestHandler.sent w)
             (RequestHandler.now w) = (Resolved tokenInfo, latency)
           ∧ token = RequestHandler.access_token tokenInfo
           ∧ RequestHandler.sent w1 = RequestHandler.sent w ++ [RequestHandler.TokenRequest]
           ∧ RequestHandler.tokenExpiration (RequestHandler.this w1)
             = Some (RequestHandler.now w1 + RequestHandler.expires_in tokenInfo * 1000))
      ∧ RequestHandler.accessToken (RequestHandler.this w1) = token
      ∧ ∀ w',
          truthy_str token = true →
          RequestHandler.accessToken (RequestHandler.this w') = token →
          RequestHandler.tokenExpiration (RequestHandler.this w')
          = RequestHandler.tokenExpiration (RequestHandler.this w1) →
          RequestHandler.now w'
          ≤ RequestHandler.num (RequestHandler.tokenExpiration (RequestHandler.this w1)) →
          RequestHandler.updateAccessToken transport w' = (Fulfilled token, w').
Proof.
  intros r. subst r.
  assert (Hcached : ∀ v,
    truthy_str (RequestHandler.accessToken (RequestHandler.this v)) = true →
    RequestHandler.now v
    ≤ RequestHandler.num (RequestHandler.tokenExpiration (RequestHandler.this v)) →
    RequestHandler.updateAccessToken transport v
    = (Fulfilled (RequestHandler.accessToken (RequestHandler.this v)), v)).
  { intros v Htok Hexp. unfold RequestHandler.updateAccessToken.
    rewrite Htok. rewrite (proj2 (Z.ltb_ge _ _)) by exact Hexp. reflexivity. }
  split; [apply Hcached|]. split.
  - intros Hrefresh Hpass. unfold RequestHandler.updateAccessToken.
    rewrite Hrefresh, Hpass, andb_false_r. reflexivity.
  - intros token w1 Hrun.
    assert (Hfirst :
      (w1 = w
       ∨ ∃ tokenInfo latency,
           RequestHandler.credentialedClientRequest transport (RequestHandler.sent w)
             (RequestHandler.now w) = (Resolved tokenInfo, latency)
           ∧ token = RequestHandler.access_token tokenInfo
           ∧ RequestHandler.sent w1 = RequestHandler.sent w ++ [RequestHandler.TokenRequest]
           ∧ RequestHandler.tokenExpiration (RequestHandler.this w1)
             = Some (RequestHandler.now w1 + RequestHandler.expires_in tokenInfo * 1000))
      ∧ RequestHandler.accessToken (RequestHandler.this w1) = token).
    { revert Hrun. unfold RequestHandler.updateAccessToken.
      destruct (_ && _).
      - destruct (RequestHandler.credentialedClientRequest transport _ _)
          as [[tokenInfo|e] latency] eqn:Hreq; [| discriminate].
        destruct (RequestHandler.error tokenInfo) as [err|],
                 (RequestHandler.error_description tokenInfo) as [descr|];
          try (repeat case_match; discriminate).
        destruct (RequestHandler.token_scope tokenInfo) as [scopes|]; [| discriminate].
        intros [= <- <-]. split; [| reflexivity].
        right. exists tokenInfo, latency. repeat split.
      - intros [= <- <-]. split; [left|]; reflexivity. }
    destruct Hfirst as [Hfirst Htok]. repeat split; try assumption.
    intros w' Htruthy Hsame Hexp Hnow. rewrite <- Hsame.
    apply Hcached; [rewrite Hsame; exact Htruthy | rewrite Hexp; exact Hnow].
Qed.

Lemma token_reused_witness :
  let w := Sample.world RequestHandler.createConfig 5000000 in
  RequestHandler.updateAccessToken (Sample.scripted []) w
  = (Fulfilled (RequestHandler.accessToken (RequestHandler.this w)), w).
Proof.
  intros w. destruct (token_reused (Sample.scripted []) w) as [H _].
  apply H; [reflexivity | cbn; lia].
Defined.

(** *** What the two handlers leave alone *)

(** X16. What [oauthRequest] does not retry.  Take a call whose chain is
    fulfilled, or is rejected with anything but a 401: a 404, a 500 or a 503,
    a request without an answer, a failed token request, a rate-limit error.
    With at least one status among [retryErrorCodes], as by default, the call
    settles with exactly that and sends nothing more.  With [retryErrorCodes]
    empty the same holds for a fulfilment, and for a status when the method
    of the failed request is not idempotent or [attempts] has reached
    [maxRetryAttempts]; a rejection that is not a StatusCodeError becomes a
    TypeError, and again nothing more is sent. *)
Theorem failure_not_retried (transport : RequestHandler.Transport) (fuel : nat)
    (options : Request) (attempts : Z) (w w1 : RequestHandler.World)
    (out : Settled string) :
  RequestHandler.dispatch transport options attempts w = (out, w1) →
  (∀ m, out ≠ Rejected (StatusCodeError 401 m)) →
  let patterns := RequestHandler.retryErrorCodes
                    (RequestHandler._config (RequestHandler.this w)) in
  let max := RequestHandler.maxRetryAttempts
               (RequestHandler._config (RequestHandler.this w1)) in
  let settles_with := λ o : Settled string,
    RequestHandler.oauthRequest transport (S fuel) options attempts w = (o, w1) in
  (patterns ≠ [] → settles_with out)
  ∧ (patterns = [] →
     match out with
     | Rejected (StatusCodeError code m) =>
         m ∉ IDEMPOTENT_HTTP_VERBS ∨ max ≤ attempts → settles_with out
     | Rejected _ => settles_with (Rejected TypeError)
     | Fulfilled _ | Pending => settles_with out
     end).
Proof.
  intros Hd H401 patterns max settles_with. subst settles_with. cbn beta.
  cbn [RequestHandler.oauthRequest]. fold patterns. rewrite Hd. split.
  - intros Hne. rewrite retry_handler_patterns by exact Hne.
    apply unauthorized_handler_other. exact H401.
  - intros ->. destruct out as [body|e|]; try reflexivity.
    destruct e as [| | | code m | | | |]; try reflexivity.
    intros Hstay. rewrite retry_handler_status. fold max.
    assert (Hb : negb (bool_decide (m ∈ IDEMPOTENT_HTTP_VERBS)) || (max <=? attempts) = true).
    { destruct Hstay as [Hm | Hmax].
      - rewrite (bool_decide_eq_false_2 _ Hm). reflexivity.
      - apply orb_true_iff. right. apply Z.leb_le. exact Hmax. }
    rewrite Hb. apply unauthorized_handler_other. exact H401.
Qed.

Lemma failure_not_retried_witness :
  let w := Sample.world RequestHandler.createConfig 5000000 in
  RequestHandler.oauthRequest (Sample.scripted [404]) 1 Sample.get_me 1 w
  = RequestHandler.dispatch (Sample.scripted [404]) Sample.get_me 1 w
  ∧ (RequestHandler.dispatch (Sample.scripted [404]) Sample.get_me 1 w).1
    = Rejected (StatusCodeError 404 GET).
Proof.
  intros w. split; [| reflexivity].
  destruct (failure_not_retried (Sample.scripted [404]) 0 Sample.get_me 1 w
              (RequestHandler.dispatch (Sample.scripted [404]) Sample.get_me 1 w).2
              (Rejected (StatusCodeError 404 GET))) as [H _].
  - reflexivity.
  - intros m. discriminate.
  - apply H. discriminate.
Defined.

Lemma dispatches_app (a b : list RequestHandler.Sent) :
  dispatches (a ++ b) = (dispatches a + dispatches b)%nat.
Proof. unfold dispatches. rewrite filter_app, length_app. reflexivity. Qed.

Lemma advances_refl (w : RequestHandler.World) : advances 0 w w.
Proof.
  repeat split; [lia|]. exists []. rewrite app_nil_r. split; [reflexivity | cbn; lia].
Qed.

Lemma advances_trans (j k : nat) (a b c : RequestHandler.World) :
  advances j a b → advances k b c → advances (j + k) a c.
Proof.
  intros (Hs1 & Hn1 & e1 & He1 & Hd1) (Hs2 & Hn2 & e2 & He2 & Hd2).
  repeat split; [congruence | lia |].
  exists (e1 ++ e2). rewrite He2, He1, <- app_assoc, dispatches_app.
  split; [reflexivity | lia].
Qed.

Lemma advances_weaken (j k : nat) (a b : RequestHandler.World) :
  (j ≤ k)%nat → advances j a b → advances k a b.
Proof.
  intros Hjk (Hs & Hn & e & He & Hd). repeat split; try assumption.
  exists e. split; [exact He | lia].
Qed.

Lemma delay_advances (ms : Z) (w : RequestHandler.World) :
  advances 0 w (RequestHandler.delay ms w).
Proof.
  repeat split; [cbn; lia|]. exists []. cbn. rewrite app_nil_r.
  split; [reflexivity | cbn; lia].
Qed.

Lemma awaitRatelimit_advances (w : RequestHandler.World) :
  let r := RequestHandler._awaitRatelimit w in
  advances 0 w r.2 ∧ r.1 ≠ Pending ∧ ∀ code m, r.1 ≠ Rejected (StatusCodeError code m).
Proof.
  cbn zeta. unfold RequestHandler._awaitRatelimit.
  destruct (_ && _); [destruct (RequestHandler.continueAfterRatelimitError _)|]; cbn;
    repeat split; try discriminate;
    first [apply delay_advances | apply advances_refl].
Qed.

Lemma awaitRequestDelay_advances (w : RequestHandler.World) :
  advances 0 w (RequestHandler._awaitRequestDelay w).
Proof.
  unfold RequestHandler._awaitRequestDelay.
  repeat split; [cbn; lia|]. exists []. cbn. rewrite app_nil_r.
  split; [reflexivity | cbn; lia].
Qed.

Lemma backoff_advances (transport : RequestHandler.Transport) (attempts : Z)
    (w : RequestHandler.World) :
  advances 0 w (RequestHandler._awaitExponentialBackoff transport attempts w).
Proof.
  unfold RequestHandler._awaitExponentialBackoff.
  destruct (attempts =? 1); [apply advances_refl | apply delay_advances].
Qed.

Lemma elapse_token_advances (latency : Z) (w : RequestHandler.World) :
  advances 0 w (RequestHandler.elapse latency [RequestHandler.TokenRequest] w).
Proof.
  repeat split; [cbn; lia|]. exists [RequestHandler.TokenRequest].
  split; [reflexivity | vm_compute; lia].
Qed.

Lemma updateAccessToken_advances (transport : RequestHandler.Transport)
    (w : RequestHandler.World) :
  let r := RequestHandler.updateAccessToken transport w in
  advances 0 w r.2 ∧ r.1 ≠ Pending
  ∧ (never_unauthorized transport → ∀ m, r.1 ≠ Rejected (StatusCodeError 401 m)).
Proof.
  cbn zeta. unfold RequestHandler.updateAccessToken.
  destruct (_ && _);
    [| cbn; split; [apply advances_refl | split; [discriminate | intros _ m; discriminate]]].
  destruct (RequestHandler.credentialedClientRequest transport _ _)
    as [[tokenInfo|e] latency] eqn:Hreq.
  - pose proof (elapse_token_advances latency w) as (Hs & Hn & extra & He & Hd).
    destruct (RequestHandler.error tokenInfo) as [err|],
             (RequestHandler.error_description tokenInfo) as [descr|];
      [repeat case_match | repeat case_match |
       | destruct (RequestHandler.token_scope tokenInfo) as [scopes|]];
      cbn -[Z.mul]; (split; [| split; [discriminate | intros _ m; discriminate]]);
      (split; [exact Hs | split; [exact Hn | exists extra; split; assumption]]).
  - cbn. split; [apply elapse_token_advances | split; [discriminate|]].
    intros [_ Hnever] m [= ->].
    exact (Hnever _ _ m (f_equal fst Hreq)).
Qed.

(** One run of the chain: it keeps the settings, sends at most one request of
    the pipeline, lets no time run backwards, and settles. *)
Lemma dispatch_frame (transport : RequestHandler.Transport) (options : Request)
    (attempts : Z) (w : RequestHandler.World) :
  let r := RequestHandler.dispatch transport options attempts w in
  advances 1 w r.2
  ∧ r.1 ≠ Pending
  ∧ (never_unauthorized transport → ∀ m, r.1 ≠ Rejected (StatusCodeError 401 m)).
Proof.
  cbn zeta. unfold RequestHandler.dispatch.
  destruct (awaitRatelimit_advances w) as (H1 & Hp1 & Hc1).
  destruct (RequestHandler._awaitRatelimit w) as [[[]|e|] w1]; cbn in H1, Hp1, Hc1;
    [| cbn; split; [| split];
       [eapply advances_weaken; [| exact H1]; lia | discriminate
       | intros _ m [= ->]; exact (Hc1 401 m eq_refl)]
     | congruence].
  pose proof (awaitRequestDelay_advances w1) as H2.
  pose proof (backoff_advances transport attempts (RequestHandler._awaitRequestDelay w1))
    as H3.
  set (w3 := RequestHandler._awaitExponentialBackoff transport attempts _) in *.
  destruct (updateAccessToken_advances transport w3) as (H4 & Hp4 & Hc4).
  assert (Hto : ∀ w4, advances 0 w3 w4 → advances 0 w w4).
  { intros w4 H. exact (advances_trans 0 0 _ _ _ H1
                          (advances_trans 0 0 _ _ _ H2 (advances_trans 0 0 _ _ _ H3 H))). }
  clearbody w3.
  destruct (RequestHandler.updateAccessToken transport w3) as [[token|e|] w4];
    cbn in H4, Hp4, Hc4;
    [| cbn; split; [| split];
       [eapply advances_weaken; [| apply Hto, H4]; lia | discriminate
       | intros Hnever m [= ->]; exact (Hc4 Hnever m eq_refl)]
     | congruence].
  destruct (RequestHandler.rawRequest transport _ _ _ _)
    as [answer latency] eqn:Hraw.
  assert (H5 : advances 1 w (RequestHandler.elapse latency
                               [RequestHandler.Dispatch options attempts token] w4)).
  { apply (advances_trans 0 1 _ w4); [apply Hto, H4|].
    repeat split; [cbn; lia|].
    exists [RequestHandler.Dispatch options attempts token].
    split; [reflexivity | vm_compute; lia]. }
  destruct answer as [code ratelimit body|].
  - assert (H6 : advances 1 w
        match ratelimit with
        | Some (remaining, reset) =>
            RequestHandler.with_this
              (RequestHandler.set_ratelimit (Some remaining)
                 (Some (RequestHandler.now
                          (RequestHandler.elapse latency
                             [RequestHandler.Dispatch options attempts token] w4)
                        + reset * 1000))
                 (RequestHandler.this
                    (RequestHandler.elapse latency
                       [RequestHandler.Dispatch options attempts token] w4)))
              (RequestHandler.elapse latency
                 [RequestHandler.Dispatch options attempts token] w4)
        | None => RequestHandler.elapse latency
                    [RequestHandler.Dispatch options attempts token] w4
        end).
    { destruct ratelimit as [[remaining reset]|]; exact H5. }
    destruct ((200 <=? code) && (code <? 300)); cbn -[Z.mul];
      (split; [exact H6 | split; [discriminate|]]); [intros _ m; discriminate|].
    intros [Hnever _] m [= -> _].
    exact (Hnever _ _ _ _ _ _ (f_equal fst Hraw)).
  - cbn. split; [exact H5 | split; [discriminate | intros _ m; discriminate]].
Qed.

Lemma retry_handler_cases (patterns : list Z)
    (retry : RequestHandler.World → Settled string * RequestHandler.World)
    (attempts : Z) (out : Settled string) (w1 : RequestHandler.World) :
  RequestHandler.retry_handler patterns retry attempts (out, w1) = (out, w1)
  ∨ (out ≠ Pending
     ∧ RequestHandler.retry_handler patterns retry attempts (out, w1) = (Rejected TypeError, w1))
  ∨ (attempts < RequestHandler.maxRetryAttempts (RequestHandler._config (RequestHandler.this w1))
     ∧ RequestHandler.retry_handler patterns retry attempts (out, w1) = retry w1).
Proof.
  destruct patterns as [|code patterns];
    [| left; apply retry_handler_patterns; discriminate].
  destruct out as [body|e|]; try (left; reflexivity).
  destruct e as [| | | code m | | | |];
    try (right; left; split; [discriminate | reflexivity]).
  rewrite retry_handler_status.
  destruct (negb _); [left; reflexivity|]. cbn [orb].
  destruct (_ <=? attempts) eqn:E; [left; reflexivity|].
  right. right. apply Z.leb_gt in E. split; [exact E | reflexivity].
Qed.

Lemma unauthorized_handler_cases
    (again : RequestHandler.World → Settled string * RequestHandler.World)
    (settled : Settled string * RequestHandler.World) :
  RequestHandler.unauthorized_handler again settled = settled
  ∨ RequestHandler.unauthorized_handler again settled
    = again (RequestHandler.invalidate_token settled.2).
Proof.
  unfold RequestHandler.unauthorized_handler.
  destruct settled as [out w]. repeat (case_match; try (left; reflexivity)).
  right. reflexivity.
Qed.

Lemma invalidate_token_advances (w : RequestHandler.World) :
  advances 0 w (RequestHandler.invalidate_token w).
Proof.
  repeat split; [cbn; lia|]. exists []. cbn. rewrite app_nil_r.
  split; [reflexivity | vm_compute; lia].
Qed.

(** X17. The pipeline reads its settings and never writes them.  Whatever
    the transport does and however a call of [oauthRequest] settles, the
    configuration of the requester, its refresh token, its username and its
    password are afterwards what they were; what had been sent before is still
    the beginning of what has been sent, and the clock has not gone back. *)
Theorem pipeline_keeps_settings (transport : RequestHandler.Transport) (fuel : nat)
    (options : Request) (attempts : Z) (w : RequestHandler.World) :
  let r := RequestHandler.oauthRequest transport fuel options attempts w in
  settings r.2 = settings w
  ∧ RequestHandler.now w ≤ RequestHandler.now r.2
  ∧ ∃ extra, RequestHandler.sent r.2 = RequestHandler.sent w ++ extra.
Proof.
  cbn zeta.
  assert (H : ∃ k, advances k w
                     (RequestHandler.oauthRequest transport fuel options attempts w).2).
  { revert attempts w. induction fuel as [|fuel IH]; intros attempts w.
    - exists 0%nat. apply advances_refl.
    - cbn [RequestHandler.oauthRequest].
      destruct (dispatch_frame transport options attempts w) as (Hd & _ & _).
      destruct (RequestHandler.dispatch transport options attempts w) as [out w1].
      cbn in Hd.
      set (patterns := RequestHandler.retryErrorCodes _).
      assert (Hretry : ∃ k, advances k w
                (RequestHandler.retry_handler patterns
                   (RequestHandler.oauthRequest transport fuel options (attempts + 1))
                   attempts (out, w1)).2).
      { destruct (retry_handler_cases patterns
                    (RequestHandler.oauthRequest transport fuel options (attempts + 1))
                    attempts out w1) as [-> | [[_ ->] | [_ ->]]].
        - exists 1%nat. exact Hd.
        - exists 1%nat. exact Hd.
        - destruct (IH (attempts + 1) w1) as [k Hk].
          exists (1 + k)%nat. exact (advances_trans _ _ _ _ _ Hd Hk). }
      destruct Hretry as [k Hk].
      destruct (unauthorized_handler_cases
                  (RequestHandler.oauthRequest transport fuel options attempts)
                  (RequestHandler.retry_handler patterns
                     (RequestHandler.oauthRequest transport fuel options (attempts + 1))
                     attempts (out, w1))) as [-> | ->].
      + exists k. exact Hk.
      + destruct (IH attempts (RequestHandler.invalidate_token
                   (RequestHandler.retry_handler patterns
                      (RequestHandler.oauthRequest transport fuel options (attempts + 1))
                      attempts (out, w1)).2)) as [j Hj].
        exists (k + (0 + j))%nat.
        exact (advances_trans _ _ _ _ _ Hk
                 (advances_trans _ _ _ _ _ (invalidate_token_advances _) Hj)). }
  destruct H as (k & Hs & Hn & extra & He & _).
  repeat split; try assumption. exists extra. exact He.
Qed.

Lemma retry_budget_aux (transport : RequestHandler.Transport) (options : Request) :
  never_unauthorized transport →
  ∀ fuel attempts w,
    let budget := Z.max 1 (RequestHandler.maxRetryAttempts
                             (RequestHandler._config (RequestHandler.this w))
                           - attempts + 1) in
    let r := RequestHandler.oauthRequest transport fuel options attempts w in
    advances (Z.to_nat budget) w r.2
    ∧ (∀ m, r.1 ≠ Rejected (StatusCodeError 401 m))
    ∧ (budget ≤ Z.of_nat fuel → r.1 ≠ Pending).
Proof.
  intros Hnever. induction fuel as [|fuel IH]; intros attempts w budget r.
  - subst r. cbn. split; [| split; [discriminate | lia]].
    eapply advances_weaken; [| apply advances_refl]. lia.
  - subst r. cbn [RequestHandler.oauthRequest].
    destruct (dispatch_frame transport options attempts w) as (Hd & Hp & H401).
    specialize (H401 Hnever).
    destruct (RequestHandler.dispatch transport options attempts w) as [out w1].
    cbn in Hd, Hp, H401.
    assert (Hcfg : RequestHandler._config (RequestHandler.this w1)
                   = RequestHandler._config (RequestHandler.this w)).
    { destruct Hd as (Hs & _). unfold settings in Hs. congruence. }
    set (patterns := RequestHandler.retryErrorCodes _).
    assert (Hretry :
      let s := RequestHandler.retry_handler patterns
                 (RequestHandler.oauthRequest transport fuel options (attempts + 1))
                 attempts (out, w1) in
      advances (Z.to_nat budget) w s.2
      ∧ (∀ m, s.1 ≠ Rejected (StatusCodeError 401 m))
      ∧ (budget ≤ Z.of_nat (S fuel) → s.1 ≠ Pending)).
    { cbn zeta.
      destruct (retry_handler_cases patterns
                  (RequestHandler.oauthRequest transport fuel options (attempts + 1))
                  attempts out w1) as [-> | [[_ ->] | [Hlt ->]]].
      - cbn. split; [| split; [exact H401 | intros _; exact Hp]].
        eapply advances_weaken; [| exact Hd]. subst budget. lia.
      - cbn. split; [| split; [intros m; discriminate | intros _; discriminate]].
        eapply advances_weaken; [| exact Hd]. subst budget. lia.
      - destruct (IH (attempts + 1) w1) as (Ha & Hb & Hc). rewrite Hcfg in *.
        split; [| split; [exact Hb|]].
        + eapply advances_weaken; [| exact (advances_trans _ _ _ _ _ Hd Ha)].
          subst budget. lia.
        + intros Hfuel. apply Hc. subst budget. lia. }
    destruct Hretry as (Ha & Hb & Hc).
    rewrite unauthorized_handler_other by exact Hb.
    split; [exact Ha | split; [exact Hb | exact Hc]].
Qed.

(** X18. The retry budget.  Against a transport that never answers 401, a
    call [oauthRequest(options, attempts)] sends at most
    max(1, maxRetryAttempts - attempts + 1) requests, that is at most
    [maxRetryAttempts] for a call that starts at the first attempt, and it
    settles: that much fuel is enough. *)
Theorem retry_budget (transport : RequestHandler.Transport) (fuel : nat)
    (options : Request) (attempts : Z) (w : RequestHandler.World) :
  never_unauthorized transport →
  let budget := Z.max 1 (RequestHandler.maxRetryAttempts
                           (RequestHandler._config (RequestHandler.this w))
                         - attempts + 1) in
  let r := RequestHandler.oauthRequest transport fuel options attempts w in
  (∃ extra, RequestHandler.sent r.2 = RequestHandler.sent w ++ extra
            ∧ Z.of_nat (dispatches extra) ≤ budget)
  ∧ (budget ≤ Z.of_nat fuel → r.1 ≠ Pending).
Proof.
  intros Hnever budget r.
  destruct (retry_budget_aux transport options Hnever fuel attempts w)
    as ((_ & _ & extra & He & Hd) & _ & Hp).
  split; [| exact Hp]. exists extra. split; [exact He|]. subst budget. lia.
Qed.

Lemma retry_budget_witness :
  let w := Sample.world RequestHandler.createConfig 5000000 in
  let r := RequestHandler.oauthRequest (Sample.scripted [503; 503; 503; 503]) 3
             Sample.get_me 1 w in
  (∃ extra, RequestHandler.sent r.2 = RequestHandler.sent w ++ extra
            ∧ Z.of_nat (dispatches extra)
              ≤ Z.max 1 (RequestHandler.maxRetryAttempts
                           (RequestHandler._config (RequestHandler.this w)) - 1 + 1))
  ∧ (Z.max 1 (RequestHandler.maxRetryAttempts
                (RequestHandler._config (RequestHandler.this w)) - 1 + 1) ≤ Z.of_nat 3 →
     r.1 ≠ Pending).
Proof.
  intros w.
  apply (retry_budget (Sample.scripted [503; 503; 503; 503]) 3 Sample.get_me 1 w).
  split.
  - intros sent now options token ratelimit body. cbn.
    intros [= H _ _]. revert H.
    generalize (length (filter (λ s, Sample.is_dispatch s = true) sent)).
    intros n. do 5 (destruct n as [|n]; [discriminate|]). discriminate.
  - intros sent now m. discriminate.
Defined.

(** * Properties of helpers.ts and of the object builders *)

(** *** Fullnames *)

Lemma prefix_append (a p s : string) :
  String.prefix a p = true → String.prefix a (p +:+ s) = true.
Proof.
  revert p. induction a as [|c a IH]; intros p H;
    [destruct (p +:+ s); reflexivity|].
  destruct p as [|d p]; [discriminate|]. simpl in H. simpl.
  destruct (ascii_dec c d); [apply IH, H | discriminate].
Qed.

Lemma prefix_cons (c d : ascii) (a p : string) :
  String.prefix (String c a) (String d p)
  = if ascii_dec c d then String.prefix a p else false.
Proof. reflexivity. Qed.

Lemma prefix_cons_nil (c : ascii) (a : string) : String.prefix (String c a) "" = false.
Proof. reflexivity. Qed.

Lemma hasFullnamePrefix_append (p s : string) :
  Helpers.hasFullnamePrefix p = true → Helpers.hasFullnamePrefix (p +:+ s) = true.
Proof.
  unfold Helpers.hasFullnamePrefix. intros H.
  apply orb_true_iff in H as [H|H]; apply orb_true_iff.
  - left. destruct p as [|t [|d [|u rest]]]; try discriminate. exact H.
  - right. apply prefix_append, H.
Qed.

Lemma str_slice_append (p s : string) :
  Helpers.str_slice (String.length p) (p +:+ s) = s.
Proof. induction p as [|c p IH]; [destruct s; reflexivity | exact IH]. Qed.

Lemma addFullnamePrefix_named (item prefix : string) :
  Helpers.hasFullnamePrefix prefix = true →
  Helpers.hasFullnamePrefix (Helpers.addFullnamePrefix (inl item) prefix) = true
  ∧ Helpers.addFullnamePrefix (inl (Helpers.addFullnamePrefix (inl item) prefix)) prefix
    = Helpers.addFullnamePrefix (inl item) prefix.
Proof.
  intros Hp. unfold Helpers.addFullnamePrefix.
  destruct (Helpers.hasFullnamePrefix item) eqn:Hitem.
  - rewrite ?Hitem. split; reflexivity.
  - rewrite (hasFullnamePrefix_append prefix item Hp). split; reflexivity.
Qed.

(** X19. [addFullnamePrefix] with a prefix that is itself a fullname prefix
    ([t1_], [t3_], [t4_], [LiveUpdateEvent_], ...): the result always has a
    fullname prefix, a string that has one already (of whatever kind) is
    returned as it is, any other string gets the prefix in front, and applying
    the function twice is the same as applying it once. *)
Theorem addFullnamePrefix_idempotent (item prefix : string) :
  Helpers.hasFullnamePrefix prefix = true →
  let named := Helpers.addFullnamePrefix (inl item) prefix in
  Helpers.hasFullnamePrefix named = true
  ∧ (Helpers.hasFullnamePrefix item = true → named = item)
  ∧ (Helpers.hasFullnamePrefix item = false → named = prefix +:+ item)
  ∧ Helpers.addFullnamePrefix (inl named) prefix = named.
Proof.
  intros Hp named. subst named. unfold Helpers.addFullnamePrefix.
  destruct (Helpers.hasFullnamePrefix item) eqn:Hitem.
  - rewrite ?Hitem.
    repeat split; first [reflexivity | discriminate | intros _; reflexivity].
  - rewrite (hasFullnamePrefix_append prefix item Hp).
    repeat split; first [reflexivity | discriminate | intros _; reflexivity].
Qed.

Lemma addFullnamePrefix_idempotent_witness :
  Helpers.hasFullnamePrefix (Helpers.addFullnamePrefix (inl "c0b6xx0") "t1_") = true
  ∧ (Helpers.hasFullnamePrefix "c0b6xx0" = true →
     Helpers.addFullnamePrefix (inl "c0b6xx0") "t1_" = "c0b6xx0")
  ∧ (Helpers.hasFullnamePrefix "c0b6xx0" = false →
     Helpers.addFullnamePrefix (inl "c0b6xx0") "t1_" = "t1_" +:+ "c0b6xx0")
  ∧ Helpers.addFullnamePrefix (inl (Helpers.addFullnamePrefix (inl "c0b6xx0") "t1_")) "t1_"
    = Helpers.addFullnamePrefix (inl "c0b6xx0") "t1_".
Proof. apply (addFullnamePrefix_idempotent "c0b6xx0" "t1_"). reflexivity. Defined.

(** X20. The ids the builders of the requester work out.  [getComment],
    [getSubmission] and [getMessage] always build their object with a name
    that has a fullname prefix, and building again from that name gives the
    same name.  [getLivethread] builds its object with the thread id itself,
    whether the id comes bare or behind [LiveUpdateEvent_]. *)
Theorem builder_names (id : string) :
  (Helpers.hasFullnamePrefix (Requester.getComment id) = true
   ∧ Requester.getComment (Requester.getComment id) = Requester.getComment id)
  ∧ (Helpers.hasFullnamePrefix (Requester.getSubmission id) = true
     ∧ Requester.getSubmission (Requester.getSubmission id) = Requester.getSubmission id)
  ∧ (Helpers.hasFullnamePrefix (Requester.getMessage id) = true
     ∧ Requester.getMessage (Requester.getMessage id) = Requester.getMessage id)
  ∧ Requester.getLivethread ("LiveUpdateEvent_" +:+ id) = id
  ∧ (Helpers.hasFullnamePrefix id = false → Requester.getLivethread id = id).
Proof.
  pose proof (addFullnamePrefix_named id) as Hfix.
  split; [apply Hfix; reflexivity|]. split; [apply Hfix; reflexivity|].
  split; [apply Hfix; reflexivity|]. split.
  - unfold Requester.getLivethread, Helpers.addFullnamePrefix.
    assert (H : Helpers.hasFullnamePrefix ("LiveUpdateEvent_" +:+ id) = true)
      by (apply hasFullnamePrefix_append; reflexivity).
    rewrite H. apply (str_slice_append "LiveUpdateEvent_").
  - intros Hid. unfold Requester.getLivethread, Helpers.addFullnamePrefix.
    rewrite Hid. apply (str_slice_append "LiveUpdateEvent_").
Qed.

(** *** User names *)

Lemma name_char_not_slash (c : ascii) :
  RedditUserObj.is_word c || Ascii.eqb c "-" = true → c ≠ "/"%char.
Proof. intros H ->. discriminate. Qed.

(** X21. The URI of a RedditUser.  [_uri] gives [user/<name>/about] exactly
    for a name that is a string of 1 to 20 characters, all of them letters,
    digits, [_] or [-]; for anything else it throws an InvalidUserError.  So
    no name with a [/] in it reaches a path.  And for such a name [getUser]
    builds the user with that very name, whether it is given bare, behind
    [u/] or behind [/u/]. *)
Theorem user_uri (v : JsVal) (u : string) :
  (RedditUserObj._uri v = RedditUserObj.Uri u
   ↔ ∃ n, v = VStr n
          ∧ RedditUserObj.USERNAME_REGEX n = true
          ∧ u = "user/" +:+ n +:+ "/about")
  ∧ ∀ n, RedditUserObj.USERNAME_REGEX n = true →
         (1 ≤ String.length n ≤ 20)%nat
         ∧ ¬ In "/"%char (String.list_ascii_of_string n)
         ∧ Requester.getUser n = n
         ∧ Requester.getUser ("u/" +:+ n) = n
         ∧ Requester.getUser ("/u/" +:+ n) = n.
Proof.
  split.
  - unfold RedditUserObj._uri. split.
    + destruct v as [| | b | k | n]; try discriminate.
      destruct (RedditUserObj.USERNAME_REGEX n) eqn:E; [| discriminate].
      intros [= <-]. exists n. repeat split. exact E.
    + intros (n & -> & E & ->). rewrite E. reflexivity.
  - intros n Hn. unfold RedditUserObj.USERNAME_REGEX in Hn. cbn zeta in Hn.
    apply andb_true_iff in Hn as [Hlen Hchars].
    apply andb_true_iff in Hlen as [H1 H20].
    apply Nat.leb_le in H1, H20.
    assert (Hlen : length (String.list_ascii_of_string n) = String.length n).
    { clear. induction n as [|c n IH]; [reflexivity | cbn; f_equal; exact IH]. }
    rewrite Hlen in H1, H20.
    assert (Hslash : ¬ In "/"%char (String.list_ascii_of_string n)).
    { intros Hin. rewrite forallb_forall in Hchars.
      exact (name_char_not_slash _ (Hchars _ Hin) eq_refl). }
    split; [lia|]. split; [exact Hslash|].
    assert (Hbare : Requester.getUser n = n).
    { unfold Requester.getUser, Requester.strip_slash_prefix.
      change ("/" +:+ "u" +:+ "/") with "/u/". change ("u" +:+ "/") with "u/".
      destruct n as [|c0 [|c1 rest]]; try reflexivity.
      - rewrite !prefix_cons, !prefix_cons_nil.
        destruct (ascii_dec "/" c0), (ascii_dec "u" c0); reflexivity.
      - rewrite !prefix_cons.
        destruct (ascii_dec "/" c0) as [<-|];
          [exfalso; apply Hslash; left; reflexivity|].
        destruct (ascii_dec "u" c0); [| reflexivity].
        destruct (ascii_dec "/" c1) as [<-|]; [| reflexivity].
        exfalso. apply Hslash. right. left. reflexivity. }
    split; [exact Hbare|].
    unfold Requester.getUser, Requester.strip_slash_prefix.
    change ("/" +:+ "u" +:+ "/") with "/u/". change ("u" +:+ "/") with "u/".
    change ("u/" +:+ n) with (String "u" (String "/" n)).
    change ("/u/" +:+ n) with (String "/" (String "u" (String "/" n))).
    rewrite !prefix_cons.
    destruct (ascii_dec "/" "u") as [|_]; [discriminate|].
    destruct (ascii_dec "/" "/") as [_|]; [| congruence].
    destruct (ascii_dec "u" "u") as [_|]; [| congruence].
    destruct n; split; reflexivity.
Qed.

Lemma user_uri_witness :
  (1 ≤ String.length "not_an_aardvark" ≤ 20)%nat
  ∧ ¬ In "/"%char (String.list_ascii_of_string "not_an_aardvark")
  ∧ Requester.getUser "not_an_aardvark" = "not_an_aardvark"
  ∧ Requester.getUser ("u/" +:+ "not_an_aardvark") = "not_an_aardvark"
  ∧ Requester.getUser ("/u/" +:+ "not_an_aardvark") = "not_an_aardvark".
Proof.
  destruct (user_uri (VStr "not_an_aardvark") "user/not_an_aardvark/about") as [_ H].
  apply H. reflexivity.
Defined.

Lemma builder_names_witness :
  Requester.getLivethread ("LiveUpdateEvent_" +:+ "whrdxo8dg9n0") = "whrdxo8dg9n0"
  ∧ (Helpers.hasFullnamePrefix "whrdxo8dg9n0" = false →
     Requester.getLivethread "whrdxo8dg9n0" = "whrdxo8dg9n0").
Proof.
  destruct (builder_names "whrdxo8dg9n0") as (_ & _ & _ & H1 & H2).
  split; [exact H1 | exact H2].
Defined.

(** *** Permissions *)

Lemma comma_free_append (a b : string) :
  comma_free (a +:+ b) = comma_free a && comma_free b.
Proof.
  induction a as [|c a IH]; [reflexivity|].
  change (comma_free (String c a +:+ b))
    with (negb (Ascii.eqb c ",") && comma_free (a +:+ b)).
  rewrite IH, andb_assoc. reflexivity.
Qed.

(** Two comma-separated heads that are free of commas are equal when the
    joined strings are. *)
Lemma comma_split (x y r1 r2 : string) :
  comma_free x = true → comma_free y = true →
  x +:+ String "," r1 = y +:+ String "," r2 → x = y ∧ r1 = r2.
Proof.
  revert y. induction x as [|c x IH]; intros y Hx Hy Heq.
  - destruct y as [|d y]; [simpl in Heq; injection Heq as ->; split; reflexivity|].
    simpl in Heq, Hy. injection Heq as <- _. discriminate.
  - destruct y as [|d y].
    + simpl in Heq, Hx. injection Heq as -> _. discriminate.
    + simpl in Heq, Hx, Hy. injection Heq as <- Heq.
      apply andb_true_iff in Hx as [_ Hx]. apply andb_true_iff in Hy as [_ Hy].
      destruct (IH y Hx Hy Heq) as [-> ->]. split; reflexivity.
Qed.

Lemma comma_free_no_split (x y r : string) :
  comma_free x = true → x ≠ y +:+ "," +:+ r.
Proof.
  intros Hx ->. rewrite comma_free_append in Hx.
  apply andb_true_iff in Hx as [_ Hx]. discriminate.
Qed.

Lemma join_comma_inj (l1 l2 : list string) :
  length l1 = length l2 →
  Forall (λ s, comma_free s = true) l1 → Forall (λ s, comma_free s = true) l2 →
  join "," l1 = join "," l2 → l1 = l2.
Proof.
  revert l2. induction l1 as [|x l1 IH]; intros l2 Hlen H1 H2 Heq.
  - destruct l2; [reflexivity | discriminate].
  - destruct l2 as [|y l2]; [discriminate|].
    inversion H1 as [|? ? Hx H1']; subst. inversion H2 as [|? ? Hy H2']; subst.
    injection Hlen as Hlen.
    destruct l1 as [|x' l1], l2 as [|y' l2]; try discriminate.
    + cbn in Heq. congruence.
    + change (join "," (x :: x' :: l1))
        with (x +:+ String "," (join "," (x' :: l1))) in Heq.
      change (join "," (y :: y' :: l2))
        with (y +:+ String "," (join "," (y' :: l2))) in Heq.
      destruct (comma_split _ _ _ _ Hx Hy Heq) as [-> Hrest].
      f_equal. apply IH; assumption.
Qed.

Lemma sign_entry_inj (b1 b2 : bool) (t : string) :
  (if b1 then "+" else "-") +:+ t = (if b2 then "+" else "-") +:+ t → b1 = b2.
Proof. destruct b1, b2; simpl; intros H; try reflexivity; discriminate. Qed.

(** X22. The string [formatPermissions] builds says exactly which of the
    known permissions are enabled.  It has one entry per name of
    [allPermissionNames], in the order of that list, so two arrays that enable
    the same known permissions (in any order, with or without repetitions or
    unknown names) give the same string; and when no known name has a comma,
    two arrays that give the same string enable the same known permissions.
    Without an array the string is [+all]. *)
Theorem formatPermissions_faithful (allPermissionNames perms perms' : list string) :
  Forall (λ s, comma_free s = true) allPermissionNames →
  (Helpers.formatPermissions allPermissionNames (Some perms)
   = Helpers.formatPermissions allPermissionNames (Some perms')
   ↔ ∀ type, type ∈ allPermissionNames → (type ∈ perms ↔ type ∈ perms'))
  ∧ Helpers.formatPermissions allPermissionNames None = "+all".
Proof.
  intros Hfree. split; [| reflexivity]. unfold Helpers.formatPermissions. split.
  - intros Heq. apply join_comma_inj in Heq.
    + intros type Hin.
      assert (Hb : bool_decide (type ∈ perms) = bool_decide (type ∈ perms')).
      { clear Hfree. induction allPermissionNames as [|t l IH];
          [apply elem_of_nil in Hin; contradiction|].
        cbn in Heq. injection Heq as Hhead Htail.
        apply elem_of_cons in Hin as [-> | Hin]; [| exact (IH Htail Hin)].
        exact (sign_entry_inj _ _ _ Hhead). }
      rewrite <- (bool_decide_eq_true (type ∈ perms)),
              <- (bool_decide_eq_true (type ∈ perms')), Hb. reflexivity.
    + rewrite !length_map. reflexivity.
    + apply Forall_map. eapply Forall_impl; [exact Hfree|].
      intros t Ht. cbn. rewrite comma_free_append, Ht. destruct (bool_decide _); reflexivity.
    + apply Forall_map. eapply Forall_impl; [exact Hfree|].
      intros t Ht. cbn. rewrite comma_free_append, Ht. destruct (bool_decide _); reflexivity.
  - intros Hsame. f_equal. apply map_ext_in. intros t Hin.
    apply list_elem_of_In in Hin. f_equal.
    destruct (Hsame t Hin) as [H1 H2].
    destruct (bool_decide (t ∈ perms)) eqn:E1, (bool_decide (t ∈ perms')) eqn:E2;
      try reflexivity.
    + apply bool_decide_eq_true in E1. apply bool_decide_eq_false in E2. tauto.
    + apply bool_decide_eq_false in E1. apply bool_decide_eq_true in E2. tauto.
Qed.

Lemma formatPermissions_faithful_witness :
  Helpers.formatModPermissions (Some ["posts"; "wiki"])
  = Helpers.formatModPermissions (Some ["wiki"; "posts"; "wiki"; "all"]).
Proof.
  destruct (formatPermissions_faithful Helpers.MODERATOR_PERMISSIONS
              ["posts"; "wiki"] ["wiki"; "posts"; "wiki"; "all"]) as [[_ H] _].
  - repeat constructor.
  - apply H. intros type Hin. unfold Helpers.MODERATOR_PERMISSIONS in Hin.
    rewrite !elem_of_cons, !elem_of_nil in *.
    repeat destruct Hin as [-> | Hin]; try contradiction;
      split; intros H0; repeat destruct H0 as [H0 | H0];
      try discriminate H0; try contradiction; auto 10.
Defined.

(** *** Renaming a key *)



(** *** Searching a tree of messages *)

(** What [find] over the mapped replies gives, element by element. *)
Lemma find_defined_map {A B} (f : A → option B) (l : list A) :
  (∀ b, find_defined_spec_some f l b) ∧ find_defined_spec_none f l.
Proof.
  unfold find_defined_spec_some, find_defined_spec_none.
  induction l as [|a l [IHs IHn]]; cbn.
  - split; [intros b [=] | intros _ a []].
  - destruct (f a) as [b'|] eqn:E.
    + split; [intros b [= <-]; exists a; split; [left; reflexivity | exact E]
             | intros [=]].
    + split.
      * intros b Hb. destruct (IHs b Hb) as (a' & Hin & Ha'). exists a'. split;
          [right; exact Hin | exact Ha'].
      * intros Hn a' [<- | Hin]; [exact E | apply IHn; assumption].
Qed.

Lemma Message_induction (P : Helpers.Message → Prop) :
  (∀ n, P (Helpers.Msg n None)) →
  (∀ n l, Forall P l → P (Helpers.Msg n (Some l))) →
  ∀ m, P m.
Proof.
  intros Hleaf Hnode. fix IH 1. intros [n [l|]]; [apply Hnode | apply Hleaf].
  induction l as [|r l IHl]; constructor; [apply IH | exact IHl].
Qed.

(** X24. [findMessageInTree] finds a message exactly when there is one.
    What it returns is a message of the tree under the root (the root itself
    or a reply at any depth) that has the desired fullname; and it returns
    [undefined] if and only if no message of the tree has that fullname. *)
Theorem findMessageInTree_correct (desiredName : string) (rootNode : Helpers.Message) :
  (∀ m, Helpers.findMessageInTree desiredName rootNode = Some m →
        Helpers.fullname m = desiredName ∧ in_tree m rootNode)
  ∧ (Helpers.findMessageInTree desiredName rootNode = None
     ↔ ∀ m, in_tree m rootNode → Helpers.fullname m ≠ desiredName).
Proof.
  assert (H : (∀ m, Helpers.findMessageInTree desiredName rootNode = Some m →
                    Helpers.fullname m = desiredName ∧ in_tree m rootNode)
              ∧ (Helpers.findMessageInTree desiredName rootNode = None →
                 ∀ m, in_tree m rootNode → Helpers.fullname m ≠ desiredName)).
  { induction rootNode as [n | n l IH] using Message_induction.
    - cbn. destruct (String.eqb n desiredName) eqn:E.
      + split; [| discriminate]. intros m [= <-]. apply String.eqb_eq in E.
        split; [exact E | constructor].
      + split; [discriminate|]. intros _ m Hin. apply String.eqb_neq in E.
        inversion Hin; subst. exact E.
    - cbn. destruct (String.eqb n desiredName) eqn:E.
      + split; [| discriminate]. intros m [= <-]. apply String.eqb_eq in E.
        split; [exact E | constructor].
      + apply String.eqb_neq in E.
        destruct (find_defined_map (Helpers.findMessageInTree desiredName) l)
          as [Hsome Hnone].
        rewrite Forall_forall in IH. split.
        * intros m Hm. destruct (Hsome m Hm) as (r & Hin & Hr).
          destruct (IH r (proj2 (list_elem_of_In _ _) Hin)) as [Hfound _].
          destruct (Hfound m Hr) as [Hname Htree].
          split; [exact Hname | exact (in_tree_reply m n l r Hin Htree)].
        * intros Hn m Hin. inversion Hin as [| n' l' r Hr Htree]; subst; [exact E|].
          destruct (IH r (proj2 (list_elem_of_In _ _) Hr)) as [_ Hmissing].
          exact (Hmissing (Hnone Hn r Hr) m Htree). }
  destruct H as [Hsome Hnone]. split; [exact Hsome|]. split; [exact Hnone|].
  intros Hall. destruct (Helpers.findMessageInTree desiredName rootNode) as [m|] eqn:E;
    [| reflexivity].
  destruct (Hsome m eq_refl) as [Hname Htree]. exfalso. exact (Hall m Htree Hname).
Qed.

Lemma findMessageInTree_correct_witness :
  let leaf := Helpers.Msg "t4_c" None in
  let root := Helpers.Msg "t4_a" (Some [Helpers.Msg "t4_b" (Some [leaf])]) in
  Helpers.findMessageInTree "t4_c" root = Some leaf
  ∧ (Helpers.fullname leaf = "t4_c" ∧ in_tree leaf root)
  ∧ ∀ m, in_tree m leaf → Helpers.fullname m ≠ "t4_a".
Proof.
  intros leaf root. split; [reflexivity|].
  split; [exact (proj1 (findMessageInTree_correct "t4_c" root) leaf eq_refl)|].
  exact (proj1 (proj2 (findMessageInTree_correct "t4_a" leaf)) eq_refl).
Defined.

(** * Properties of ModmailConversation.ts *)

Lemma filter_snoc_key (k : string) (l : list Modmail.ObjId) (o : Modmail.ObjId) :
  filter (λ o, Modmail.key o = k) (l ++ [o])
  = filter (λ o, Modmail.key o = k) l ++ (if decide (Modmail.key o = k) then [o] else []).
Proof.
  rewrite filter_app. f_equal.
Qed.

Lemma getConversationObjects_snoc {V} (l : list Modmail.ObjId) (o : Modmail.ObjId)
    (response : gmap string (gmap string V)) :
  Modmail._getConversationObjects (l ++ [o]) response
  = match Modmail._getConversationObjects l response with
    | inl e => inl e
    | inr conversationObjects =>
        if bool_decide (Modmail.key o ∈ Modmail.Object_prototype) then inl TypeError
        else
          match response !! Modmail.key o with
          | Some objects =>
              inr (<[Modmail.key o :=
                       default [] (conversationObjects !! Modmail.key o)
                       ++ [Modmail.read objects (Modmail.id o)]]> conversationObjects)
          | None => inl TypeError
          end
    end.
Proof. unfold Modmail._getConversationObjects. rewrite foldl_snoc. reflexivity. Qed.

#[local] Instance groupable_dec {V} (response : gmap string (gmap string V)) (o : Modmail.ObjId) :
  Decision (groupable response o).
Proof. unfold groupable. apply _. Defined.

(** X25. [_getConversationObjects] groups the objects of a response by
    key.  When no key that occurs in [objIds] is a property name of
    [Object.prototype] ([constructor], [toString], ...) and the response has
    an object for each of them, the result has exactly the keys that occur,
    and under each key what its ids read in the object of the response, one
    per entry and in the order of the entries: the object with that id, or
    [undefined] for an id the response does not have (a property of
    [Object.prototype] when the id is the name of one).  When some key is a
    property name of [Object.prototype] or has no object in the response,
    the call throws a TypeError. *)
Theorem getConversationObjects_groups {V} (objIds : list Modmail.ObjId)
    (response : gmap string (gmap string V)) :
  (Forall (groupable response) objIds →
   ∃ grouped,
     Modmail._getConversationObjects objIds response = inr grouped
     ∧ ∀ k, grouped !! k
            = if decide (filter (λ o, Modmail.key o = k) objIds = [])
              then None
              else Some (objects_of k objIds response))
  ∧ (¬ Forall (groupable response) objIds →
     Modmail._getConversationObjects objIds response = inl TypeError).
Proof.
  induction objIds as [|o l IH] using rev_ind.
  - split.
    + intros _. exists ∅. split; [reflexivity|]. intros k. rewrite lookup_empty.
      reflexivity.
    + intros H. contradiction H. constructor.
  - destruct IH as [IHok IHbad]. rewrite getConversationObjects_snoc. split.
    + intros Hall. apply Forall_app in Hall as [Hl Ho].
      inversion Ho as [|? ? [Hproto [objects Hobjects]] _]; subst.
      destruct (IHok Hl) as (grouped & -> & Hgrouped).
      rewrite (bool_decide_eq_false_2 _ Hproto), Hobjects.
      eexists. split; [reflexivity|]. intros k.
      unfold objects_of. rewrite filter_snoc_key.
      destruct (decide (Modmail.key o = k)) as [<- | Hk].
      * rewrite lookup_insert_eq, Hgrouped. unfold objects_of. rewrite !Hobjects.
        destruct (decide (filter (λ o0, Modmail.key o0 = Modmail.key o) l ++ [o] = []))
          as [Hnil|_]; [destruct (filter _ l); discriminate|].
        rewrite map_app. cbn.
        destruct (decide (filter (λ o0, Modmail.key o0 = Modmail.key o) l = []))
          as [-> | _]; reflexivity.
      * rewrite lookup_insert_ne, Hgrouped, app_nil_r by exact Hk. reflexivity.
    + intros Hbad.
      destruct (decide (Forall (groupable response) l)) as [Hl | Hl].
      * destruct (IHok Hl) as (grouped & -> & _).
        destruct (bool_decide (Modmail.key o ∈ Modmail.Object_prototype)) eqn:Hproto;
          [reflexivity|].
        destruct (response !! Modmail.key o) as [objects|] eqn:Ho; [| reflexivity].
        contradiction Hbad. apply Forall_app. split; [exact Hl|].
        constructor; [| constructor]. split.
        -- apply bool_decide_eq_false in Hproto. exact Hproto.
        -- rewrite Ho. eexists. reflexivity.
      * rewrite (IHbad Hl). reflexivity.
Qed.

Lemma getConversationObjects_groups_witness :
  let objIds := [ {| Modmail.id := "m1"; Modmail.key := "messages" |};
                  {| Modmail.id := "a1"; Modmail.key := "modActions" |};
                  {| Modmail.id := "m2"; Modmail.key := "messages" |} ] in
  let response : gmap string (gmap string string) :=
    {[ "messages" := {[ "m1" := "hello"; "m2" := "bye" ]};
       "modActions" := {[ "a1" := "archive" ]} ]} in
  (∃ grouped,
     Modmail._getConversationObjects objIds response = inr grouped
     ∧ ∀ k, grouped !! k
            = if decide (filter (λ o, Modmail.key o = k) objIds = [])
              then None
              else Some (objects_of k objIds response))
  ∧ objects_of "messages" objIds response = [Modmail.Own "hello"; Modmail.Own "bye"]
  ∧ Modmail._getConversationObjects
      [ {| Modmail.id := "m1"; Modmail.key := "constructor" |} ]
      (<["constructor" := {[ "m1" := "hello" ]}]> response)
    = inl TypeError.
Proof.
  intros objIds response. split; [| split; [reflexivity|]].
  - destruct (getConversationObjects_groups objIds response) as [H _].
    apply H. repeat constructor; try (eexists; reflexivity);
      intros Hin; repeat (apply elem_of_cons in Hin as [Hin|Hin]; [discriminate|]);
      apply elem_of_nil in Hin; exact Hin.
  - destruct (getConversationObjects_groups
                [ {| Modmail.id := "m1"; Modmail.key := "constructor" |} ]
                (<["constructor" := {[ "m1" := "hello" ]}]> response)) as [_ H].
    apply H. intros Hall. inversion Hall as [|? ? [Hproto _] _]; subst.
    apply Hproto. cbn. apply list_elem_of_here.
Defined.

(** * Properties of snoo-wrapped.ts *)

(** X26. Which options the constructor of SnooWrapped takes.  Without a
    truthy [userAgent] it throws a RequiredArgumentError, whatever the
    credentials.  With one, it throws a MissingCredentialsError unless one of
    the three sets of credentials is there: an [accessToken] that is a
    non-empty string; a [clientId] and a [clientSecret] (anything but
    [undefined]) with a [refreshToken] that is a string; or a [clientId], a
    [clientSecret], a [username] and a [password].  When it succeeds, the
    [credentials] getter shows the options as they were given, with no expiry
    and no scope, and after [updateAccessToken] it shows the new token, expiry
    and scope and the other fields as before. *)
Theorem new_SnooWrapped_accepts (opts : SnooWrappedObj.SnooWrappedOptions) :
  let complete :=
    (truthy (SnooWrappedObj.accessToken opts) = true
     ∧ SnooWrappedObj.is_string (SnooWrappedObj.accessToken opts) = true)
    ∨ (SnooWrappedObj.clientId opts ≠ VUndefined
       ∧ SnooWrappedObj.clientSecret opts ≠ VUndefined
       ∧ SnooWrappedObj.is_string (SnooWrappedObj.refreshToken opts) = true)
    ∨ (SnooWrappedObj.clientId opts ≠ VUndefined
       ∧ SnooWrappedObj.clientSecret opts ≠ VUndefined
       ∧ SnooWrappedObj.username opts ≠ VUndefined
       ∧ SnooWrappedObj.password opts ≠ VUndefined) in
  SnooWrappedObj.new_SnooWrapped None
  = inl (SnooWrappedObj.RequiredArgumentError "options.userAgent")
  ∧ (truthy (SnooWrappedObj.userAgent opts) = false →
     SnooWrappedObj.new_SnooWrapped (Some opts)
     = inl (SnooWrappedObj.RequiredArgumentError "options.userAgent"))
  ∧ (truthy (SnooWrappedObj.userAgent opts) = true → ¬ complete →
     SnooWrappedObj.new_SnooWrapped (Some opts) = inl SnooWrappedObj.MissingCredentialsError)
  ∧ (truthy (SnooWrappedObj.userAgent opts) = true → complete →
     ∃ sw, SnooWrappedObj.new_SnooWrapped (Some opts) = inr sw
       ∧ SnooWrappedObj.sw_userAgent sw = SnooWrappedObj.userAgent opts
       ∧ SnooWrappedObj.credentials sw
         = {| SnooWrappedObj.c_clientId := SnooWrappedObj.clientId opts;
              SnooWrappedObj.c_clientSecret := SnooWrappedObj.clientSecret opts;
              SnooWrappedObj.c_refreshToken := SnooWrappedObj.refreshToken opts;
              SnooWrappedObj.c_accessToken := SnooWrappedObj.accessToken opts;
              SnooWrappedObj.c_tokenExpiration := None;
              SnooWrappedObj.c_scope := None;
              SnooWrappedObj.c_username := SnooWrappedObj.username opts;
              SnooWrappedObj.c_password := SnooWrappedObj.password opts |}
       ∧ ∀ token expiration scope,
           SnooWrappedObj.credentials
             (SnooWrappedObj.updateAccessToken token expiration scope sw)
           = {| SnooWrappedObj.c_clientId := SnooWrappedObj.clientId opts;
                SnooWrappedObj.c_clientSecret := SnooWrappedObj.clientSecret opts;
                SnooWrappedObj.c_refreshToken := SnooWrappedObj.refreshToken opts;
                SnooWrappedObj.c_accessToken := VStr token;
                SnooWrappedObj.c_tokenExpiration := Some expiration;
                SnooWrappedObj.c_scope := Some scope;
                SnooWrappedObj.c_username := SnooWrappedObj.username opts;
                SnooWrappedObj.c_password := SnooWrappedObj.password opts |}).
Proof.
  intros complete. subst complete. unfold SnooWrappedObj.new_SnooWrapped.
  split; [reflexivity|]. split; [intros ->; reflexivity|].
  assert (Hdef : ∀ v, SnooWrappedObj.is_undefined v = false ↔ v ≠ VUndefined).
  { intros v. unfold SnooWrappedObj.is_undefined. apply bool_decide_eq_false. }
  assert (Hundef : ∀ v, SnooWrappedObj.is_undefined v = true ↔ v = VUndefined).
  { intros v. unfold SnooWrappedObj.is_undefined. apply bool_decide_eq_true. }
  split.
  - intros -> Hnot. cbn [negb].
    match goal with
    | |- (if ?c then _ else _) = _ => destruct c eqn:E; [reflexivity|]
    end.
    exfalso. apply Hnot.
    apply andb_false_iff in E as [E|E]; [| apply orb_false_iff in E as [E1 E2]].
    + apply andb_false_iff in E as [E|E]; apply orb_false_iff in E as [E1 E2].
      * left. apply negb_false_iff in E1, E2. split; assumption.
      * right. left. apply orb_false_iff in E1 as [E0 E1]. apply negb_false_iff in E2.
        rewrite Hdef in E0, E1. repeat split; assumption.
    + right. right. apply orb_false_iff in E1 as [E0 E1].
      apply orb_false_iff in E0 as [E E0]. rewrite Hdef in E, E0, E1, E2.
      repeat split; assumption.
  - intros -> Hcomplete. cbn [negb].
    match goal with
    | |- ∃ sw, (if ?c then _ else _) = _ ∧ _ => destruct c eqn:E
    end.
    + exfalso. apply andb_true_iff in E as [E E3]. apply andb_true_iff in E as [E1 E2].
      apply orb_true_iff in E1, E2, E3.
      destruct Hcomplete as [[H1 H2] | [(H1 & H2 & H3) | (H1 & H2 & H3 & H4)]].
      * rewrite H1, H2 in E1. destruct E1; discriminate.
      * destruct E2 as [E2|E2]; [apply orb_true_iff in E2 as [E2|E2];
          rewrite Hundef in E2; contradiction|].
        rewrite H3 in E2. discriminate.
      * destruct E3 as [E3|E3]; [apply orb_true_iff in E3 as [E3|E3];
          [apply orb_true_iff in E3 as [E3|E3]|]|];
          rewrite Hundef in E3; contradiction.
    + eexists. repeat split.
Qed.

Lemma new_SnooWrapped_accepts_witness :
  let opts := {| SnooWrappedObj.userAgent := VStr "app";
                 SnooWrappedObj.accessToken := VUndefined;
                 SnooWrappedObj.clientId := VStr "id";
                 SnooWrappedObj.clientSecret := VStr "";
                 SnooWrappedObj.refreshToken := VStr "refresh";
                 SnooWrappedObj.username := VUndefined;
                 SnooWrappedObj.password := VUndefined |} in
  ∃ sw, SnooWrappedObj.new_SnooWrapped (Some opts) = inr sw
        ∧ SnooWrappedObj.sw_userAgent sw = VStr "app".
Proof.
  intros opts.
  destruct (new_SnooWrapped_accepts opts) as (_ & _ & _ & H).
  destruct H as (sw & H1 & H2 & _); [reflexivity | |].
  - right. left. repeat split; discriminate.
  - exists sw. split; assumption.
Defined.

(** X27. The builders of SnooWrapped.  [getComment] and [getSubmission]
    never throw: the name they build their object with has a fullname prefix
    and so is not empty, and building from that name again gives the same
    name.  [getUser] throws a RequiredArgumentError exactly when nothing is
    left of the name once a leading [u/] or [/u/] is taken off; otherwise it
    builds the user with what is left. *)
Theorem snoowrapped_builders (id : string) :
  (∃ name, SnooWrappedObj.getComment id = inr name
           ∧ Helpers.hasFullnamePrefix name = true
           ∧ SnooWrappedObj.getComment name = inr name)
  ∧ (∃ name, SnooWrappedObj.getSubmission id = inr name
             ∧ Helpers.hasFullnamePrefix name = true
             ∧ SnooWrappedObj.getSubmission name = inr name)
  ∧ (SnooWrappedObj.getUser id = inl (SnooWrappedObj.RequiredArgumentError "data.name")
     ↔ Requester.strip_slash_prefix "u" id = "")
  ∧ (Requester.strip_slash_prefix "u" id ≠ "" →
     SnooWrappedObj.getUser id = inr (Requester.strip_slash_prefix "u" id)).
Proof.
  assert (Hnonempty : ∀ s, Helpers.hasFullnamePrefix s = true →
            SnooWrappedObj.new_RedditContent s = inr s).
  { intros s Hs. unfold SnooWrappedObj.new_RedditContent.
    destruct s; [discriminate | reflexivity]. }
  assert (Hbuild : ∀ prefix, Helpers.hasFullnamePrefix prefix = true →
    ∃ name, SnooWrappedObj.new_RedditContent (Helpers.addFullnamePrefix (inl id) prefix)
            = inr name
            ∧ Helpers.hasFullnamePrefix name = true
            ∧ SnooWrappedObj.new_RedditContent (Helpers.addFullnamePrefix (inl name) prefix)
              = inr name).
  { intros prefix Hp.
    destruct (addFullnamePrefix_named id prefix Hp) as [Hhas Hfix].
    exists (Helpers.addFullnamePrefix (inl id) prefix).
    split; [apply Hnonempty, Hhas|]. split; [exact Hhas|].
    rewrite Hfix. apply Hnonempty, Hhas. }
  split; [apply Hbuild; reflexivity|]. split; [apply Hbuild; reflexivity|].
  unfold SnooWrappedObj.getUser, SnooWrappedObj.new_RedditContent.
  destruct (Requester.strip_slash_prefix "u" id) as [|c rest]; cbn.
  - split; [split; reflexivity | intros H; contradiction H; reflexivity].
  - split; [split; discriminate | reflexivity].
Qed.

Lemma snoowrapped_builders_witness :
  SnooWrappedObj.getComment "c0b6xx0" = inr "t1_c0b6xx0"
  ∧ SnooWrappedObj.getUser "/u/OmgImAlexis" = inr "OmgImAlexis"
  ∧ SnooWrappedObj.getUser "u/"
    = inl (SnooWrappedObj.RequiredArgumentError "data.name").
Proof.
  split; [reflexivity|]. split.
  - apply (proj2 (proj2 (proj2 (snoowrapped_builders "/u/OmgImAlexis")))).
    discriminate.
  - apply (proj1 (proj2 (proj2 (snoowrapped_builders "u/")))). reflexivity.
Defined.
